(** * AegisRPG backend: the match manager, the server authority and the
      connection registry, embedded from
      [backend-essential/MatchManager.js] and [backend-essential/gameServer.js].

    Modelling conventions.
    - JavaScript numbers that the embedded code uses as counters, grid
      coordinates, clock readings, health and damage are integers ([Z]).
      [Math.sqrt (dx*dx + dy*dy) > bound] is compared on squares, and
      [(hash % 1000) / 1000 > 0.8] as [hash % 1000 > 800]; both are the
      exact arithmetic reading of the source expression.
    - The [timestamp] of a request is client input that no handler checks
      before computing with it: it is a [Js.Timestamp] (a finite integer,
      an infinity, or a value that is no number), and the subtractions and
      comparisons on it are those of [Js.Number], with NaN.
    - [Date.now ()], [Math.random ()] and [uuidv4 ()] are inputs of the
      function that calls them; one clock reading serves a whole call.
    - A JS [Map] whose iteration order the code observes is an insertion
      ordered association list; the other maps are [gmap]s.  The template
      string [`${x},${y}`] used as a map key is the pair [(x, y)].
    - Objects are mutated in place in the source; here every mutation is a
      map update and every later read looks the object up again, so two
      names for one object (attacker = target) stay aliased. *)

From Stdlib Require Import ZArith List Bool Lia.
From stdpp Require Import base option list gmap strings pretty.

Local Open Scope Z_scope.

(** A point [{x, y}]. *)
Record Point := { pos_x : Z; pos_y : Z }.

#[global] Instance Point_eq_dec : EqDecision Point.
Proof. solve_decision. Defined.

(** A position [{world: {x, y}, room: {x, y}}]. *)
Record WorldRoom := { world : Point; room : Point }.

#[global] Instance WorldRoom_eq_dec : EqDecision WorldRoom.
Proof. solve_decision. Defined.

(** The two shapes of position object the server holds: a connection
    starts with a [{world, room}] object, and an accepted move request
    stores the [{x, y}] object of the request. *)
Inductive Position :=
| XY (p : Point)
| WR (p : WorldRoom).

#[global] Instance Position_eq_dec : EqDecision Position.
Proof. solve_decision. Defined.

(** ** JavaScript helpers *)
Module Js.

(** [a || b] on numbers: [0] is falsy. *)
Definition or_num (a b : Z) : Z := if a =? 0 then b else a.

(** [a || b] where [a] may be [undefined]. *)
Definition or_undef_num (a : option Z) (b : Z) : Z :=
  match a with
  | Some v => or_num v b
  | None => b
  end.

(** A number as the arithmetic on request timestamps sees it: a finite
    integer, an infinity or NaN. *)
Inductive Number := Fin (n : Z) | PosInf | NegInf | NaN.

(** The [timestamp] property of a request as [JSON.parse] delivers it and
    as the handlers store it: a finite number, a number beyond the double
    range ([1e999] reads as [Infinity], [-1e999] as [-Infinity]), or a
    truthy value that is no number, such as the string ["x"]. *)
Inductive Timestamp := Num (n : Z) | Infinity | NegInfinity | NotNumeric.

#[global] Instance Number_eq_dec : EqDecision Number.
Proof. solve_decision. Defined.
#[global] Instance Timestamp_eq_dec : EqDecision Timestamp.
Proof. solve_decision. Defined.

(** [ToNumber], applied by [-] to both operands. *)
Definition toNumber (t : Timestamp) : Number :=
  match t with
  | Num n => Fin n
  | Infinity => PosInf
  | NegInfinity => NegInf
  | NotNumeric => NaN
  end.

(** [ToBoolean]: of these values only the number [0] is falsy. *)
Definition truthy (t : Timestamp) : bool :=
  match t with
  | Num n => negb (n =? 0)
  | _ => true
  end.

(** [a || b] on timestamps. *)
Definition or_time (a b : Timestamp) : Timestamp := if truthy a then a else b.

(** [a || b] where [a] may be [undefined] (or [null]). *)
Definition or_undef_time (a : option Timestamp) (b : Timestamp) : Timestamp :=
  match a with
  | Some v => or_time v b
  | None => b
  end.

(** [a - b] on numbers. *)
Definition sub (a b : Number) : Number :=
  match a, b with
  | NaN, _ | _, NaN => NaN
  | Fin x, Fin y => Fin (x - y)
  | Fin _, PosInf => NegInf
  | Fin _, NegInf => PosInf
  | PosInf, PosInf => NaN
  | PosInf, _ => PosInf
  | NegInf, NegInf => NaN
  | NegInf, _ => NegInf
  end.

(** [a * b] on numbers: an infinity times [0] is NaN. *)
Definition mul (a b : Number) : Number :=
  let sign (x : Number) : Z :=
    match x with
    | Fin n => Z.sgn n
    | PosInf => 1
    | NegInf => -1
    | NaN => 0
    end in
  match a, b with
  | NaN, _ | _, NaN => NaN
  | Fin x, Fin y => Fin (x * y)
  | _, _ =>
      if sign a * sign b =? 0 then NaN
      else if 0 <? sign a * sign b then PosInf else NegInf
  end.

(** [a < b]: false as soon as an operand is NaN. *)
Definition lt (a b : Number) : bool :=
  match a, b with
  | NaN, _ | _, NaN => false
  | Fin x, Fin y => x <? y
  | NegInf, NegInf => false
  | NegInf, _ => true
  | _, PosInf => match a with PosInf => false | _ => true end
  | _, _ => false
  end.

(** [ToInt32]: wrap into the signed 32-bit range. *)
Definition toInt32 (z : Z) : Z := (z + 2 ^ 31) mod 2 ^ 32 - 2 ^ 31.

(** [a << n] on numbers holding integers. *)
Definition shl (a n : Z) : Z := toInt32 (Z.shiftl (toInt32 a) (Z.land n 31)).

(** An insertion-ordered [Map]: [set] overwrites in place or appends. *)
Section OrderedMap.
Context {K V : Type} `{EqDecision K}.

Fixpoint omap_get (k : K) (m : list (K * V)) : option V :=
  match m with
  | [] => None
  | (k', v) :: rest => if decide (k = k') then Some v else omap_get k rest
  end.

Fixpoint omap_set (k : K) (v : V) (m : list (K * V)) : list (K * V) :=
  match m with
  | [] => [(k, v)]
  | (k', v') :: rest =>
      if decide (k = k') then (k, v) :: rest else (k', v') :: omap_set k v rest
  end.

End OrderedMap.

End Js.

(** ** MatchManager: terrain, rooms, statistics *)
Module MatchManager.

Inductive Terrain :=
| T_grass | T_forest | T_hills | T_water | T_beach | T_desert | T_road
| T_bridge | T_swamp | T_ruins | T_cave | T_camp | T_portal | T_temple
| T_town | T_city | T_village | T_tower | T_dungeon
| T_deep_water | T_dense_forest | T_mountain | T_cliff.

Inductive RoomType :=
| R_field | R_forest | R_hills | R_shore | R_beach | R_desert | R_road
| R_bridge | R_swamp | R_ruins | R_cave | R_camp | R_portal | R_temple
| R_town | R_city | R_village | R_tower | R_dungeon.

Inductive Tile := wall | floor | water_tile | portal_tile.

Inductive Entity := NONE | NPC | CHEST | ITEM | ENEMY | TRAP.

#[global] Instance Terrain_eq_dec : EqDecision Terrain.
Proof. solve_decision. Defined.
#[global] Instance RoomType_eq_dec : EqDecision RoomType.
Proof. solve_decision. Defined.
#[global] Instance Tile_eq_dec : EqDecision Tile.
Proof. solve_decision. Defined.
#[global] Instance Entity_eq_dec : EqDecision Entity.
Proof. solve_decision. Defined.

Record AccessInfo := {
  accessible : bool;
  roomType : option RoomType;
  description : string
}.

Definition access (a : bool) (r : option RoomType) (d : string) : AccessInfo :=
  {| accessible := a; roomType := r; description := d |}.

(** [this.TERRAIN_ACCESS]: every terrain name the code produces has an
    entry. *)
Definition TERRAIN_ACCESS (t : Terrain) : option AccessInfo :=
  Some match t with
  | T_grass => access true (Some R_field) "Open grassland"
  | T_forest => access true (Some R_forest) "Light forest with trees"
  | T_hills => access true (Some R_hills) "Rolling hills"
  | T_water => access true (Some R_shore) "Shallow water, beach access"
  | T_beach => access true (Some R_beach) "Sandy coastline"
  | T_desert => access true (Some R_desert) "Arid desert terrain"
  | T_road => access true (Some R_road) "Clear travel path"
  | T_bridge => access true (Some R_bridge) "River crossing"
  | T_swamp => access true (Some R_swamp) "Dangerous wetlands"
  | T_ruins => access true (Some R_ruins) "Ancient ruins to explore"
  | T_cave => access true (Some R_cave) "Dark cave entrance"
  | T_camp => access true (Some R_camp) "Temporary encampment"
  | T_portal => access true (Some R_portal) "Magical portal site"
  | T_temple => access true (Some R_temple) "Sacred temple grounds"
  | T_town => access true (Some R_town) "Bustling town center"
  | T_city => access true (Some R_city) "Large city district"
  | T_village => access true (Some R_village) "Small village"
  | T_tower => access true (Some R_tower) "Wizard tower interior"
  | T_dungeon => access true (Some R_dungeon) "Dangerous dungeon entrance"
  | T_deep_water => access false None "Deep ocean waters - impassable"
  | T_dense_forest => access false None "Impenetrable thick forest"
  | T_mountain => access false None "Steep mountain cliffs - impassable"
  | T_cliff => access false None "Sheer cliff face - impassable"
  end.

Definition isTerrainAccessible (t : Terrain) : bool :=
  match TERRAIN_ACCESS t with
  | Some info => accessible info
  | None => false
  end.

Definition getTerrainAccessInfo (t : Terrain) : AccessInfo :=
  match TERRAIN_ACCESS t with
  | Some info => info
  | None => access false None "Unknown terrain - impassable"
  end.

(** [hashCoords]: [hash << 5] wraps to 32 bits, the additions do not. *)
Definition hashCoords (x y seed : Z) : Z :=
  let hash := seed in
  let hash := (Js.shl hash 5 + hash) + x in
  let hash := (Js.shl hash 5 + hash) + y in
  Z.abs hash.

(** [generateTerrainType]; [value] is kept in thousandths. *)
Definition generateTerrainType (x y seed : Z) : Terrain :=
  let hash := hashCoords x y seed in
  let value := Z.rem hash 1000 in
  if (y =? 0) && (Z.abs x <=? 5) then T_road
  else if 800 <? value then T_mountain
  else if 600 <? value then T_forest
  else if 400 <? value then T_hills
  else if 200 <? value then T_grass
  else if 100 <? value then T_water
  else T_deep_water.

Record Landmark := {
  lm_x : Z;
  lm_y : Z;
  lm_type : Terrain;
  lm_name : string
}.

Record Bounds := { minX : Z; maxX : Z; minY : Z; maxY : Z }.

Record ServerMap := {
  seed : Z;
  landmarks : gmap (Z * Z) Landmark;
  terrainCache : gmap (Z * Z) Terrain;
  bounds : Bounds
}.

Definition landmarkList : list Landmark :=
  [ {| lm_x := 0; lm_y := 0; lm_type := T_town; lm_name := "Central Town" |};
    {| lm_x := 5; lm_y := -3; lm_type := T_village; lm_name := "Riverside Village" |};
    {| lm_x := -7; lm_y := 4; lm_type := T_dungeon; lm_name := "Dark Depths" |};
    {| lm_x := 2; lm_y := 8; lm_type := T_ruins; lm_name := "Ancient Ruins" |};
    {| lm_x := -4; lm_y := -6; lm_type := T_cave; lm_name := "Crystal Cave" |};
    {| lm_x := 10; lm_y := 2; lm_type := T_tower; lm_name := "Wizard Tower" |};
    {| lm_x := -10; lm_y := -10; lm_type := T_village; lm_name := "Northern Outpost" |};
    {| lm_x := 15; lm_y := 15; lm_type := T_dungeon; lm_name := "Eastern Stronghold" |} ].

Definition generateServerMap (seed0 : Z) : ServerMap :=
  {| seed := seed0;
     landmarks :=
       fold_left (fun acc lm => <[(lm_x lm, lm_y lm) := lm]> acc) landmarkList ∅;
     terrainCache := ∅;
     bounds := {| minX := -50; maxX := 50; minY := -50; maxY := 50 |} |}.

Definition set_terrainCache (c : gmap (Z * Z) Terrain) (m : ServerMap) : ServerMap :=
  {| seed := seed m; landmarks := landmarks m; terrainCache := c; bounds := bounds m |}.

(** One cell of [generateRoomTerrain]: the body of the two nested loops.
    [value] is kept in hundredths. *)
Definition roomSize : Z := 20.

Definition terrainCell (rt : option RoomType) (seed0 x y : Z) : Tile :=
  if (x =? 0) || (x =? roomSize - 1) || (y =? 0) || (y =? roomSize - 1) then wall
  else
    let hash := hashCoords x y seed0 in
    let value := Z.rem hash 100 in
    match rt with
    | Some R_town | Some R_city | Some R_village =>
        if ((x =? 5) || (x =? 15)) && (2 <=? y) && (y <=? 17) then wall else floor
    | Some R_dungeon => if 75 <? value then wall else floor
    | Some R_cave => if 80 <? value then wall else floor
    | Some R_forest => if 65 <? value then wall else floor
    | Some R_shore =>
        if y <? 5 then water_tile
        else if y <? 8 then (if 70 <? value then water_tile else floor)
        else floor
    | Some R_beach => if 90 <? value then wall else floor
    | Some R_swamp =>
        if 80 <? value then water_tile
        else if 90 <? value then wall
        else floor
    | Some R_desert =>
        if 95 <? value then water_tile
        else if 98 <? value then wall
        else floor
    | Some R_ruins => if 60 <? value then wall else floor
    | Some R_temple =>
        if ((x =? 10) && (8 <=? y) && (y <=? 12)) || ((y =? 10) && (8 <=? x) && (x <=? 12))
        then floor
        else if 70 <? value then wall
        else floor
    | Some R_tower =>
        if (6 <=? x) && (x <=? 14) && (6 <=? y) && (y <=? 14) then floor else wall
    | Some R_bridge => if (8 <=? y) && (y <=? 12) then floor else water_tile
    | Some R_road => if 98 <? value then wall else floor
    | Some R_hills => if 85 <? value then wall else floor
    | Some R_portal =>
        if (x =? 10) && (y =? 10) then portal_tile
        else if 90 <? value then wall
        else floor
    | Some R_camp =>
        if ((x =? 8) || (x =? 12)) && ((y =? 8) || (y =? 12)) then wall else floor
    | Some R_field | None => if 95 <? value then wall else floor
    end.

(** [for y in 0..size-1: for x in 0..size-1: row.push (...)]. *)
Definition generateRoomTerrain (rt : option RoomType) (seed0 : Z) : list (list Tile) :=
  (fun y => (fun x => terrainCell rt seed0 x y) <$> seqZ 0 roomSize) <$> seqZ 0 roomSize.

(** One cell of [generateRoomEntities]; [value] is kept in thousandths. *)
Definition entityCell (rt : option RoomType) (seed0 x y : Z) : Entity :=
  let hash := hashCoords (x + 100) (y + 100) seed0 in
  let value := Z.rem hash 1000 in
  match rt with
  | Some R_town | Some R_city =>
      if ((x =? 7) && (y =? 5)) || ((x =? 13) && (y =? 5)) then NPC
      else if (x =? 10) && (y =? 15) then CHEST
      else if 950 <? value then NPC
      else NONE
  | Some R_village =>
      if (x =? 10) && (y =? 5) then NPC
      else if 970 <? value then ITEM
      else if 990 <? value then NPC
      else NONE
  | Some R_dungeon =>
      if 960 <? value then ENEMY
      else if 930 <? value then TRAP
      else if 890 <? value then CHEST
      else NONE
  | Some R_cave =>
      if 970 <? value then ENEMY
      else if 940 <? value then CHEST
      else if 980 <? value then TRAP
      else NONE
  | Some R_forest =>
      if 960 <? value then ENEMY
      else if 920 <? value then ITEM
      else NONE
  | Some R_shore | Some R_beach =>
      if 980 <? value then ENEMY
      else if 950 <? value then ITEM
      else if 990 <? value then CHEST
      else NONE
  | Some R_swamp =>
      if 950 <? value then ENEMY
      else if 970 <? value then TRAP
      else if 930 <? value then ITEM
      else NONE
  | Some R_desert =>
      if 980 <? value then ENEMY
      else if 960 <? value then ITEM
      else if 990 <? value then CHEST
      else NONE
  | Some R_ruins =>
      if 940 <? value then CHEST
      else if 970 <? value then TRAP
      else if 980 <? value then ENEMY
      else NONE
  | Some R_temple =>
      if (x =? 10) && (y =? 10) then NPC
      else if 960 <? value then CHEST
      else if 980 <? value then ITEM
      else NONE
  | Some R_tower =>
      if (x =? 10) && (y =? 10) then NPC
      else if 940 <? value then CHEST
      else if 970 <? value then ITEM
      else NONE
  | Some R_bridge =>
      if 990 <? value then NPC
      else if 970 <? value then ITEM
      else NONE
  | Some R_road =>
      if 980 <? value then NPC
      else if 995 <? value then ITEM
      else NONE
  | Some R_hills =>
      if 970 <? value then ITEM
      else if 990 <? value then ENEMY
      else NONE
  | Some R_portal =>
      if 950 <? value then ITEM
      else if 980 <? value then ENEMY
      else NONE
  | Some R_camp =>
      if 960 <? value then NPC
      else if 980 <? value then ITEM
      else NONE
  | Some R_field | None =>
      if 990 <? value then ITEM
      else if 995 <? value then ENEMY
      else NONE
  end.

Definition generateRoomEntities (rt : option RoomType) (seed0 : Z) : list (list Entity) :=
  (fun y => (fun x => entityCell rt seed0 x y) <$> seqZ 0 roomSize) <$> seqZ 0 roomSize.

Record RoomData := {
  worldPos : Z * Z;
  terrainType : Terrain;
  room_roomType : option RoomType;
  room_seed : Z;
  room_size : Z * Z;
  terrain : list (list Tile);
  entities : list (list Entity);
  discovered : bool;
  exploredBy : gset string;
  room_description : string
}.

Inductive PlayerStatus := ALIVE | DEAD.

#[global] Instance PlayerStatus_eq_dec : EqDecision PlayerStatus.
Proof. solve_decision. Defined.

(** The match-scoped player state built by [createMatch]. *)
Record PlayerState := {
  playerId : string;
  username : string;
  status : PlayerStatus;
  position : WorldRoom;
  health : Z;
  kills : Z;
  deaths : Z;
  itemsCollected : Z;
  roomsExplored : gset (Z * Z);
  damageDealt : Z;
  damageTaken : Z;
  deathTime : option Z;
  firstKillTime : option Z;
  lastActivity : Z
}.

Inductive MatchStatus := STARTING | ACTIVE | ENDED.

(** The match state; [players] is iterated by [calculateMatchStats], so it
    keeps insertion order.  The [winner] and [stats] fields, which only
    [recordPlayerKill] and [recordItemCollection] touch, are left out. *)
Record MatchState := {
  matchId : string;
  match_seed : Z;
  match_status : MatchStatus;
  players : list (string * PlayerState);
  map : ServerMap;
  rooms : gmap (Z * Z) RoomData;
  startTime : Z;
  endTime : option Z
}.

Definition set_map (sm : ServerMap) (m : MatchState) : MatchState :=
  {| matchId := matchId m; match_seed := match_seed m; match_status := match_status m;
     players := players m; map := sm; rooms := rooms m;
     startTime := startTime m; endTime := endTime m |}.

Definition set_rooms (r : gmap (Z * Z) RoomData) (m : MatchState) : MatchState :=
  {| matchId := matchId m; match_seed := match_seed m; match_status := match_status m;
     players := players m; map := map m; rooms := r;
     startTime := startTime m; endTime := endTime m |}.

Definition set_players (p : list (string * PlayerState)) (m : MatchState) : MatchState :=
  {| matchId := matchId m; match_seed := match_seed m; match_status := match_status m;
     players := p; map := map m; rooms := rooms m;
     startTime := startTime m; endTime := endTime m |}.

Definition set_ended (now : Z) (m : MatchState) : MatchState :=
  {| matchId := matchId m; match_seed := match_seed m; match_status := ENDED;
     players := players m; map := map m; rooms := rooms m;
     startTime := startTime m; endTime := Some now |}.

(** [this.matches]: matchId -> MatchState. *)
Abbreviation Matches := (gmap string MatchState).

(** [getTerrainType]: cache, then landmarks, then the seeded hash; the
    result is stored in the match's terrain cache. *)
Definition getTerrainType (ms : Matches) (mid : string) (worldX worldY : Z)
  : Terrain * Matches :=
  match ms !! mid with
  | None => (T_grass, ms)
  | Some m =>
      let key := (worldX, worldY) in
      match terrainCache (map m) !! key with
      | Some t => (t, ms)
      | None =>
          match landmarks (map m) !! key with
          | Some landmark =>
              (lm_type landmark,
               <[mid := set_map (set_terrainCache
                                   (<[key := lm_type landmark]> (terrainCache (map m)))
                                   (map m)) m]> ms)
          | None =>
              let t := generateTerrainType worldX worldY (seed (map m)) in
              (t,
               <[mid := set_map (set_terrainCache
                                   (<[key := t]> (terrainCache (map m))) (map m)) m]> ms)
          end
      end
  end.

Definition canMoveToPosition (ms : Matches) (mid : string) (worldX worldY : Z)
  : bool * Matches :=
  let '(t, ms') := getTerrainType ms mid worldX worldY in
  (isTerrainAccessible t, ms').

(** [generateRoomData]: the cached room, or [null] on inaccessible
    terrain, or a freshly generated room that is put in the cache. *)
Definition generateRoomData (ms : Matches) (mid : string) (worldX worldY : Z)
  : option RoomData * Matches :=
  match ms !! mid with
  | None => (None, ms)
  | Some m =>
      let key := (worldX, worldY) in
      match rooms m !! key with
      | Some r => (Some r, ms)
      | None =>
          let '(tType, ms1) := getTerrainType ms mid worldX worldY in
          let accessInfo := getTerrainAccessInfo tType in
          if negb (accessible accessInfo) then (None, ms1)
          else
            match ms1 !! mid with
            | None => (None, ms1)
            | Some m1 =>
                let roomSeed := hashCoords worldX worldY (seed (map m1)) in
                let roomData :=
                  {| worldPos := (worldX, worldY);
                     terrainType := tType;
                     room_roomType := roomType accessInfo;
                     room_seed := roomSeed;
                     room_size := (20, 20);
                     terrain := generateRoomTerrain (roomType accessInfo) roomSeed;
                     entities := generateRoomEntities (roomType accessInfo) roomSeed;
                     discovered := false;
                     exploredBy := ∅;
                     room_description := description accessInfo |} in
                (Some roomData, <[mid := set_rooms (<[key := roomData]> (rooms m1)) m1]> ms1)
            end
      end
  end.

Definition getRoomData := generateRoomData.

Definition MAP_SEED : Z := 12345.
Definition MATCH_DURATION : Z := 300000.

(** [generateMatchSeed]; [rnd] is [Math.floor (Math.random () * 1000000)]. *)
Definition generateMatchSeed (rnd : Z) : Z := MAP_SEED + rnd.

Definition newPlayerState (pid uname : string) (now : Z) : PlayerState :=
  {| playerId := pid; username := uname; status := ALIVE;
     position := {| world := {| pos_x := 0; pos_y := 0 |};
                    room := {| pos_x := 3; pos_y := 4 |} |};
     health := 100; kills := 0; deaths := 0; itemsCollected := 0;
     roomsExplored := ∅; damageDealt := 0; damageTaken := 0;
     deathTime := None; firstKillTime := None; lastActivity := now |}.

(** [createMatch players]; [uuid] is the id drawn by [uuidv4 ()], [rnd]
    the random part of the seed and [now] the clock. *)
Definition createMatch (ms : Matches) (newPlayers : list (string * string))
    (uuid : string) (rnd now : Z) : MatchState * Matches :=
  let matchSeed := generateMatchSeed rnd in
  let matchState :=
    {| matchId := uuid; match_seed := matchSeed; match_status := STARTING;
       players :=
         fold_left (fun acc p => Js.omap_set p.1 (newPlayerState p.1 p.2 now) acc)
                   newPlayers [];
       map := generateServerMap matchSeed;
       rooms := ∅;
       startTime := now; endTime := None |} in
  (matchState, <[uuid := matchState]> ms).

(** [startMatch]; the timer that later calls [endMatch] is the caller's. *)
Definition startMatch (ms : Matches) (mid : string) (now : Z) : bool * Matches :=
  match ms !! mid with
  | None => (false, ms)
  | Some m =>
      (true,
       <[mid := {| matchId := matchId m; match_seed := match_seed m;
                   match_status := ACTIVE; players := players m; map := map m;
                   rooms := rooms m; startTime := now;
                   endTime := Some (now + MATCH_DURATION) |}]> ms)
  end.

Definition set_position (pos : WorldRoom) (now : Z) (explored : gset (Z * Z))
    (p : PlayerState) : PlayerState :=
  {| playerId := playerId p; username := username p; status := status p;
     position := pos; health := health p; kills := kills p; deaths := deaths p;
     itemsCollected := itemsCollected p; roomsExplored := explored;
     damageDealt := damageDealt p; damageTaken := damageTaken p;
     deathTime := deathTime p; firstKillTime := firstKillTime p;
     lastActivity := now |}.

Definition mark_discovered (pid : string) (r : RoomData) : RoomData :=
  {| worldPos := worldPos r; terrainType := terrainType r;
     room_roomType := room_roomType r; room_seed := room_seed r; room_size := room_size r;
     terrain := terrain r; entities := entities r; discovered := true;
     exploredBy := {[pid]} ∪ exploredBy r; room_description := room_description r |}.

(** [updatePlayerPosition]: a player the match does not list is not added. *)
Definition updatePlayerPosition (ms : Matches) (mid pid : string) (pos : WorldRoom)
    (now : Z) : bool * Matches :=
  match ms !! mid with
  | None => (false, ms)
  | Some m =>
      match Js.omap_get pid (players m) with
      | None => (false, ms)
      | Some player =>
          let worldKey := (pos_x (world pos), pos_y (world pos)) in
          if decide (worldKey ∈ roomsExplored player) then
            (true,
             <[mid := set_players
                        (Js.omap_set pid (set_position pos now (roomsExplored player) player)
                                     (players m)) m]> ms)
          else
            let ms1 :=
              <[mid := set_players
                         (Js.omap_set pid
                            (set_position pos now ({[worldKey]} ∪ roomsExplored player) player)
                            (players m)) m]> ms in
            let '(roomData, ms2) := generateRoomData ms1 mid worldKey.1 worldKey.2 in
            match roomData, ms2 !! mid with
            | Some _, Some m2 =>
                (true, <[mid := set_rooms (alter (mark_discovered pid) worldKey (rooms m2)) m2]> ms2)
            | _, _ => (true, ms2)
            end
      end
  end.

Definition add_damageDealt (d : Z) (p : PlayerState) : PlayerState :=
  {| playerId := playerId p; username := username p; status := status p;
     position := position p; health := health p; kills := kills p; deaths := deaths p;
     itemsCollected := itemsCollected p; roomsExplored := roomsExplored p;
     damageDealt := Js.or_num (damageDealt p) 0 + d; damageTaken := damageTaken p;
     deathTime := deathTime p; firstKillTime := firstKillTime p;
     lastActivity := lastActivity p |}.

Definition take_damage (d : Z) (p : PlayerState) : PlayerState :=
  {| playerId := playerId p; username := username p; status := status p;
     position := position p; health := Z.max 0 (health p - d); kills := kills p;
     deaths := deaths p; itemsCollected := itemsCollected p;
     roomsExplored := roomsExplored p; damageDealt := damageDealt p;
     damageTaken := Js.or_num (damageTaken p) 0 + d;
     deathTime := deathTime p; firstKillTime := firstKillTime p;
     lastActivity := lastActivity p |}.

(** [recordPlayerDamage]: the attacker's record is written first, the
    target's is read after that write (they may be the same player). *)
Definition recordPlayerDamage (ms : Matches) (mid attackerId targetId : string)
    (damage : Z) : bool * Matches :=
  match ms !! mid with
  | None => (false, ms)
  | Some m =>
      match Js.omap_get attackerId (players m), Js.omap_get targetId (players m) with
      | Some attacker, Some _ =>
          let ps1 := Js.omap_set attackerId (add_damageDealt damage attacker) (players m) in
          match Js.omap_get targetId ps1 with
          | Some target =>
              (true, <[mid := set_players (Js.omap_set targetId (take_damage damage target) ps1) m]> ms)
          | None => (false, ms)
          end
      | _, _ => (false, ms)
      end
  end.

Definition add_death (now : Z) (p : PlayerState) : PlayerState :=
  {| playerId := playerId p; username := username p; status := DEAD;
     position := position p; health := health p; kills := kills p;
     deaths := deaths p + 1; itemsCollected := itemsCollected p;
     roomsExplored := roomsExplored p; damageDealt := damageDealt p;
     damageTaken := damageTaken p; deathTime := Some now;
     firstKillTime := firstKillTime p; lastActivity := lastActivity p |}.

(** [recordPlayerKill] on the player records (the per-match [stats] maps
    are left out): [killer.kills++], then the victim's three writes, then
    the first-kill test on the killer. *)
Definition recordPlayerKill (ms : Matches) (mid killerId victimId : string) (now : Z)
  : bool * Matches :=
  match ms !! mid with
  | None => (false, ms)
  | Some m =>
      match Js.omap_get killerId (players m), Js.omap_get victimId (players m) with
      | Some killer, Some _ =>
          let ps1 :=
            Js.omap_set killerId
              {| playerId := playerId killer; username := username killer;
                 status := status killer; position := position killer;
                 health := health killer; kills := kills killer + 1;
                 deaths := deaths killer; itemsCollected := itemsCollected killer;
                 roomsExplored := roomsExplored killer;
                 damageDealt := damageDealt killer; damageTaken := damageTaken killer;
                 deathTime := deathTime killer; firstKillTime := firstKillTime killer;
                 lastActivity := lastActivity killer |} (players m) in
          match Js.omap_get victimId ps1 with
          | None => (false, ms)
          | Some victim =>
              let ps2 := Js.omap_set victimId (add_death now victim) ps1 in
              match Js.omap_get killerId ps2 with
              | None => (false, ms)
              | Some killer2 =>
                  let ps3 :=
                    if kills killer2 =? 1
                    then Js.omap_set killerId
                           {| playerId := playerId killer2; username := username killer2;
                              status := status killer2; position := position killer2;
                              health := health killer2; kills := kills killer2;
                              deaths := deaths killer2;
                              itemsCollected := itemsCollected killer2;
                              roomsExplored := roomsExplored killer2;
                              damageDealt := damageDealt killer2;
                              damageTaken := damageTaken killer2;
                              deathTime := deathTime killer2;
                              firstKillTime := Some now;
                              lastActivity := lastActivity killer2 |} ps2
                    else ps2 in
                  (true, <[mid := set_players ps3 m]> ms)
              end
          end
      | _, _ => (false, ms)
      end
  end.

(** [recordItemCollection] on the player record. *)
Definition recordItemCollection (ms : Matches) (mid pid : string) (qty : Z)
  : bool * Matches :=
  match ms !! mid with
  | None => (false, ms)
  | Some m =>
      match Js.omap_get pid (players m) with
      | None => (false, ms)
      | Some p =>
          (true,
           <[mid := set_players
                      (Js.omap_set pid
                         {| playerId := playerId p; username := username p;
                            status := status p; position := position p;
                            health := health p; kills := kills p; deaths := deaths p;
                            itemsCollected := itemsCollected p + qty;
                            roomsExplored := roomsExplored p;
                            damageDealt := damageDealt p; damageTaken := damageTaken p;
                            deathTime := deathTime p; firstKillTime := firstKillTime p;
                            lastActivity := lastActivity p |} (players m)) m]> ms)
      end
  end.

(** A row of [stats.playerStats].  The fields that are formatted floating
    point numbers ([kdr], [survivalPercentage], the four scores) and
    [uniqueTerrainTypes] (whose computation only fills the terrain cache)
    are left out: no award and no winner test reads them. *)
Record PlayerStats := {
  ps_playerId : string;
  ps_username : string;
  ps_kills : Z;
  ps_deaths : Z;
  ps_damageDealt : Z;
  ps_damageTaken : Z;
  ps_itemsCollected : Z;
  ps_roomsExplored : Z;
  ps_finalStatus : PlayerStatus;
  ps_survived : bool;
  ps_survivalTime : Z;
  ps_lastActivity : Z;
  ps_totalPlayTime : Z
}.

(** The variables of the loop of [calculateMatchStats] and the parts of
    [stats] the loop writes. *)
Record StatsAcc := {
  playerStats : list PlayerStats;
  winner : option PlayerStats;
  firstKill : option Z;
  maxKills : Z;
  maxExploration : Z;
  maxItems : Z;
  maxDamageDealt : Z;
  longestSurvivalTime : Z;
  totalKills : Z;
  totalDeaths : Z;
  totalItemsCollected : Z;
  totalRoomsExplored : gset (Z * Z);
  mostDeadlyPlayer : option PlayerStats;
  mostExplorativePlayer : option PlayerStats;
  mostCollectorPlayer : option PlayerStats;
  longestSurvivor : option PlayerStats
}.

Definition statsInit : StatsAcc :=
  {| playerStats := []; winner := None; firstKill := None;
     maxKills := -1; maxExploration := -1; maxItems := -1; maxDamageDealt := -1;
     longestSurvivalTime := -1;
     totalKills := 0; totalDeaths := 0; totalItemsCollected := 0;
     totalRoomsExplored := ∅;
     mostDeadlyPlayer := None; mostExplorativePlayer := None;
     mostCollectorPlayer := None; longestSurvivor := None |}.

Definition isAlive (p : PlayerState) : bool := bool_decide (status p = ALIVE).

(** [!firstKillTime] *)
Definition falsy_time (t : option Z) : bool :=
  match t with
  | None => true
  | Some v => v =? 0
  end.

(** One iteration of [for (const [playerId, playerState] of match.players)],
    statement by statement.  [endOrNow] is [match.endTime || Date.now ()]. *)
Definition statsStep (start endOrNow : Z) (acc : StatsAcc)
    (entry : string * PlayerState) : StatsAcc :=
  let '(pid, p) := entry in
  let matchDuration := endOrNow - start in
  let survivalTime :=
    if isAlive p then matchDuration
    else Js.or_undef_num (deathTime p) endOrNow - start in
  let row :=
    {| ps_playerId := pid; ps_username := username p;
       ps_kills := kills p; ps_deaths := deaths p;
       ps_damageDealt := Js.or_num (damageDealt p) 0;
       ps_damageTaken := Js.or_num (damageTaken p) 0;
       ps_itemsCollected := itemsCollected p;
       ps_roomsExplored := Z.of_nat (size (roomsExplored p));
       ps_finalStatus := status p; ps_survived := isAlive p;
       ps_survivalTime := survivalTime;
       ps_lastActivity := lastActivity p;
       ps_totalPlayTime := lastActivity p - start |} in
  (* Track maximums for awards *)
  let winnerHit :=
    (maxKills acc <? kills p) || ((kills p =? maxKills acc) && isAlive p) in
  let maxKills1 := if winnerHit then kills p else maxKills acc in
  let winner1 := if winnerHit then Some row else winner acc in
  let firstKill1 :=
    if (0 <? kills p) && falsy_time (firstKill acc)
    then Some (Js.or_undef_num (firstKillTime p) (start + 60000))
    else firstKill acc in
  (* Track record holders *)
  let deadlyHit := maxKills1 <? kills p in
  let exploreHit := maxExploration acc <? Z.of_nat (size (roomsExplored p)) in
  let itemsHit := maxItems acc <? itemsCollected p in
  let damageHit := maxDamageDealt acc <? Js.or_num (damageDealt p) 0 in
  let survivalHit := longestSurvivalTime acc <? survivalTime in
  {| playerStats := playerStats acc ++ [row];
     winner := winner1;
     firstKill := firstKill1;
     maxKills := if deadlyHit then kills p else maxKills1;
     maxExploration :=
       if exploreHit then Z.of_nat (size (roomsExplored p)) else maxExploration acc;
     maxItems := if itemsHit then itemsCollected p else maxItems acc;
     maxDamageDealt :=
       if damageHit then Js.or_num (damageDealt p) 0 else maxDamageDealt acc;
     longestSurvivalTime := if survivalHit then survivalTime else longestSurvivalTime acc;
     totalKills := totalKills acc + kills p;
     totalDeaths := totalDeaths acc + deaths p;
     totalItemsCollected := totalItemsCollected acc + itemsCollected p;
     totalRoomsExplored := totalRoomsExplored acc ∪ roomsExplored p;
     mostDeadlyPlayer := if deadlyHit then Some row else mostDeadlyPlayer acc;
     mostExplorativePlayer := if exploreHit then Some row else mostExplorativePlayer acc;
     mostCollectorPlayer := if itemsHit then Some row else mostCollectorPlayer acc;
     longestSurvivor := if survivalHit then Some row else longestSurvivor acc |}.

(** [calculateMatchStats match]: the result of the loop.  The rankings are
    sorted copies of [playerStats] and are not modelled. *)
Definition calculateMatchStats (m : MatchState) (now : Z) : StatsAcc :=
  let endOrNow := Js.or_undef_num (endTime m) now in
  fold_left (statsStep (startTime m) endOrNow) (players m) statsInit.

Record MatchResult := {
  res_matchId : string;
  res_reason : string;
  res_duration : Z;
  res_stats : StatsAcc
}.

(** [endMatch matchId reason]: the deferred [matches.delete] runs from a
    timer 30 s later and is a separate step, [reapMatch]. *)
Definition endMatch (ms : Matches) (mid reason : string) (now : Z)
  : option MatchResult * Matches :=
  match ms !! mid with
  | None => (None, ms)
  | Some m =>
      let m1 := set_ended now m in
      let finalStats := calculateMatchStats m1 now in
      (Some {| res_matchId := mid; res_reason := reason;
               res_duration := now - startTime m1; res_stats := finalStats |},
       <[mid := m1]> ms)
  end.

Definition reapMatch (ms : Matches) (mid : string) : Matches := delete mid ms.

Definition getMatchState (ms : Matches) (mid : string) : option MatchState := ms !! mid.

Definition wr (wx wy : Z) : WorldRoom :=
  {| world := {| pos_x := wx; pos_y := wy |}; room := {| pos_x := 3; pos_y := 4 |} |}.

(** [createTestMatch]: four test players, some exploration and item
    collection, and two kills; every clock reading is [now]. *)
Definition createTestMatch (ms : Matches) (uuid : string) (rnd now : Z) : Matches :=
  let mid := uuid in
  let ms := (createMatch ms
               [("test1", "TestPlayer1"); ("test2", "TestPlayer2");
                ("test3", "TestPlayer3"); ("test4", "TestPlayer4")] uuid rnd now).2 in
  let ms := (startMatch ms mid now).2 in
  let ms := (updatePlayerPosition ms mid "test1" (wr 1 0) now).2 in
  let ms := (updatePlayerPosition ms mid "test1" (wr 2 0) now).2 in
  let ms := (updatePlayerPosition ms mid "test1" (wr 3 0) now).2 in
  let ms := (updatePlayerPosition ms mid "test2" (wr 0 1) now).2 in
  let ms := (updatePlayerPosition ms mid "test2" (wr 0 2) now).2 in
  let ms := (recordItemCollection ms mid "test1" 3).2 in
  let ms := (recordItemCollection ms mid "test1" 5).2 in
  let ms := (recordItemCollection ms mid "test2" 2).2 in
  let ms := (recordPlayerDamage ms mid "test1" "test3" 50).2 in
  let ms := (recordPlayerDamage ms mid "test1" "test3" 30).2 in
  let ms := (recordPlayerKill ms mid "test1" "test3" now).2 in
  let ms := (recordPlayerDamage ms mid "test2" "test4" 40).2 in
  let ms := (recordPlayerDamage ms mid "test2" "test4" 35).2 in
  let ms := (recordPlayerKill ms mid "test2" "test4" now).2 in
  ms.

End MatchManager.

(** ** ServerAuthority: validation of movement, combat and item actions *)
Module ServerAuthority.

Record Bounds := { minX : Z; maxX : Z; minY : Z; maxY : Z }.

Definition worldBounds : Bounds := {| minX := 0; maxX := 1000; minY := 0; maxY := 1000 |}.

(** units per second *)
Definition maxMovementSpeed : Z := 5.
Definition maxMovementPerTick : Z := 10.

(** [this.combatRules] *)
Definition maxAttackRange : Z := 50.
Definition attackCooldown : Z := 1500.
Definition maxDamagePerHit : Z := 25.
Definition minDamagePerHit : Z := 5.
Definition maxHealth : Z := 100.
Definition combatTimeout : Z := 5000.

(** [this.cheatDetection] *)
Definition maxActionsPerSecond : Z := 10.
Definition maxMovementSpeedMultiplier : Z := 2.
Definition suspiciousActionThreshold : Z := 5.
Definition autoKickThreshold : Z := 10.

Inductive ViolationType :=
| OUT_OF_BOUNDS | SPEED_HACK | WALL_HACK
| INVALID_TARGET | DEAD_PLAYER_ACTION | ATTACK_SPEED_HACK | RANGE_HACK
| DEAD_PLAYER_ITEM_USE | INVALID_ITEM | ITEM_RANGE_HACK
| HIGH_ACTION_FREQUENCY.

Inductive ActionType := MOVEMENT | COMBAT.

(** An entry of a player's action history; the [data] object is only
    stored, never read, and is left out. *)
Record Action := { act_type : ActionType; act_timestamp : Z }.

(** An entry of a player's violation log; [details] is only logged. *)
Record Violation := { vio_type : ViolationType; vio_timestamp : Z }.

Record ViolationLog := { violations : list Violation; count : Z }.

Inductive ItemType := WEAPON | ARMOR | CONSUMABLE | MATERIAL | KEY_ITEM.

Record Effects := {
  eff_health : option Z;
  eff_mana : option Z;
  eff_buff : option string
}.

Record Item := {
  item_id : string;
  templateId : string;
  item_type : ItemType;
  item_position : Point;
  quantity : Z;
  effects : option Effects
}.

(** The state of a [ServerAuthority] object that the validation functions
    read or write. *)
Record Authority := {
  playerActions : gmap string (list Action);
  suspiciousPlayers : gmap string ViolationLog;
  gameItems : gmap string Item
}.

Definition set_playerActions (pa : gmap string (list Action)) (a : Authority) : Authority :=
  {| playerActions := pa; suspiciousPlayers := suspiciousPlayers a; gameItems := gameItems a |}.

Definition set_suspiciousPlayers (sp : gmap string ViolationLog) (a : Authority) : Authority :=
  {| playerActions := playerActions a; suspiciousPlayers := sp; gameItems := gameItems a |}.

Record Stats := { attack : Z; defense : Z; speed : Z }.

(** [playerConnection.gameState] *)
Record GameState := {
  position : Position;
  health : Z;
  gs_maxHealth : Z;
  inCombat : bool;
  ready : bool;
  alive : bool;
  stats : option Stats;
  lastAttackTime : Js.Timestamp;
  gs_lastMoveTime : Js.Timestamp;
  gs_lastValidPosition : Position;
  kills : Z;
  lastCombatTime : Js.Timestamp;
  deathTime : option Js.Timestamp;
  killedBy : option string;
  mana : option Z;
  maxMana : option Z
}.

(** A session: the connection object of [GameServer.players].  The
    socket, [connectedAt] and [ping] are left out. *)
Record PlayerConnection := {
  playerId : string;
  username : string;
  conn_matchId : string;
  lastPing : Z;
  status : string;
  isAlive : bool;
  gameState : GameState
}.

Definition set_gameState (g : GameState) (c : PlayerConnection) : PlayerConnection :=
  {| playerId := playerId c; username := username c; conn_matchId := conn_matchId c;
     lastPing := lastPing c; status := status c; isAlive := isAlive c; gameState := g |}.

(** [gameState.players] as the validation functions receive it. *)
Abbreviation Players := (gmap string PlayerConnection).

(** The [playerData] argument of [validateMovement]: the two properties it
    reads, either of which may be undefined. *)
Record PlayerData := {
  lastMoveTime : option Js.Timestamp;
  lastValidPosition : option Position
}.

(** [pos.x] and [pos.y]: undefined on a [{world, room}] object. *)
Definition coord_x (p : Position) : option Z :=
  match p with
  | XY pt => Some (pos_x pt)
  | WR _ => None
  end.

Definition coord_y (p : Position) : option Z :=
  match p with
  | XY pt => Some (pos_y pt)
  | WR _ => None
  end.

(** [isPositionInBounds]: a comparison with undefined is false. *)
Definition isPositionInBounds (pos : Position) : bool :=
  match coord_x pos, coord_y pos with
  | Some px, Some py =>
      (minX worldBounds <=? px) && (px <=? maxX worldBounds) &&
      (minY worldBounds <=? py) && (py <=? maxY worldBounds)
  | _, _ => false
  end.

(** [calculateDistance] squared: [dx * dx + dy * dy], or [None] for NaN
    when a coordinate is undefined. *)
Definition calculateDistanceSq (pos1 pos2 : Position) : option Z :=
  match coord_x pos1, coord_x pos2, coord_y pos1, coord_y pos2 with
  | Some x1, Some x2, Some y1, Some y2 =>
      let dx := x1 - x2 in
      let dy := y1 - y2 in
      Some (dx * dx + dy * dy)
  | _, _, _, _ => None
  end.

(** [Math.sqrt dsq > n / d] for [d > 0]; false when the distance is NaN. *)
Definition distance_gt (dsq : option Z) (bound : Z * Z) : bool :=
  match dsq with
  | None => false
  | Some v => (bound.1 <? 0) || (bound.1 * bound.1 <? v * (bound.2 * bound.2))
  end.

(** [Math.sqrt dsq > bound] for a bound that may be an infinity or NaN:
    nothing exceeds [Infinity] or compares with NaN, and every number
    exceeds [-Infinity]. *)
Definition distance_gt_num (dsq : option Z) (bound : Js.Number * Z) : bool :=
  match bound.1 with
  | Js.Fin n => distance_gt dsq (n, bound.2)
  | Js.PosInf => false
  | Js.NegInf => match dsq with Some _ => true | None => false end
  | Js.NaN => false
  end.

(** [calculateMaxMovementDistance]:
    [maxMovementSpeed * (timeDelta / 1000) * maxMovementSpeedMultiplier],
    kept as the fraction (numerator, denominator). *)
Definition calculateMaxMovementDistance (timeDelta : Js.Number) : Js.Number * Z :=
  (Js.mul (Js.mul (Js.Fin maxMovementSpeed) timeDelta) (Js.Fin maxMovementSpeedMultiplier),
   1000).

Definition hasObstacleCollision (_fromPos _toPos : Position) : bool := false.

Inductive Verdict := kick | flag | warn.

(** [flagSuspiciousActivity]; [now] is the clock. *)
Definition flagSuspiciousActivity (a : Authority) (pid : string) (vt : ViolationType)
    (now : Z) : Verdict * Authority :=
  let log := default {| violations := []; count := 0 |} (suspiciousPlayers a !! pid) in
  let log' := {| violations := violations log ++ [{| vio_type := vt; vio_timestamp := now |}];
                 count := count log + 1 |} in
  let a' := set_suspiciousPlayers (<[pid := log']> (suspiciousPlayers a)) a in
  if autoKickThreshold <=? count log' then (kick, a')
  else if suspiciousActionThreshold <=? count log' then (flag, a')
  else (warn, a').

(** [checkActionFrequency]: [actions.length / 10 > maxActionsPerSecond]. *)
Definition checkActionFrequency (a : Authority) (pid : string) (actions : list Action)
    (now : Z) : Authority :=
  if maxActionsPerSecond * 10 <? Z.of_nat (length actions)
  then (flagSuspiciousActivity a pid HIGH_ACTION_FREQUENCY now).2
  else a.

(** [recordPlayerAction]: push, keep the last 10 seconds, check the rate. *)
Definition recordPlayerAction (a : Authority) (pid : string) (at_ : ActionType)
    (now : Z) : Authority :=
  let actions := default [] (playerActions a !! pid) in
  let actions := actions ++ [{| act_type := at_; act_timestamp := now |}] in
  let cutoff := now - 10000 in
  let recentActions := filter (fun action => cutoff < act_timestamp action) actions in
  let a' := set_playerActions (<[pid := recentActions]> (playerActions a)) a in
  checkActionFrequency a' pid recentActions now.

(** [validateMovement]: the authoritative position, or null. *)
Definition validateMovement (a : Authority) (pid : string) (fromPos toPos : Position)
    (timestamp : Js.Timestamp) (playerData : PlayerData) (now : Z)
  : option Position * Authority :=
  if negb (isPositionInBounds toPos) then
    (None, (flagSuspiciousActivity a pid OUT_OF_BOUNDS now).2)
  else
    let distance := calculateDistanceSq fromPos toPos in
    let timeDelta :=
      Js.sub (Js.toNumber timestamp)
             (Js.toNumber (Js.or_undef_time (lastMoveTime playerData) timestamp)) in
    let maxAllowedDistance := calculateMaxMovementDistance timeDelta in
    if distance_gt_num distance maxAllowedDistance then
      (Some (default fromPos (lastValidPosition playerData)),
       (flagSuspiciousActivity a pid SPEED_HACK now).2)
    else if hasObstacleCollision fromPos toPos then
      (Some (default fromPos (lastValidPosition playerData)),
       (flagSuspiciousActivity a pid WALL_HACK now).2)
    else
      (Some toPos, recordPlayerAction a pid MOVEMENT now).

(** [calculateDamage]; [rnd5] is [Math.floor (Math.random () * 5)]. *)
Definition calculateDamage (attacker target : PlayerConnection) (rnd5 : Z) : Z :=
  let baseDamage := 15 in
  let attackPower := Js.or_undef_num (attack <$> stats (gameState attacker)) 10 in
  let defense_ := Js.or_undef_num (defense <$> stats (gameState target)) 5 in
  let finalDamage := Z.max 1 (baseDamage + attackPower - defense_) in
  let finalDamage := finalDamage + (rnd5 - 2) in
  Z.max minDamagePerHit (Z.min maxDamagePerHit finalDamage).

Definition mark_attack (timestamp : Js.Timestamp) (g : GameState) : GameState :=
  {| position := position g; health := health g; gs_maxHealth := gs_maxHealth g;
     inCombat := true; ready := ready g; alive := alive g; stats := stats g;
     lastAttackTime := timestamp; gs_lastMoveTime := gs_lastMoveTime g;
     gs_lastValidPosition := gs_lastValidPosition g; kills := kills g;
     lastCombatTime := timestamp; deathTime := deathTime g; killedBy := killedBy g;
     mana := mana g; maxMana := maxMana g |}.

Definition mark_hit (damage : Z) (timestamp : Js.Timestamp) (g : GameState) : GameState :=
  {| position := position g; health := Z.max 0 (health g - damage);
     gs_maxHealth := gs_maxHealth g;
     inCombat := true; ready := ready g; alive := alive g; stats := stats g;
     lastAttackTime := lastAttackTime g; gs_lastMoveTime := gs_lastMoveTime g;
     gs_lastValidPosition := gs_lastValidPosition g; kills := kills g;
     lastCombatTime := timestamp; deathTime := deathTime g; killedBy := killedBy g;
     mana := mana g; maxMana := maxMana g |}.

Definition mark_dead (killerId : string) (timestamp : Js.Timestamp) (c : PlayerConnection)
  : PlayerConnection :=
  let g := gameState c in
  {| playerId := playerId c; username := username c; conn_matchId := conn_matchId c;
     lastPing := lastPing c; status := "dead"; isAlive := isAlive c;
     gameState :=
       {| position := position g; health := health g; gs_maxHealth := gs_maxHealth g;
          inCombat := inCombat g; ready := ready g; alive := false; stats := stats g;
          lastAttackTime := lastAttackTime g; gs_lastMoveTime := gs_lastMoveTime g;
          gs_lastValidPosition := gs_lastValidPosition g; kills := kills g;
          lastCombatTime := lastCombatTime g; deathTime := Some timestamp;
          killedBy := Some killerId; mana := mana g; maxMana := maxMana g |} |}.

Definition add_kill (g : GameState) : GameState :=
  {| position := position g; health := health g; gs_maxHealth := gs_maxHealth g;
     inCombat := inCombat g; ready := ready g; alive := alive g; stats := stats g;
     lastAttackTime := lastAttackTime g; gs_lastMoveTime := gs_lastMoveTime g;
     gs_lastValidPosition := gs_lastValidPosition g;
     kills := Js.or_num (kills g) 0 + 1;
     lastCombatTime := lastCombatTime g; deathTime := deathTime g; killedBy := killedBy g;
     mana := mana g; maxMana := maxMana g |}.

(** [handlePlayerDeath]: the dead player's record first, then the
    killer's (read after the first write). *)
Definition handlePlayerDeath (ps : Players) (deadPlayerId killerId : string)
    (timestamp : Js.Timestamp) : Players :=
  let ps1 :=
    match ps !! deadPlayerId with
    | Some deadPlayer => <[deadPlayerId := mark_dead killerId timestamp deadPlayer]> ps
    | None => ps
    end in
  match ps1 !! killerId with
  | Some killer => <[killerId := set_gameState (add_kill (gameState killer)) killer]> ps1
  | None => ps1
  end.

Record CombatResult := {
  res_attackerId : string;
  res_targetId : string;
  res_damage : Z;
  oldHealth : Z;
  newHealth : Z;
  isDead : bool;
  res_timestamp : Js.Timestamp
}.

(** [applyCombatDamage]; [None] stands for the TypeError of reading a
    property of a missing player. *)
Definition applyCombatDamage (ps : Players) (attackerId targetId : string)
    (damage : Z) (timestamp : Js.Timestamp) : option (CombatResult * Players) :=
  match ps !! attackerId, ps !! targetId with
  | Some attacker, Some _ =>
      let ps1 :=
        <[attackerId := set_gameState (mark_attack timestamp (gameState attacker)) attacker]> ps in
      match ps1 !! targetId with
      | Some target =>
          let old := health (gameState target) in
          let target' := set_gameState (mark_hit damage timestamp (gameState target)) target in
          let ps2 := <[targetId := target']> ps1 in
          let dead := health (gameState target') <=? 0 in
          let ps3 := if dead then handlePlayerDeath ps2 targetId attackerId timestamp else ps2 in
          Some ({| res_attackerId := attackerId; res_targetId := targetId;
                   res_damage := damage; oldHealth := old;
                   newHealth := health (gameState target');
                   isDead := dead; res_timestamp := timestamp |}, ps3)
      | None => None
      end
  | _, _ => None
  end.

(** [validateCombatAction]: the combat result, or null.  [rnd5] feeds
    [calculateDamage], [now] the clock of the anti-cheat records. *)
Definition validateCombatAction (a : Authority) (ps : Players)
    (attackerId targetId : string) (timestamp : Js.Timestamp) (rnd5 now : Z)
  : option CombatResult * Players * Authority :=
  match ps !! attackerId, ps !! targetId with
  | Some attacker, Some target =>
      if health (gameState attacker) <=? 0 then
        (None, ps, (flagSuspiciousActivity a attackerId DEAD_PLAYER_ACTION now).2)
      else
        let lastAttack := Js.or_time (lastAttackTime (gameState attacker)) (Js.Num 0) in
        let timeSinceLastAttack := Js.sub (Js.toNumber timestamp) (Js.toNumber lastAttack) in
        if Js.lt timeSinceLastAttack (Js.Fin attackCooldown) then
          (None, ps, (flagSuspiciousActivity a attackerId ATTACK_SPEED_HACK now).2)
        else
          let distance :=
            calculateDistanceSq (position (gameState attacker)) (position (gameState target)) in
          if distance_gt distance (maxAttackRange, 1) then
            (None, ps, (flagSuspiciousActivity a attackerId RANGE_HACK now).2)
          else
            let damage := calculateDamage attacker target rnd5 in
            match applyCombatDamage ps attackerId targetId damage timestamp with
            | Some (combatResult, ps') =>
                (Some combatResult, ps', recordPlayerAction a attackerId COMBAT now)
            | None => (None, ps, a)
            end
  | _, _ =>
      (None, ps, (flagSuspiciousActivity a attackerId INVALID_TARGET now).2)
  end.

(** [applyItemEffects player item]: the player's new game state (the
    returned [effects] summary is left out). *)
Definition applyItemEffects (g : GameState) (item : Item) : GameState :=
  match effects item with
  | None => g
  | Some e =>
      let health1 :=
        match eff_health e with
        | Some h => if h =? 0 then health g else Z.min maxHealth (health g + h)
        | None => health g
        end in
      let mana1 :=
        match eff_mana e with
        | Some mn =>
            if mn =? 0 then mana g
            else
              let oldMana := Js.or_undef_num (mana g) 100 in
              let maxMana_ := Js.or_undef_num (maxMana g) 100 in
              Some (Z.min maxMana_ (oldMana + mn))
        | None => mana g
        end in
      {| position := position g; health := health1; gs_maxHealth := gs_maxHealth g;
         inCombat := inCombat g; ready := ready g; alive := alive g; stats := stats g;
         lastAttackTime := lastAttackTime g; gs_lastMoveTime := gs_lastMoveTime g;
         gs_lastValidPosition := gs_lastValidPosition g; kills := kills g;
         lastCombatTime := lastCombatTime g; deathTime := deathTime g;
         killedBy := killedBy g; mana := mana1; maxMana := maxMana g |}
  end.

(** The [actionType] of an item request: the five the code knows, and
    anything else. *)
Inductive ItemActionKind :=
| act_pickup | act_use | act_drop | act_equip | act_unequip | act_unknown.

Definition findItemById (a : Authority) (itemId : string) : option Item :=
  gameItems a !! itemId.

Section ItemActions.

(** The result of the five inventory operations and the operations
    themselves ([processItemAction]): [validateItemAction] only hands
    over to them once its own checks have passed. *)
Context {ItemResult : Type}.
Variable processItemAction :
  Authority → Players → string → Item → ItemActionKind → Js.Timestamp →
  ItemResult * Players * Authority.

(** [validateItemAction]: the item result, or null. *)
Definition validateItemAction (a : Authority) (ps : Players) (pid itemId : string)
    (kind : ItemActionKind) (timestamp : Js.Timestamp) (now : Z)
  : option ItemResult * Players * Authority :=
  match ps !! pid with
  | None => (None, ps, a)
  | Some player =>
      if health (gameState player) <=? 0 then
        (None, ps, (flagSuspiciousActivity a pid DEAD_PLAYER_ITEM_USE now).2)
      else
        match findItemById a itemId with
        | None => (None, ps, (flagSuspiciousActivity a pid INVALID_ITEM now).2)
        | Some item =>
            let distance :=
              calculateDistanceSq (position (gameState player)) (XY (item_position item)) in
            if distance_gt distance (30, 1) then
              (None, ps, (flagSuspiciousActivity a pid ITEM_RANGE_HACK now).2)
            else
              let '(r, ps', a') := processItemAction a ps pid item kind timestamp in
              (Some r, ps', a')
        end
  end.

End ItemActions.

(** [cleanup]: drop action history and violations older than 5 minutes. *)
Definition cleanup (a : Authority) (now : Z) : Authority :=
  let cutoff := now - 300000 in
  let pa :=
    omap (fun actions =>
            let recent := filter (fun action => cutoff < act_timestamp action) actions in
            if decide (recent = []) then None else Some recent)
         (playerActions a) in
  let sp :=
    omap (fun log =>
            let recent := filter (fun v => cutoff < vio_timestamp v) (violations log) in
            if decide (recent = []) then None
            else Some {| violations := recent; count := Z.of_nat (length recent) |})
         (suspiciousPlayers a) in
  {| playerActions := pa; suspiciousPlayers := sp; gameItems := gameItems a |}.

End ServerAuthority.

(** ** GameServer: the session registry and the request handlers *)
Module GameServer.

(** An entry of the legacy [this.matches] map, written only by
    [initializeMatch]. *)
Record LegacyMatch := {
  legacy_status : string;
  roundNumber : Z;
  createdAt : Z
}.

(** The fields of a [GameServer] object.  Sending a message is not
    modelled; a send that throws makes [sendToPlayer] call
    [handlePlayerDisconnection], which is a step of its own here. *)
Record Server := {
  serverAuthority : ServerAuthority.Authority;
  matchManager : gmap string MatchManager.MatchState;
  matches : gmap string LegacyMatch;
  players : gmap string ServerAuthority.PlayerConnection;
  playersByMatch : gmap string (gset string)
}.

Definition initialServer : Server :=
  {| serverAuthority :=
       {| ServerAuthority.playerActions := ∅;
          ServerAuthority.suspiciousPlayers := ∅;
          ServerAuthority.gameItems := ∅ |};
     matchManager := ∅; matches := ∅; players := ∅; playersByMatch := ∅ |}.

Definition startPosition : WorldRoom :=
  {| world := {| pos_x := 0; pos_y := 0 |}; room := {| pos_x := 3; pos_y := 4 |} |}.

(** The connection object built by [handleNewConnection]. *)
Definition newConnection (matchId playerId username : string) (now : Z)
  : ServerAuthority.PlayerConnection :=
  {| ServerAuthority.playerId := playerId;
     ServerAuthority.username := username;
     ServerAuthority.conn_matchId := matchId;
     ServerAuthority.lastPing := now;
     ServerAuthority.status := "connecting";
     ServerAuthority.isAlive := true;
     ServerAuthority.gameState :=
       {| ServerAuthority.position := WR startPosition;
          ServerAuthority.health := 100;
          ServerAuthority.gs_maxHealth := 100;
          ServerAuthority.inCombat := false;
          ServerAuthority.ready := false;
          ServerAuthority.alive := true;
          ServerAuthority.stats :=
            Some {| ServerAuthority.attack := 10; ServerAuthority.defense := 5;
                    ServerAuthority.speed := 5 |};
          ServerAuthority.lastAttackTime := Js.Num 0;
          ServerAuthority.gs_lastMoveTime := Js.Num now;
          ServerAuthority.gs_lastValidPosition := WR startPosition;
          ServerAuthority.kills := 0;
          ServerAuthority.lastCombatTime := Js.Num 0;
          ServerAuthority.deathTime := None;
          ServerAuthority.killedBy := None;
          ServerAuthority.mana := None;
          ServerAuthority.maxMana := None |} |}.

(** [createNewMatch]: the match gets the id drawn by the match manager,
    not the requested one, and is started at once. *)
Definition createNewMatch (mm : gmap string MatchManager.MatchState)
    (newPlayers : list (string * string)) (uuid : string) (rnd now : Z)
  : gmap string MatchManager.MatchState :=
  let '(matchState, mm1) := MatchManager.createMatch mm newPlayers uuid rnd now in
  (MatchManager.startMatch mm1 (MatchManager.matchId matchState) now).2.

Definition set_status (st : string) (now : Z) (c : ServerAuthority.PlayerConnection)
  : ServerAuthority.PlayerConnection :=
  {| ServerAuthority.playerId := ServerAuthority.playerId c;
     ServerAuthority.username := ServerAuthority.username c;
     ServerAuthority.conn_matchId := ServerAuthority.conn_matchId c;
     ServerAuthority.lastPing := now;
     ServerAuthority.status := st;
     ServerAuthority.isAlive := ServerAuthority.isAlive c;
     ServerAuthority.gameState := ServerAuthority.gameState c |}.

(** [updatePlayerStatus] without its broadcast. *)
Definition updatePlayerStatus (ps : gmap string ServerAuthority.PlayerConnection)
    (playerId st : string) (now : Z) : gmap string ServerAuthority.PlayerConnection :=
  match ps !! playerId with
  | None => ps
  | Some c => <[playerId := set_status st now c]> ps
  end.

(** [handleNewConnection] for the request parameters [matchId],
    [playerId], [username]; [uuid] and [rnd] are drawn if a match is
    created. *)
Definition handleNewConnection (s : Server) (matchId playerId username : string)
    (uuid : string) (rnd now : Z) : Server :=
  let playerConnection := newConnection matchId playerId username now in
  let players1 := <[playerId := playerConnection]> (players s) in
  let byMatch1 :=
    <[matchId := {[playerId]} ∪ default ∅ (playersByMatch s !! matchId)]>
      (playersByMatch s) in
  let mm1 :=
    match MatchManager.getMatchState (matchManager s) matchId with
    | None => createNewMatch (matchManager s) [(playerId, username)] uuid rnd now
    | Some _ =>
        (MatchManager.updatePlayerPosition (matchManager s) matchId playerId
                                           startPosition now).2
    end in
  {| serverAuthority := serverAuthority s;
     matchManager := mm1;
     matches := matches s;
     players := updatePlayerStatus players1 playerId "connected" now;
     playersByMatch := byMatch1 |}.

(** [handlePlayerDisconnection]: the handler of transport close and error,
    also called for a heartbeat timeout. *)
Definition handlePlayerDisconnection (s : Server) (playerId : string) : Server :=
  match players s !! playerId with
  | None => s
  | Some playerConnection =>
      let matchId := ServerAuthority.conn_matchId playerConnection in
      let players1 := delete playerId (players s) in
      match playersByMatch s !! matchId with
      | Some ids =>
          let ids1 := ids ∖ {[playerId]} in
          if decide (size ids1 = 0%nat) then
            {| serverAuthority := serverAuthority s;
               matchManager := matchManager s;
               matches := delete matchId (matches s);
               players := players1;
               playersByMatch := delete matchId (playersByMatch s) |}
          else
            {| serverAuthority := serverAuthority s;
               matchManager := matchManager s;
               matches := matches s;
               players := players1;
               playersByMatch := <[matchId := ids1]> (playersByMatch s) |}
      | None =>
          {| serverAuthority := serverAuthority s;
             matchManager := matchManager s;
             matches := matches s;
             players := players1;
             playersByMatch := playersByMatch s |}
      end
  end.

(** [cleanupInactivePlayers]: every session silent for more than 60 s is
    released. *)
Definition cleanupInactivePlayers (s : Server) (now : Z) : Server :=
  let timeout := 60000 in
  foldr (fun entry acc =>
           let '(playerId, c) := entry in
           if (timeout <? now - ServerAuthority.lastPing c) && ServerAuthority.isAlive c
           then handlePlayerDisconnection acc playerId
           else acc)
        s (map_to_list (players s)).

(** The properties [validateMovement] reads on its [playerData] argument,
    read on a connection object: [handleMoveRequest] passes the connection,
    which keeps [lastMoveTime] and [lastValidPosition] under [gameState],
    so both reads give undefined. *)
Definition connectionAsPlayerData (_ : ServerAuthority.PlayerConnection)
  : ServerAuthority.PlayerData :=
  {| ServerAuthority.lastMoveTime := None;
     ServerAuthority.lastValidPosition := None |}.

Definition set_moved (v : Position) (timestamp : Js.Timestamp)
    (c : ServerAuthority.PlayerConnection) : ServerAuthority.PlayerConnection :=
  let g := ServerAuthority.gameState c in
  ServerAuthority.set_gameState
    {| ServerAuthority.position := v;
       ServerAuthority.health := ServerAuthority.health g;
       ServerAuthority.gs_maxHealth := ServerAuthority.gs_maxHealth g;
       ServerAuthority.inCombat := ServerAuthority.inCombat g;
       ServerAuthority.ready := ServerAuthority.ready g;
       ServerAuthority.alive := ServerAuthority.alive g;
       ServerAuthority.stats := ServerAuthority.stats g;
       ServerAuthority.lastAttackTime := ServerAuthority.lastAttackTime g;
       ServerAuthority.gs_lastMoveTime := timestamp;
       ServerAuthority.gs_lastValidPosition := v;
       ServerAuthority.kills := ServerAuthority.kills g;
       ServerAuthority.lastCombatTime := ServerAuthority.lastCombatTime g;
       ServerAuthority.deathTime := ServerAuthority.deathTime g;
       ServerAuthority.killedBy := ServerAuthority.killedBy g;
       ServerAuthority.mana := ServerAuthority.mana g;
       ServerAuthority.maxMana := ServerAuthority.maxMana g |} c.

(** [handleMoveRequest] for a message [{position, timestamp}]; the reply
    is the validated position, or [None] for a POSITION_CORRECTION.
    [message.timestamp || Date.now()]: a message without timestamp gets
    the clock's. *)
Definition handleMoveRequest (s : Server) (playerId : string) (msgPosition : Position)
    (msgTimestamp : option Js.Timestamp) (now : Z) : option Position * Server :=
  match players s !! playerId with
  | None => (None, s)
  | Some playerConnection =>
      if negb (ServerAuthority.alive (ServerAuthority.gameState playerConnection))
      then (None, s)
      else
        let fromPos := ServerAuthority.position (ServerAuthority.gameState playerConnection) in
        let toPos := msgPosition in
        let timestamp := Js.or_undef_time msgTimestamp (Js.Num now) in
        let '(validatedPosition, a') :=
          ServerAuthority.validateMovement (serverAuthority s) playerId fromPos toPos
            timestamp (connectionAsPlayerData playerConnection) now in
        match validatedPosition with
        | Some v =>
            (Some v,
             {| serverAuthority := a';
                matchManager := matchManager s;
                matches := matches s;
                players := <[playerId := set_moved v timestamp playerConnection]> (players s);
                playersByMatch := playersByMatch s |})
        | None =>
            (None,
             {| serverAuthority := a';
                matchManager := matchManager s;
                matches := matches s;
                players := players s;
                playersByMatch := playersByMatch s |})
        end
  end.

Definition set_died (timestamp : Js.Timestamp) (c : ServerAuthority.PlayerConnection)
  : ServerAuthority.PlayerConnection :=
  let g := ServerAuthority.gameState c in
  {| ServerAuthority.playerId := ServerAuthority.playerId c;
     ServerAuthority.username := ServerAuthority.username c;
     ServerAuthority.conn_matchId := ServerAuthority.conn_matchId c;
     ServerAuthority.lastPing := ServerAuthority.lastPing c;
     ServerAuthority.status := "dead";
     ServerAuthority.isAlive := ServerAuthority.isAlive c;
     ServerAuthority.gameState :=
       {| ServerAuthority.position := ServerAuthority.position g;
          ServerAuthority.health := 0;
          ServerAuthority.gs_maxHealth := ServerAuthority.gs_maxHealth g;
          ServerAuthority.inCombat := ServerAuthority.inCombat g;
          ServerAuthority.ready := ServerAuthority.ready g;
          ServerAuthority.alive := false;
          ServerAuthority.stats := ServerAuthority.stats g;
          ServerAuthority.lastAttackTime := ServerAuthority.lastAttackTime g;
          ServerAuthority.gs_lastMoveTime := ServerAuthority.gs_lastMoveTime g;
          ServerAuthority.gs_lastValidPosition := ServerAuthority.gs_lastValidPosition g;
          ServerAuthority.kills := ServerAuthority.kills g;
          ServerAuthority.lastCombatTime := ServerAuthority.lastCombatTime g;
          ServerAuthority.deathTime := Some timestamp;
          ServerAuthority.killedBy := ServerAuthority.killedBy g;
          ServerAuthority.mana := ServerAuthority.mana g;
          ServerAuthority.maxMana := ServerAuthority.maxMana g |} |}.

(** [GameServer.handlePlayerDeath] without its broadcast. *)
Definition handlePlayerDeath (ps : gmap string ServerAuthority.PlayerConnection)
    (deadPlayerId : string) (timestamp : Js.Timestamp)
  : gmap string ServerAuthority.PlayerConnection :=
  match ps !! deadPlayerId with
  | None => ps
  | Some deadPlayer => <[deadPlayerId := set_died timestamp deadPlayer]> ps
  end.

(** [handleAttackRequest] for a message [{targetId, timestamp}]; the reply
    is the combat result, or [None] for ATTACK_REJECTED (or no reply). *)
Definition handleAttackRequest (s : Server) (playerId targetId : string)
    (msgTimestamp : option Js.Timestamp) (rnd5 now : Z)
  : option ServerAuthority.CombatResult * Server :=
  match players s !! playerId with
  | None => (None, s)
  | Some playerConnection =>
      if negb (ServerAuthority.alive (ServerAuthority.gameState playerConnection))
      then (None, s)
      else
        let timestamp := Js.or_undef_time msgTimestamp (Js.Num now) in
        let '(combatResult, ps', a') :=
          ServerAuthority.validateCombatAction (serverAuthority s) (players s)
            playerId targetId timestamp rnd5 now in
        let ps'' :=
          match combatResult with
          | Some r =>
              if ServerAuthority.isDead r then handlePlayerDeath ps' targetId timestamp
              else ps'
          | None => ps'
          end in
        (combatResult,
         {| serverAuthority := a';
            matchManager := matchManager s;
            matches := matches s;
            players := ps'';
            playersByMatch := playersByMatch s |})
  end.

End GameServer.

(** ** Vocabulary of the statements *)
Module Inv.
Import MatchManager.

(** The terrain of a cell as the landmark table and the seeded hash give
    it, without the cache. *)
Definition terrainAt (sm : ServerMap) (k : Z * Z) : Terrain :=
  match landmarks sm !! k with
  | Some lm => lm_type lm
  | None => generateTerrainType k.1 k.2 (seed sm)
  end.

(** Every cached terrain is the derived one. *)
Definition cache_coherent (sm : ServerMap) : Prop :=
  map_Forall (fun k t => t = terrainAt sm k) (terrainCache sm).

(** Replace the terrain cache of a match: with a sub-map of the current
    cache this is the eviction of any set of entries, with [∅] a full
    clear. *)
Definition withTerrainCache (c : gmap (Z * Z) Terrain) (mid : string) (ms : Matches)
  : Matches :=
  alter (fun m => set_map (set_terrainCache c (map m)) m) mid ms.

(** A 20 x 20 grid whose border cells are walls. *)
Definition grid_ok (g : list (list Tile)) : Prop :=
  length g = 20%nat ∧
  Forall (fun row => length row = 20%nat) g ∧
  ∀ (i j : nat) (row : list Tile),
    g !! i = Some row → (j < 20)%nat →
    (i = 0 ∨ i = 19 ∨ j = 0 ∨ j = 19)%nat →
    row !! j = Some wall.

(** Every cached room sits on accessible terrain and has a well-formed
    grid. *)
Definition rooms_ok (m : MatchState) : Prop :=
  map_Forall (fun k r =>
                isTerrainAccessible (terrainAt (map m) k) = true ∧
                room_size r = (20, 20) ∧
                grid_ok (terrain r)) (rooms m).

Definition match_ok (m : MatchState) : Prop :=
  cache_coherent (map m) ∧ rooms_ok m.

Definition all_ok (ms : Matches) : Prop :=
  map_Forall (fun _ m => match_ok m) ms.

(** The states of the match table that the match manager's operations
    produce from the empty table. *)
Inductive reachable : Matches → Prop :=
| reach_empty : reachable ∅
| reach_createMatch ms ps uuid rnd now :
    reachable ms → reachable (createMatch ms ps uuid rnd now).2
| reach_startMatch ms mid now :
    reachable ms → reachable (startMatch ms mid now).2
| reach_getTerrainType ms mid x y :
    reachable ms → reachable (getTerrainType ms mid x y).2
| reach_generateRoomData ms mid x y :
    reachable ms → reachable (generateRoomData ms mid x y).2
| reach_updatePlayerPosition ms mid pid pos now :
    reachable ms → reachable (updatePlayerPosition ms mid pid pos now).2
| reach_recordPlayerDamage ms mid a t d :
    reachable ms → reachable (recordPlayerDamage ms mid a t d).2
| reach_recordPlayerKill ms mid k v now :
    reachable ms → reachable (recordPlayerKill ms mid k v now).2
| reach_recordItemCollection ms mid p q :
    reachable ms → reachable (recordItemCollection ms mid p q).2
| reach_endMatch ms mid reason now :
    reachable ms → reachable (endMatch ms mid reason now).2
| reach_reapMatch ms mid :
    reachable ms → reachable (reapMatch ms mid).

End Inv.

(** Runs of validated requests, and sample data. *)
Module Runs.
Import ServerAuthority.

Definition noAuthority : Authority :=
  {| playerActions := ∅; suspiciousPlayers := ∅; gameItems := ∅ |}.

Definition pt (a b : Z) : Position := XY {| pos_x := a; pos_y := b |}.

(** The speed rule read without the bounds check: every request beyond
    the speed bound gets the last valid position back, never the requested
    one. *)
Definition speed_rule_unconditional : Prop :=
  ∀ a pid fromPos toPos timestamp pd now,
    distance_gt_num
      (calculateDistanceSq fromPos toPos)
      (calculateMaxMovementDistance
         (Js.sub (Js.toNumber timestamp)
                 (Js.toNumber (Js.or_undef_time (lastMoveTime pd) timestamp)))) = true →
    (validateMovement a pid fromPos toPos timestamp pd now).1
      = Some (default fromPos (lastValidPosition pd)) ∧
    (validateMovement a pid fromPos toPos timestamp pd now).1 ≠ Some toPos.

(** One attack request as [validateCombatAction] receives it, with the
    random draw and the clock reading of that call. *)
Record AttackRequest := {
  req_attacker : string;
  req_target : string;
  req_timestamp : Js.Timestamp;
  req_rnd5 : Z;
  req_now : Z
}.

Definition attackStep (st : Players * Authority) (r : AttackRequest)
  : option CombatResult * (Players * Authority) :=
  let '(res, ps', a') :=
    validateCombatAction st.2 st.1 (req_attacker r) (req_target r)
                         (req_timestamp r) (req_rnd5 r) (req_now r) in
  (res, (ps', a')).

Definition runAttacks (st : Players * Authority) (reqs : list AttackRequest)
  : Players * Authority :=
  fold_left (fun st r => (attackStep st r).2) reqs st.

(** The timestamp [t] is a number at or after the finite time [n]. *)
Definition not_before (n : Z) (t : Js.Timestamp) : Prop :=
  match t with
  | Js.Num m => n ≤ m
  | Js.Infinity => True
  | Js.NegInfinity | Js.NotNumeric => False
  end.

(** The request, when it is one of attacker [p], carries a number as
    timestamp. *)
Definition numeric_for (p : string) (r : AttackRequest) : Prop :=
  req_attacker r = p → req_timestamp r ≠ Js.NotNumeric.

(** The cooldown read without a condition on the requests in between:
    of two requests of one attacker with finite timestamps less than the
    cooldown apart, the second is refused once the first was accepted. *)
Definition cooldown_unconditional : Prop :=
  ∀ ps a r1 between r2 t1 t2,
    req_attacker r2 = req_attacker r1 →
    req_timestamp r1 = Js.Num t1 →
    req_timestamp r2 = Js.Num t2 →
    Z.abs (t2 - t1) < attackCooldown →
    (attackStep (ps, a) r1).1 ≠ None →
    (attackStep (runAttacks (attackStep (ps, a) r1).2 between) r2).1 = None.

(** [lastAttackTime] and [health] of a player of the session map. *)
Definition lastAttackOf (ps : Players) (p : string) : option Js.Timestamp :=
  (fun c => lastAttackTime (gameState c)) <$> ps !! p.

Definition healthOf (ps : Players) (p : string) : option Z :=
  (fun c => health (gameState c)) <$> ps !! p.

Definition nonneg_health (ps : Players) : Prop :=
  map_Forall (fun _ c => 0 ≤ health (gameState c)) ps.

Definition health_in_range (ps : Players) : Prop :=
  map_Forall (fun _ c => 0 ≤ health (gameState c) ≤ maxHealth) ps.

(** The same for the match-scoped player states. *)
Definition match_nonneg_health (m : MatchManager.MatchState) : Prop :=
  Forall (fun pc => 0 ≤ MatchManager.health pc.2) (MatchManager.players m).

Definition match_health_in_range (m : MatchManager.MatchState) : Prop :=
  Forall (fun pc => 0 ≤ MatchManager.health pc.2 ≤ maxHealth) (MatchManager.players m).

(** A health potion lying at the origin. *)
Definition healthPotion : Item :=
  {| item_id := "health_potion_1"; templateId := "health_potion";
     item_type := CONSUMABLE; item_position := {| pos_x := 0; pos_y := 0 |};
     quantity := 1;
     effects := Some {| eff_health := Some 50; eff_mana := None; eff_buff := None |} |}.

(** The match of the test players of [createTestMatch]. *)
Definition testMatch : MatchManager.MatchState * MatchManager.Matches :=
  MatchManager.createMatch ∅
    [("test1", "TestPlayer1"); ("test2", "TestPlayer2");
     ("test3", "TestPlayer3"); ("test4", "TestPlayer4")] "m-test" 7 1000.

(** [n] move requests of one player that stay on the spot, one every
    [gap] ms starting at [t0]; each is validated against the time of the
    previous one. *)
Fixpoint moveBurst (a : Authority) (pid : string) (at_ : Position) (t0 gap : Z) (n : nat)
  : Authority :=
  match n with
  | O => a
  | S k =>
      let a' :=
        (validateMovement a pid at_ at_ (Js.Num (t0 + gap))
           {| lastMoveTime := Some (Js.Num t0); lastValidPosition := Some at_ |}
           (t0 + gap)).2 in
      moveBurst a' pid at_ (t0 + gap) gap k
  end.

(** Twenty accepted move requests within one second leave a violation
    on the player's record. *)
Definition burst_of_twenty_is_flagged : Prop :=
  ∀ pid at_ t0 gap,
    isPositionInBounds at_ = true → 0 < gap → 20 * gap ≤ 1000 →
    suspiciousPlayers (moveBurst noAuthority pid at_ t0 gap 20) !! pid ≠ None.

(** Two sessions in the lobby, as [handleNewConnection] leaves them. *)
Definition duel : GameServer.Server :=
  GameServer.handleNewConnection
    (GameServer.handleNewConnection GameServer.initialServer "lobby" "a" "Ann" "m-1" 7 1000)
    "lobby" "b" "Bob" "m-2" 7 1000.

(** [n] attack requests of "a" on "b", one every 1500 ms from [t0] on,
    each with the middle random draw (damage 20). *)
Fixpoint attacksOnB (s : GameServer.Server) (t0 : Z) (n : nat) : GameServer.Server :=
  match n with
  | O => s
  | S k =>
      attacksOnB (GameServer.handleAttackRequest s "a" "b" (Some (Js.Num t0)) 2 t0).2
                 (t0 + 1500) k
  end.

Definition sampleFirst : AttackRequest :=
  {| req_attacker := "a"; req_target := "b"; req_timestamp := Js.Num 2000;
     req_rnd5 := 2; req_now := 2000 |}.
Definition sampleBetween : AttackRequest :=
  {| req_attacker := "b"; req_target := "a"; req_timestamp := Js.Num 2500;
     req_rnd5 := 0; req_now := 2500 |}.
Definition sampleSecond : AttackRequest :=
  {| req_attacker := "a"; req_target := "b"; req_timestamp := Js.Num 3499;
     req_rnd5 := 4; req_now := 3499 |}.

(** Requests of "a" whose timestamp is the string "x", 2001, and the
    JSON number [1e999]. *)
Definition sampleUnreadable : AttackRequest :=
  {| req_attacker := "a"; req_target := "b"; req_timestamp := Js.NotNumeric;
     req_rnd5 := 2; req_now := 2000 |}.
Definition sampleSoon : AttackRequest :=
  {| req_attacker := "a"; req_target := "b"; req_timestamp := Js.Num 2001;
     req_rnd5 := 2; req_now := 2001 |}.
Definition sampleOverflow : AttackRequest :=
  {| req_attacker := "a"; req_target := "b"; req_timestamp := Js.Infinity;
     req_rnd5 := 2; req_now := 2000 |}.

(** "a" attacks "b" at 2000; then its transport closes and it connects
    again under the same player id. *)
Definition firstAttack : option CombatResult * GameServer.Server :=
  GameServer.handleAttackRequest duel "a" "b" (Some (Js.Num 2000)) 2 2000.

Definition reconnected : GameServer.Server :=
  GameServer.handleNewConnection
    (GameServer.handlePlayerDisconnection firstAttack.2 "a")
    "lobby" "a" "Ann" "m-3" 7 2000.

(** The session map once "a" has killed "b". *)
Definition afterKill : GameServer.Server := attacksOnB duel 2000 5.

Definition killsOf (s : GameServer.Server) (p : string) : option Z :=
  (fun c => kills (gameState c)) <$> GameServer.players s !! p.

Definition deathTimeOf (s : GameServer.Server) (p : string)
  : option (option Js.Timestamp) :=
  (fun c => deathTime (gameState c)) <$> GameServer.players s !! p.

Definition aliveOf (s : GameServer.Server) (p : string) : option bool :=
  (fun c => alive (gameState c)) <$> GameServer.players s !! p.

Definition lastCombatOf (s : GameServer.Server) (p : string) : option Js.Timestamp :=
  (fun c => lastCombatTime (gameState c)) <$> GameServer.players s !! p.

End Runs.

(** The end-of-match statistics. *)
Module StatsInv.
Import MatchManager.

(** The invariant of the loop for the winner: it is the row of a player
    seen so far, holds the largest kill count seen so far, and is alive
    if any holder of that count seen so far is. *)
Definition winner_ok (seen : list (string * PlayerState)) (acc : StatsAcc) : Prop :=
  match winner acc with
  | None => seen = [] ∧ maxKills acc = -1
  | Some w =>
      ps_kills w = maxKills acc ∧
      (∃ pid p, (pid, p) ∈ seen ∧ ps_playerId w = pid ∧ ps_kills w = kills p ∧
                ps_survived w = isAlive p) ∧
      Forall (fun e => kills e.2 ≤ ps_kills w ∧
                       (kills e.2 = ps_kills w → isAlive e.2 = true →
                        ps_survived w = true)) seen
  end.

(** The match of [createTestMatch], as the match table holds it. *)
Definition playedMatch : MatchState :=
  default (createMatch ∅ [] "m-test" 7 1000).1
          (createTestMatch ∅ "m-test" 7 1000 !! "m-test").

End StatsInv.

(** The session registry against the match rosters. *)
Module Registry.
Import GameServer.

(** A session of player [p] is attached to match [mid]. *)
Definition attached (s : Server) (mid p : string) : Prop :=
  ∃ c, players s !! p = Some c ∧ ServerAuthority.conn_matchId c = mid.

(** The players a match lists in its match-scoped player map. *)
Definition roster (m : MatchManager.MatchState) : list string :=
  (MatchManager.players m).*1.

(** Every player a match lists has a session attached to that match. *)
Definition roster_within_sessions (s : Server) : Prop :=
  ∀ mid m p, matchManager s !! mid = Some m → p ∈ roster m → attached s mid p.

(** A player joins the lobby and the transport closes. *)
Definition joined : Server :=
  handleNewConnection initialServer "lobby" "p1" "Ann" "m-1" 7 1000.

Definition released : Server := handlePlayerDisconnection joined "p1".

(** The same reading on the server's own index [playersByMatch]. *)
Definition index_within_sessions (s : Server) : Prop :=
  ∀ mid ids p, playersByMatch s !! mid = Some ids → p ∈ ids → attached s mid p.

(** The player connects a second time under the same id, to another
    match, and that connection closes. *)
Definition rejoined : Server :=
  handleNewConnection joined "arena" "p1" "Ann" "m-2" 7 2000.

Definition rejoinedReleased : Server := handlePlayerDisconnection rejoined "p1".

End Registry.

(** Decide a closed decidable proposition by evaluating its decision
    procedure. *)
Ltac by_evaluation :=
  lazymatch goal with
  | |- ?G => apply (bool_decide_unpack G); vm_compute; exact I
  end.



(** ** ServerAuthority: the item system *)
Module Inventory.
Import ServerAuthority.

(** A player's inventory.  [items] is searched in insertion order by
    [findItemInInventory], so it keeps that order; [createdAt] is left
    out. *)
Record Inventory := {
  inv_playerId : string;
  inv_items : list (Z * Item);
  equipped : gmap string Item;
  maxSlots : Z
}.

Abbreviation Inventories := (gmap string Inventory).

Definition set_items (its : list (Z * Item)) (inv : Inventory) : Inventory :=
  {| inv_playerId := inv_playerId inv; inv_items := its;
     equipped := equipped inv; maxSlots := maxSlots inv |}.

Definition set_equipped (eq : gmap string Item) (inv : Inventory) : Inventory :=
  {| inv_playerId := inv_playerId inv; inv_items := inv_items inv;
     equipped := eq; maxSlots := maxSlots inv |}.

Definition set_gameItems (g : gmap string Item) (a : Authority) : Authority :=
  {| playerActions := playerActions a; suspiciousPlayers := suspiciousPlayers a;
     gameItems := g |}.

Definition set_quantity (q : Z) (it : Item) : Item :=
  {| item_id := item_id it; templateId := templateId it; item_type := item_type it;
     item_position := item_position it; quantity := q; effects := effects it |}.

(** [this.itemTypes]: the two properties [pickupItem] reads. *)
Definition stackable (t : ItemType) : bool :=
  match t with
  | CONSUMABLE | MATERIAL => true
  | WEAPON | ARMOR | KEY_ITEM => false
  end.

Definition maxStack (t : ItemType) : Z :=
  match t with
  | CONSUMABLE => 99
  | MATERIAL => 999
  | WEAPON | ARMOR | KEY_ITEM => 1
  end.

(** [Map.delete] on an insertion-ordered map. *)
Definition omap_delete {V} (k : Z) (m : list (Z * V)) : list (Z * V) :=
  filter (fun e => e.1 ≠ k) m.

(** [initializePlayerInventory]: the inventory, and the table that now
    holds it. *)
Definition initializePlayerInventory (invs : Inventories) (pid : string)
  : Inventory * Inventories :=
  match invs !! pid with
  | Some inv => (inv, invs)
  | None =>
      let inv := {| inv_playerId := pid; inv_items := []; equipped := ∅; maxSlots := 20 |} in
      (inv, <[pid := inv]> invs)
  end.

(** [findItemInInventory]: the slot of the first item, in insertion order,
    of the given template. *)
Definition findItemInInventory (invs : Inventories) (pid templ : string) : option Z :=
  match invs !! pid with
  | None => None
  | Some inv =>
      fst <$> List.find (fun e => bool_decide (templateId e.2 = templ)) (inv_items inv)
  end.

(** [findItemSlotInInventory]: the same by item id. *)
Definition findItemSlotInInventory (invs : Inventories) (pid iid : string) : option Z :=
  match invs !! pid with
  | None => None
  | Some inv =>
      fst <$> List.find (fun e => bool_decide (item_id e.2 = iid)) (inv_items inv)
  end.

Definition getEquipmentSlot (it : Item) : string :=
  match item_type it with
  | WEAPON => "weapon"
  | ARMOR => "chest"
  | _ => "misc"
  end.

(** What the item operations answer. *)
Inductive ItemOutcome :=
| Failed (reason : string)
| Stacked (it : Item) (slot : Z)
| PickedUp (it : Item) (slot : Z)
| Consumed (it : Item) (timestamp : Js.Timestamp)
| Equipped (it : Item) (slot : string) (previousItem : option Item)
| Unequipped (it : Item) (slot : string)
| Dropped (it : Item).

(** The first slot of [0 .. maxSlots - 1] the inventory does not hold. *)
Definition firstEmptySlot (inv : Inventory) : option Z :=
  List.find (fun i => negb (bool_decide (is_Some (Js.omap_get i (inv_items inv)))))
            (seqZ 0 (maxSlots inv)).

(** The part of [pickupItem] after the stacking attempt. *)
Definition pickupIntoEmptySlot (invs : Inventories) (a : Authority) (pid : string)
    (inv : Inventory) (it : Item) : ItemOutcome * Inventories * Authority :=
  match firstEmptySlot inv with
  | None => (Failed "No empty slots", invs, a)
  | Some emptySlot =>
      (PickedUp it emptySlot,
       <[pid := set_items (Js.omap_set emptySlot it (inv_items inv)) inv]> invs,
       set_gameItems (delete (item_id it) (gameItems a)) a)
  end.

(** [pickupItem].  [if (existingSlot)] is false for slot 0 as it is for
    null; the slot that the search returns always holds an item.  The copy
    put into the inventory also carries [pickedUpAt], which nothing reads. *)
Definition pickupItem (invs : Inventories) (a : Authority) (pid : string) (it : Item)
  : ItemOutcome * Inventories * Authority :=
  let '(inv, invs1) := initializePlayerInventory invs pid in
  if maxSlots inv <=? Z.of_nat (length (inv_items inv)) then
    (Failed "Inventory full", invs1, a)
  else
    let fresh := pickupIntoEmptySlot invs1 a pid inv it in
    if stackable (item_type it) then
      match findItemInInventory invs1 pid (templateId it) with
      | Some existingSlot =>
          if existingSlot =? 0 then fresh
          else
            match Js.omap_get existingSlot (inv_items inv) with
            | Some existingItem =>
                let newQuantity := quantity existingItem + quantity it in
                if newQuantity <=? maxStack (item_type it) then
                  let stackedItem := set_quantity newQuantity existingItem in
                  (Stacked stackedItem existingSlot,
                   <[pid := set_items (Js.omap_set existingSlot stackedItem (inv_items inv))
                                      inv]> invs1,
                   set_gameItems (delete (item_id it) (gameItems a)) a)
                else fresh
            | None => fresh
            end
      | None => fresh
      end
    else fresh.

(** [useItem].  The item object it receives is the one the world holds
    under [ref] (the id [validateItemAction] looked up), so the new
    quantity is written there. *)
Definition useItem (invs : Inventories) (a : Authority) (ps : Players) (pid : string)
    (ref : string) (it : Item) (timestamp : Js.Timestamp)
  : ItemOutcome * Inventories * Players * Authority :=
  match invs !! pid with
  | None => (Failed "No inventory", invs, ps, a)
  | Some inv =>
      match ps !! pid with
      | None => (Failed "Player not found", invs, ps, a)
      | Some player =>
          match item_type it with
          | CONSUMABLE =>
              let ps' :=
                <[pid := set_gameState (applyItemEffects (gameState player) it) player]> ps in
              let it' := set_quantity (Z.max 0 (quantity it - 1)) it in
              let a' := set_gameItems (alter (fun _ => it') ref (gameItems a)) a in
              let invs' :=
                if quantity it' <=? 0 then
                  match findItemSlotInInventory invs pid (item_id it) with
                  | Some slot => <[pid := set_items (omap_delete slot (inv_items inv)) inv]> invs
                  | None => invs
                  end
                else invs in
              (Consumed it' timestamp, invs', ps', a')
          | _ => (Failed "Item not usable", invs, ps, a)
          end
      end
  end.

(** [unequipItem] *)
Definition unequipItem (invs : Inventories) (pid : string) (it : Item)
  : ItemOutcome * Inventories :=
  match invs !! pid with
  | None => (Failed "No inventory", invs)
  | Some inv =>
      let equipSlot := getEquipmentSlot it in
      (Unequipped it equipSlot,
       <[pid := set_equipped (delete equipSlot (equipped inv)) inv]> invs)
  end.

(** [equipItem]: an occupant of the slot is unequipped first. *)
Definition equipItem (invs : Inventories) (pid : string) (it : Item)
  : ItemOutcome * Inventories :=
  match invs !! pid with
  | None => (Failed "No inventory", invs)
  | Some inv =>
      match item_type it with
      | WEAPON | ARMOR =>
          let equipSlot := getEquipmentSlot it in
          let currentlyEquipped := equipped inv !! equipSlot in
          let invs1 :=
            match currentlyEquipped with
            | Some current => (unequipItem invs pid current).2
            | None => invs
            end in
          match invs1 !! pid with
          | Some inv1 =>
              (Equipped it equipSlot currentlyEquipped,
               <[pid := set_equipped (<[equipSlot := it]> (equipped inv1)) inv1]> invs1)
          | None => (Failed "No inventory", invs1)
          end
      | _ => (Failed "Item not equippable", invs)
      end
  end.

Section Process.

(** [dropItem] computes the position of the dropped item from the player's
    position object and two random offsets; it is a parameter here. *)
Variable dropItem :
  Inventories → Authority → Players → string → Item → Js.Timestamp →
  ItemOutcome * Inventories * Players * Authority.

(** [processItemAction]: the switch over the action type; [ref] is the id
    under which the world holds [it]. *)
Definition processItemAction (invs : Inventories) (ref : string) (a : Authority)
    (ps : Players) (pid : string) (it : Item) (kind : ItemActionKind)
    (timestamp : Js.Timestamp)
  : (ItemOutcome * Inventories) * Players * Authority :=
  match kind with
  | act_pickup =>
      let '(r, invs', a') := pickupItem invs a pid it in ((r, invs'), ps, a')
  | act_use =>
      let '(r, invs', ps', a') := useItem invs a ps pid ref it timestamp in
      ((r, invs'), ps', a')
  | act_drop =>
      let '(r, invs', ps', a') := dropItem invs a ps pid it timestamp in ((r, invs'), ps', a')
  | act_equip =>
      let '(r, invs') := equipItem invs pid it in ((r, invs'), ps, a)
  | act_unequip =>
      let '(r, invs') := unequipItem invs pid it in ((r, invs'), ps, a)
  | act_unknown => ((Failed "Unknown action", invs), ps, a)
  end.

(** [validateItemAction] with the item operations in place; a rejection
    leaves the inventories as they are. *)
Definition validateItemRequest (invs : Inventories) (a : Authority) (ps : Players)
    (pid itemId : string) (kind : ItemActionKind) (timestamp : Js.Timestamp) (now : Z)
  : option ItemOutcome * Inventories * Players * Authority :=
  match validateItemAction (processItemAction invs itemId) a ps pid itemId kind
                           timestamp now with
  | (Some (r, invs'), ps', a') => (Some r, invs', ps', a')
  | (None, ps', a') => (None, invs, ps', a')
  end.

End Process.

(** An entry of [this.itemDatabase]; name, rarity, stats and description
    are left out. *)
Record ItemTemplate := {
  tpl_id : string;
  tpl_type : ItemType;
  tpl_effects : option Effects
}.

Definition itemDatabase (templateId : string) : option ItemTemplate :=
  if decide (templateId = "iron_sword") then
    Some {| tpl_id := "iron_sword"; tpl_type := WEAPON; tpl_effects := None |}
  else if decide (templateId = "steel_dagger") then
    Some {| tpl_id := "steel_dagger"; tpl_type := WEAPON; tpl_effects := None |}
  else if decide (templateId = "leather_armor") then
    Some {| tpl_id := "leather_armor"; tpl_type := ARMOR; tpl_effects := None |}
  else if decide (templateId = "chain_mail") then
    Some {| tpl_id := "chain_mail"; tpl_type := ARMOR; tpl_effects := None |}
  else if decide (templateId = "health_potion") then
    Some {| tpl_id := "health_potion"; tpl_type := CONSUMABLE;
            tpl_effects := Some {| eff_health := Some 50; eff_mana := None;
                                   eff_buff := None |} |}
  else if decide (templateId = "mana_potion") then
    Some {| tpl_id := "mana_potion"; tpl_type := CONSUMABLE;
            tpl_effects := Some {| eff_health := None; eff_mana := Some 30;
                                   eff_buff := None |} |}
  else if decide (templateId = "iron_ore") then
    Some {| tpl_id := "iron_ore"; tpl_type := MATERIAL; tpl_effects := None |}
  else if decide (templateId = "magic_crystal") then
    Some {| tpl_id := "magic_crystal"; tpl_type := MATERIAL; tpl_effects := None |}
  else None.

(** [spawnItem] for the template ids the spawn pools hold and for ids that
    are no property of the database object.  [counter] is
    [this.itemIdCounter]; [position] is the random point within the radius
    and [rnd5] is [Math.floor (Math.random () * 5)].  The template is
    spread after the [id] property, so the item's [id] is the template's. *)
Definition spawnItem (a : Authority) (counter : Z) (itemTemplateId : string)
    (position : Point) (rnd5 : Z) : option Item * Authority * Z :=
  match itemDatabase itemTemplateId with
  | None => (None, a, counter)
  | Some template =>
      let uniqueItemId := itemTemplateId +:+ "_" +:+ pretty counter in
      let item :=
        {| item_id := tpl_id template;
           templateId := itemTemplateId;
           item_type := tpl_type template;
           item_position := position;
           quantity := if stackable (tpl_type template) then rnd5 + 1 else 1;
           effects := tpl_effects template |} in
      (Some item, set_gameItems (<[uniqueItemId := item]> (gameItems a)) a, counter + 1)
  end.

(** Vocabulary: the slots of an inventory are distinct numbers of
    [0 .. 19]. *)
Definition inv_ok (inv : Inventory) : Prop :=
  maxSlots inv = 20 ∧
  NoDup (inv_items inv).*1 ∧
  Forall (fun k => 0 ≤ k < 20) (inv_items inv).*1.

Definition invs_ok (invs : Inventories) : Prop := map_Forall (fun _ => inv_ok) invs.

End Inventory.

(** ** Vocabulary: what a room is made of *)
Module RoomInv.
Import MatchManager Inv.

(** Everything of a room but the two exploration marks. *)
Definition layout (r : RoomData) :=
  (worldPos r, terrainType r, room_roomType r, room_seed r, room_size r,
   terrain r, entities r, room_description r).

(** The room that the seed and the landmark table give at a cell:
    nothing on inaccessible terrain. *)
Definition roomAt (sm : ServerMap) (k : Z * Z) : option RoomData :=
  let info := getTerrainAccessInfo (terrainAt sm k) in
  if accessible info then
    let roomSeed := hashCoords k.1 k.2 (seed sm) in
    Some {| worldPos := k;
            terrainType := terrainAt sm k;
            room_roomType := roomType info;
            room_seed := roomSeed;
            room_size := (20, 20);
            terrain := generateRoomTerrain (roomType info) roomSeed;
            entities := generateRoomEntities (roomType info) roomSeed;
            discovered := false;
            exploredBy := ∅;
            room_description := description info |}
  else None.

(** Every cached room has the layout of [roomAt]. *)
Definition rooms_exact (m : MatchState) : Prop :=
  map_Forall (fun k r => layout <$> roomAt (map m) k = Some (layout r)) (rooms m).

(** The map of a match is the one of its seed, up to the terrain cache. *)
Definition map_of_seed (m : MatchState) : Prop :=
  seed (map m) = match_seed m ∧
  landmarks (map m) = landmarks (generateServerMap (match_seed m)).

Definition match_exact (m : MatchState) : Prop :=
  cache_coherent (map m) ∧ map_of_seed m ∧ rooms_exact m.

Definition all_exact (ms : Matches) : Prop := map_Forall (fun _ m => match_exact m) ms.

(** The terrain kinds that the landmark table and [generateTerrainType]
    hold. *)
Definition producedTerrain : list Terrain :=
  [T_town; T_village; T_dungeon; T_ruins; T_cave; T_tower;
   T_road; T_mountain; T_forest; T_hills; T_grass; T_water; T_deep_water].

(** The room types of the accessible ones among them. *)
Definition producedRoomTypes : list RoomType :=
  [R_town; R_village; R_dungeon; R_ruins; R_cave; R_tower;
   R_road; R_forest; R_hills; R_field; R_shore].

End RoomInv.

(** ** Vocabulary: tallies over the roster and the statistics rows *)
Module Tally.
Import MatchManager.

Definition sumZ (l : list Z) : Z := foldr Z.add 0 l.

(** The sum of one counter over the roster. *)
Definition total (f : PlayerState → Z) (l : list (string * PlayerState)) : Z :=
  sumZ ((fun e => f e.2) <$> l).

(** [w] is the first row, in roster order, that holds the maximum of
    [key]. *)
Definition first_maximum (key : PlayerStats → Z) (rows : list PlayerStats)
    (w : PlayerStats) : Prop :=
  ∃ before after,
    rows = before ++ w :: after ∧
    Forall (fun r => key r < key w) before ∧
    Forall (fun r => key r ≤ key w) after.

(** The state of one award inside the loop: no holder before the first
    row, the first holder of the running maximum [mx] afterwards. *)
Definition award_inv (key : PlayerStats → Z) (rows : list PlayerStats) (mx : Z)
    (aw : option PlayerStats) : Prop :=
  match aw with
  | None => rows = [] ∧ mx = -1
  | Some w => mx = key w ∧ first_maximum key rows w
  end.

(** Kills and deaths of a roster add up to the same. *)
Definition balanced (m : MatchState) : Prop :=
  total kills (players m) = total deaths (players m).

End Tally.

(** ** Vocabulary: the anti-cheat records *)
Module AuthInv.
Import ServerAuthority.

(** The violation counter of a player, 0 for a player without record. *)
Definition violationCount (a : Authority) (pid : string) : Z :=
  default 0 (count <$> suspiciousPlayers a !! pid).

(** [a'] is [a] with one more violation logged for [pid], and nothing
    else changed. *)
Definition one_violation_more (a a' : Authority) (pid : string) : Prop :=
  violationCount a' pid = violationCount a pid + 1 ∧
  (∀ q, q ≠ pid → suspiciousPlayers a' !! q = suspiciousPlayers a !! q) ∧
  playerActions a' = playerActions a ∧
  gameItems a' = gameItems a.

(** Every counter is the length of its list of violations. *)
Definition log_ok (a : Authority) : Prop :=
  map_Forall (fun _ log => count log = Z.of_nat (length (violations log)))
             (suspiciousPlayers a).

(** Nothing in the records is older than [cutoff], and no record is
    empty. *)
Definition records_newer (cutoff : Z) (a : Authority) : Prop :=
  map_Forall (fun _ actions =>
                actions ≠ [] ∧ Forall (fun x => cutoff < act_timestamp x) actions)
             (playerActions a) ∧
  map_Forall (fun _ log =>
                violations log ≠ [] ∧
                Forall (fun v => cutoff < vio_timestamp v) (violations log))
             (suspiciousPlayers a).

End AuthInv.

(** ** GameServer: the remaining handlers, and runs of the server *)
Module ServerRun.
Import GameServer.

Definition set_authority (a : ServerAuthority.Authority) (s : Server) : Server :=
  {| serverAuthority := a; matchManager := matchManager s; matches := matches s;
     players := players s; playersByMatch := playersByMatch s |}.

Definition set_matchManager (mm : gmap string MatchManager.MatchState) (s : Server)
  : Server :=
  {| serverAuthority := serverAuthority s; matchManager := mm; matches := matches s;
     players := players s; playersByMatch := playersByMatch s |}.

Definition set_sessions (ps : gmap string ServerAuthority.PlayerConnection) (s : Server)
  : Server :=
  {| serverAuthority := serverAuthority s; matchManager := matchManager s;
     matches := matches s; players := ps; playersByMatch := playersByMatch s |}.

Definition set_lastPing (now : Z) (c : ServerAuthority.PlayerConnection)
  : ServerAuthority.PlayerConnection :=
  {| ServerAuthority.playerId := ServerAuthority.playerId c;
     ServerAuthority.username := ServerAuthority.username c;
     ServerAuthority.conn_matchId := ServerAuthority.conn_matchId c;
     ServerAuthority.lastPing := now;
     ServerAuthority.status := ServerAuthority.status c;
     ServerAuthority.isAlive := ServerAuthority.isAlive c;
     ServerAuthority.gameState := ServerAuthority.gameState c |}.

(** The PING case of [handlePlayerMessage], and the pong handler of the
    session's transport: the session's [lastPing] is set to the clock. *)
Definition handlePing (s : Server) (playerId : string) (now : Z) : Server :=
  match players s !! playerId with
  | None => s
  | Some c => set_sessions (<[playerId := set_lastPing now c]> (players s)) s
  end.

(** [handleStatusUpdate] for a message [{status}]. *)
Definition handleStatusUpdate (s : Server) (playerId requestedStatus : string) (now : Z)
  : Server :=
  if bool_decide (requestedStatus ∈ ["ready"; "not_ready"; "in_game"; "spectating"])
  then set_sessions (updatePlayerStatus (players s) playerId requestedStatus now) s
  else s.

Definition set_ready (c : ServerAuthority.PlayerConnection)
  : ServerAuthority.PlayerConnection :=
  let g := ServerAuthority.gameState c in
  ServerAuthority.set_gameState
    {| ServerAuthority.position := ServerAuthority.position g;
       ServerAuthority.health := ServerAuthority.health g;
       ServerAuthority.gs_maxHealth := ServerAuthority.gs_maxHealth g;
       ServerAuthority.inCombat := ServerAuthority.inCombat g;
       ServerAuthority.ready := true;
       ServerAuthority.alive := ServerAuthority.alive g;
       ServerAuthority.stats := ServerAuthority.stats g;
       ServerAuthority.lastAttackTime := ServerAuthority.lastAttackTime g;
       ServerAuthority.gs_lastMoveTime := ServerAuthority.gs_lastMoveTime g;
       ServerAuthority.gs_lastValidPosition := ServerAuthority.gs_lastValidPosition g;
       ServerAuthority.kills := ServerAuthority.kills g;
       ServerAuthority.lastCombatTime := ServerAuthority.lastCombatTime g;
       ServerAuthority.deathTime := ServerAuthority.deathTime g;
       ServerAuthority.killedBy := ServerAuthority.killedBy g;
       ServerAuthority.mana := ServerAuthority.mana g;
       ServerAuthority.maxMana := ServerAuthority.maxMana g |} c.

(** [handlePlayerReady]: nothing without an entry of the legacy match
    table for [matchId]. *)
Definition handlePlayerReady (s : Server) (playerId matchId : string) (now : Z) : Server :=
  match matches s !! matchId with
  | None => s
  | Some _ =>
      match players s !! playerId with
      | Some c =>
          set_sessions
            (updatePlayerStatus (<[playerId := set_ready c]> (players s)) playerId
                                "ready" now) s
      | None => s
      end
  end.

(** [initializeMatch]: the only writer of the legacy match table; nothing
    calls it. *)
Definition initializeMatch (s : Server) (matchId : string) (now : Z) : Server :=
  {| serverAuthority := serverAuthority s; matchManager := matchManager s;
     matches := <[matchId := {| legacy_status := "WAITING"; roundNumber := 0;
                                createdAt := now |}]> (matches s);
     players := players s; playersByMatch := playersByMatch s |}.

(** [processAutoAttackTick] without its broadcasts: the round counter of
    every active legacy match goes up. *)
Definition processAutoAttackTick (s : Server) : Server :=
  {| serverAuthority := serverAuthority s; matchManager := matchManager s;
     matches :=
       (fun m => if bool_decide (legacy_status m = "ACTIVE")
                 then {| legacy_status := legacy_status m;
                         roundNumber := roundNumber m + 1;
                         createdAt := createdAt m |}
                 else m) <$> matches s;
     players := players s; playersByMatch := playersByMatch s |}.

(** The body of the interval of [startCleanupSystem]; [now1] and [now2]
    are the clock readings of the two calls. *)
Definition cleanupTick (s : Server) (now1 now2 : Z) : Server :=
  cleanupInactivePlayers
    (set_authority (ServerAuthority.cleanup (serverAuthority s) now1) s) now2.

(** The timers of the match manager: [startMatch] schedules
    [endMatch matchId 'TIME_LIMIT'], [endMatch] schedules the removal. *)
Definition matchTimeLimit (s : Server) (matchId : string) (now : Z) : Server :=
  set_matchManager (MatchManager.endMatch (matchManager s) matchId "TIME_LIMIT" now).2 s.

Definition matchRemoved (s : Server) (matchId : string) : Server :=
  set_matchManager (MatchManager.reapMatch (matchManager s) matchId) s.

(** [stop]: the three tables of the server are cleared. *)
Definition stop (s : Server) : Server :=
  {| serverAuthority := serverAuthority s; matchManager := matchManager s;
     matches := ∅; players := ∅; playersByMatch := ∅ |}.

(** The server together with the inventories its [ServerAuthority] keeps. *)
Record World := {
  server : Server;
  inventories : Inventory.Inventories
}.

Definition onServer (f : Server → Server) (w : World) : World :=
  {| server := f (server w); inventories := inventories w |}.

Section Items.

Variable dropItem :
  Inventory.Inventories → ServerAuthority.Authority → ServerAuthority.Players →
  string → ServerAuthority.Item → Js.Timestamp →
  Inventory.ItemOutcome * Inventory.Inventories * ServerAuthority.Players *
  ServerAuthority.Authority.

(** [handleItemAction] for a message [{itemId, actionType, timestamp}];
    the reply is the item result, or [None] for ITEM_ACTION_REJECTED (or
    no reply). *)
Definition handleItemAction (w : World) (playerId itemId : string)
    (actionType : ServerAuthority.ItemActionKind) (msgTimestamp : option Js.Timestamp)
    (now : Z)
  : option Inventory.ItemOutcome * World :=
  let s := server w in
  match players s !! playerId with
  | None => (None, w)
  | Some playerConnection =>
      if negb (ServerAuthority.alive (ServerAuthority.gameState playerConnection))
      then (None, w)
      else
        let timestamp := Js.or_undef_time msgTimestamp (Js.Num now) in
        let '(itemResult, invs', ps', a') :=
          Inventory.validateItemRequest dropItem (inventories w) (serverAuthority s)
            (players s) playerId itemId actionType timestamp now in
        (itemResult,
         {| server :=
              {| serverAuthority := a'; matchManager := matchManager s;
                 matches := matches s; players := ps';
                 playersByMatch := playersByMatch s |};
            inventories := invs' |})
  end.

(** No item of the world takes health away. *)
Definition items_ok (g : gmap string ServerAuthority.Item) : Prop :=
  map_Forall (fun _ it =>
                match ServerAuthority.effects it with
                | Some e => match ServerAuthority.eff_health e with
                            | Some h => 0 ≤ h
                            | None => True
                            end
                | None => True
                end) g.

(** The worlds that the handlers produce from a server without sessions:
    connection and release of sessions, heartbeats, status and ready
    messages, move and attack requests, item actions other than drops,
    the cleanup tick, the autoattack tick, the match timers and a stop of
    the server. *)
Inductive reachable : World → Prop :=
| reach_start g :
    items_ok g →
    reachable
      {| server :=
           {| serverAuthority :=
                {| ServerAuthority.playerActions := ∅;
                   ServerAuthority.suspiciousPlayers := ∅;
                   ServerAuthority.gameItems := g |};
              matchManager := ∅; matches := ∅; players := ∅; playersByMatch := ∅ |};
         inventories := ∅ |}
| reach_connect w matchId playerId username uuid rnd now :
    reachable w →
    reachable (onServer (fun s => handleNewConnection s matchId playerId username
                                                     uuid rnd now) w)
| reach_disconnect w playerId :
    reachable w → reachable (onServer (fun s => handlePlayerDisconnection s playerId) w)
| reach_ping w playerId now :
    reachable w → reachable (onServer (fun s => handlePing s playerId now) w)
| reach_status w playerId st now :
    reachable w → reachable (onServer (fun s => handleStatusUpdate s playerId st now) w)
| reach_ready w playerId c now :
    reachable w → players (server w) !! playerId = Some c →
    reachable (onServer (fun s => handlePlayerReady s playerId
                                    (ServerAuthority.conn_matchId c) now) w)
| reach_move w playerId pos ts now :
    reachable w →
    reachable (onServer (fun s => (handleMoveRequest s playerId pos ts now).2) w)
| reach_attack w playerId targetId ts rnd5 now :
    reachable w →
    reachable (onServer (fun s => (handleAttackRequest s playerId targetId ts rnd5 now).2) w)
| reach_item w playerId itemId kind ts now :
    reachable w → kind ≠ ServerAuthority.act_drop →
    reachable (handleItemAction w playerId itemId kind ts now).2
| reach_cleanup w now1 now2 :
    reachable w → reachable (onServer (fun s => cleanupTick s now1 now2) w)
| reach_autoattack w :
    reachable w → reachable (onServer processAutoAttackTick w)
| reach_timeLimit w matchId now :
    reachable w → reachable (onServer (fun s => matchTimeLimit s matchId now) w)
| reach_removed w matchId :
    reachable w → reachable (onServer (fun s => matchRemoved s matchId) w)
| reach_stop w :
    reachable w → reachable (onServer stop w).

End Items.

(** Vocabulary: every session is listed in the index set of its match,
    and no index set is empty. *)
Definition sessions_indexed (s : Server) : Prop :=
  ∀ pid c, players s !! pid = Some c →
    ∃ ids, playersByMatch s !! ServerAuthority.conn_matchId c = Some ids ∧ pid ∈ ids.

Definition index_nonempty (s : Server) : Prop :=
  map_Forall (fun _ ids => ids ≠ (∅ : gset string)) (playersByMatch s).

(** A session is alive exactly while its health is positive, and its
    health lies within [0, 100]. *)
Definition session_sound (c : ServerAuthority.PlayerConnection) : Prop :=
  0 ≤ ServerAuthority.health (ServerAuthority.gameState c) ≤ ServerAuthority.maxHealth ∧
  (ServerAuthority.alive (ServerAuthority.gameState c) = true ↔
   0 < ServerAuthority.health (ServerAuthority.gameState c)).

Definition sessions_sound (s : Server) : Prop :=
  map_Forall (fun _ => session_sound) (players s).

(** Two session maps with the same players in the same matches. *)
Definition same_sessions (ps ps' : gmap string ServerAuthority.PlayerConnection) : Prop :=
  ∀ pid, ServerAuthority.conn_matchId <$> ps' !! pid
         = ServerAuthority.conn_matchId <$> ps !! pid.

(** A step that changes neither the registry of sessions nor the match
    tables. *)
Definition same_registry (s s' : Server) : Prop :=
  same_sessions (players s) (players s') ∧
  playersByMatch s' = playersByMatch s ∧
  matches s' = matches s ∧
  matchManager s' = matchManager s.

(** Every match of the match manager lists exactly one player. *)
Definition single_player_matches (s : Server) : Prop :=
  map_Forall (fun _ m => length (MatchManager.players m) = 1%nat) (matchManager s).

(** The sessions are sound and no item of the world takes health away. *)
Definition health_ok (s : Server) : Prop :=
  sessions_sound s ∧
  map_Forall (fun _ it =>
                match ServerAuthority.effects it with
                | Some e => match ServerAuthority.eff_health e with
                            | Some h => 0 ≤ h
                            | None => True
                            end
                | None => True
                end) (ServerAuthority.gameItems (serverAuthority s)).

(** [dropItem] as it answers without inventory or player. *)
Definition dropRefused
  : Inventory.Inventories → ServerAuthority.Authority → ServerAuthority.Players →
    string → ServerAuthority.Item → Js.Timestamp →
    Inventory.ItemOutcome * Inventory.Inventories * ServerAuthority.Players *
    ServerAuthority.Authority :=
  fun invs a ps _ _ _ => (Inventory.Failed "Player or inventory not found", invs, ps, a).

(** Two sessions in the lobby and no inventory yet. *)
Definition duelWorld : World := {| server := Runs.duel; inventories := ∅ |}.

(** A session joins a server whose world holds one health potion, and
    asks to pick it up. *)
Definition potionWorld : World :=
  onServer (fun s => handleNewConnection s "lobby" "a" "Ann" "m-1" 7 1000)
    {| server :=
         {| serverAuthority :=
              {| ServerAuthority.playerActions := ∅;
                 ServerAuthority.suspiciousPlayers := ∅;
                 ServerAuthority.gameItems := {[ "health_potion_1" := Runs.healthPotion ]} |};
            matchManager := ∅; matches := ∅; players := ∅; playersByMatch := ∅ |};
       inventories := ∅ |}.

Definition afterPickup : World :=
  (handleItemAction dropRefused potionWorld "a" "health_potion_1"
                    ServerAuthority.act_pickup (Some (Js.Num 2000)) 2000).2.

(** The registry invariant of a run. *)
Definition registry_ok (s : Server) : Prop :=
  sessions_indexed s ∧ index_nonempty s ∧ matches s = ∅ ∧ single_player_matches s.

End ServerRun.

(** * Terrain and room generation *)
Section TerrainFacts.
Import MatchManager Inv.

#[local] Arguments isTerrainAccessible : simpl never.
#[local] Arguments getTerrainAccessInfo : simpl never.
#[local] Arguments terrainAt : simpl never.
#[local] Arguments generateRoomTerrain : simpl never.
#[local] Arguments generateRoomEntities : simpl never.
#[local] Arguments hashCoords : simpl never.

Lemma terrainAt_cache_irrelevant sm c k :
  terrainAt (set_terrainCache c sm) k = terrainAt sm k.
Proof. reflexivity. Qed.

Lemma cache_coherent_insert sm k :
  cache_coherent sm →
  cache_coherent (set_terrainCache (<[k := terrainAt sm k]> (terrainCache sm)) sm).
Proof.
  intros Hc k' t'. cbn. rewrite lookup_insert.
  case_decide as Hk.
  - intros [= <-]. by subst k'.
  - intros Hl. by apply Hc in Hl.
Qed.

Lemma cache_coherent_subseteq sm c :
  cache_coherent sm → c ⊆ terrainCache sm →
  cache_coherent (set_terrainCache c sm).
Proof.
  intros Hc Hsub k t Hl. cbn in Hl.
  apply (Hc k t). by eapply lookup_weaken.
Qed.

(** What one call of [getTerrainType] does on a coherent cache. *)
Lemma getTerrainType_spec ms mid m x y :
  ms !! mid = Some m → cache_coherent (map m) →
  ∃ c, getTerrainType ms mid x y =
         (terrainAt (map m) (x, y),
          <[mid := set_map (set_terrainCache c (map m)) m]> ms) ∧
       terrainCache (map m) ⊆ c ∧
       c !! (x, y) = Some (terrainAt (map m) (x, y)) ∧
       cache_coherent (set_terrainCache c (map m)).
Proof.
  intros Hm Hc. unfold getTerrainType. rewrite Hm.
  destruct (terrainCache (map m) !! (x, y)) as [t|] eqn:Hcache.
  - exists (terrainCache (map m)). pose proof (Hc _ _ Hcache) as ->.
    split_and!; [|done|done|by destruct m as [? ? ? ? []]].
    f_equal. rewrite insert_id; [done|]. rewrite Hm. f_equal.
    by destruct m as [? ? ? ? []].
  - exists (<[(x, y) := terrainAt (map m) (x, y)]> (terrainCache (map m))).
    split_and!.
    + unfold terrainAt. by destruct (landmarks (map m) !! (x, y)).
    + by apply insert_subseteq.
    + by rewrite lookup_insert_eq.
    + by apply cache_coherent_insert.
Qed.

Lemma generateServerMap_coherent seed0 : cache_coherent (generateServerMap seed0).
Proof. apply map_Forall_empty. Qed.

Lemma withTerrainCache_insert c mid m (ms : Matches) :
  withTerrainCache c mid (<[mid := m]> ms)
  = <[mid := set_map (set_terrainCache c (map m)) m]> ms.
Proof. unfold withTerrainCache. by rewrite alter_insert_eq. Qed.

(** C1. [getTerrainType] is a function of the match's seed and landmark
    table and of the coordinate only: on a match whose cache was filled by
    the function itself, the result is the terrain derived from the
    landmark table or the hash; the call leaves seed and landmarks alone
    and keeps the cache coherent, so every later call sees the same; and
    calling again after any part of the cache (or all of it) was evicted
    returns the same terrain. *)
Theorem getTerrainType_deterministic (ms : Matches) mid m x y :
  ms !! mid = Some m → cache_coherent (map m) →
  ∃ m',
    (getTerrainType ms mid x y).2 !! mid = Some m' ∧
    (getTerrainType ms mid x y).1 = terrainAt (map m) (x, y) ∧
    seed (map m') = seed (map m) ∧
    landmarks (map m') = landmarks (map m) ∧
    cache_coherent (map m') ∧
    terrainCache (map m') !! (x, y) = Some (getTerrainType ms mid x y).1 ∧
    ∀ c', c' ⊆ terrainCache (map m') →
      (getTerrainType (withTerrainCache c' mid (getTerrainType ms mid x y).2) mid x y).1
      = (getTerrainType ms mid x y).1.
Proof.
  intros Hm Hc.
  destruct (getTerrainType_spec ms mid m x y Hm Hc) as (c & -> & Hsub & Hxy & Hc').
  exists (set_map (set_terrainCache c (map m)) m). cbn.
  split_and!; try done.
  - by rewrite lookup_insert_eq.
  - intros c' Hc'sub.
    rewrite withTerrainCache_insert. cbn.
    set (m2 := set_map (set_terrainCache c' (set_terrainCache c (map m)))
                       (set_map (set_terrainCache c (map m)) m)).
    destruct (getTerrainType_spec (<[mid := m2]> ms) mid m2 x y) as (c2 & -> & _).
    + by rewrite lookup_insert_eq.
    + subst m2. cbn. apply (cache_coherent_subseteq (set_terrainCache c (map m))); done.
    + done.
Qed.

(** The hypotheses of [getTerrainType_deterministic] at a freshly created
    match. *)
Lemma getTerrainType_deterministic_witness :
  ∃ m',
    (getTerrainType ((createMatch ∅ [("p1", "Ann")] "m1" 7 1000).2) "m1" 3 4).2 !! "m1"
      = Some m' ∧
    (getTerrainType ((createMatch ∅ [("p1", "Ann")] "m1" 7 1000).2) "m1" 3 4).1
      = terrainAt (map (createMatch ∅ [("p1", "Ann")] "m1" 7 1000).1) (3, 4).
Proof.
  destruct (getTerrainType_deterministic
              ((createMatch ∅ [("p1", "Ann")] "m1" 7 1000).2) "m1"
              ((createMatch ∅ [("p1", "Ann")] "m1" 7 1000).1) 3 4)
    as (m' & H1 & H2 & _).
  - reflexivity.
  - apply map_Forall_empty.
  - exists m'. split; [exact H1 | exact H2].
Defined.

Example terrain_landmark_origin :
  (getTerrainType ((createMatch ∅ [("p1", "Ann")] "m1" 7 1000).2) "m1" 0 0).1 = T_town.
Proof. reflexivity. Qed.

Example terrain_hash_3_4 :
  hashCoords 3 4 12352 = 13451431 ∧ generateTerrainType 3 4 12352 = T_hills.
Proof. split; reflexivity. Qed.

Example terrain_road_band : generateTerrainType (-5) 0 12352 = T_road.
Proof. reflexivity. Qed.

Lemma inaccessible_iff t :
  isTerrainAccessible t = false ↔
  t = T_deep_water ∨ t = T_dense_forest ∨ t = T_mountain ∨ t = T_cliff.
Proof.
  split.
  - destruct t; cbn; intros H; try discriminate H; auto.
  - intros [-> | [-> | [-> | ->]]]; reflexivity.
Qed.

Lemma accessInfo_accessible t :
  accessible (getTerrainAccessInfo t) = isTerrainAccessible t.
Proof. by destruct t. Qed.

Lemma terrainCell_border rt seed0 (x y : Z) :
  x = 0 ∨ x = 19 ∨ y = 0 ∨ y = 19 → terrainCell rt seed0 x y = wall.
Proof.
  intros Hb. unfold terrainCell, roomSize.
  replace ((x =? 0) || (x =? 20 - 1) || (y =? 0) || (y =? 20 - 1)) with true; [done|].
  symmetry. rewrite !orb_true_iff, !Z.eqb_eq. lia.
Qed.

Lemma generateRoomTerrain_row rt seed0 (i : nat) row :
  generateRoomTerrain rt seed0 !! i = Some row →
  (i < 20)%nat ∧ row = (fun x => terrainCell rt seed0 x (Z.of_nat i)) <$> seqZ 0 20.
Proof.
  unfold generateRoomTerrain, roomSize. rewrite list_lookup_fmap.
  destruct (seqZ 0 20 !! i) as [yi|] eqn:Hy; [|done].
  apply lookup_seqZ in Hy as [-> Hlt]. cbn. intros [= <-].
  split; [lia|]. by rewrite Z.add_0_l.
Qed.

(** The generated grid is 20 x 20 and walled, whatever the room type and
    the seed. *)
Lemma generateRoomTerrain_grid_ok rt seed0 : grid_ok (generateRoomTerrain rt seed0).
Proof.
  split_and!.
  - unfold generateRoomTerrain, roomSize. by rewrite length_fmap, length_seqZ.
  - apply Forall_lookup. intros i row Hi.
    apply generateRoomTerrain_row in Hi as [_ ->].
    by rewrite length_fmap, length_seqZ.
  - intros i j row Hi Hj Hb.
    apply generateRoomTerrain_row in Hi as [Hi ->].
    rewrite list_lookup_fmap, lookup_seqZ_lt by lia. cbn.
    f_equal. apply terrainCell_border. lia.
Qed.

Lemma rooms_ok_set_map sm (m : MatchState) :
  seed sm = seed (map m) → landmarks sm = landmarks (map m) →
  rooms_ok m → rooms_ok (set_map sm m).
Proof.
  intros Hs Hl Hr k r Hk. cbn in Hk. specialize (Hr k r Hk). cbn in Hr.
  unfold terrainAt in *. cbn. by rewrite Hs, Hl.
Qed.

(** What one call of [generateRoomData] does on a well-formed match. *)
Lemma generateRoomData_spec (ms : Matches) mid m x y :
  ms !! mid = Some m → match_ok m →
  ∃ m',
    (generateRoomData ms mid x y).2 = <[mid := m']> ms ∧
    match_ok m' ∧
    seed (map m') = seed (map m) ∧ landmarks (map m') = landmarks (map m) ∧
    players m' = players m ∧
    (if isTerrainAccessible (terrainAt (map m) (x, y))
     then ∃ r, (generateRoomData ms mid x y).1 = Some r ∧
               rooms m' = <[(x, y) := r]> (rooms m) ∧
               room_size r = (20, 20) ∧ grid_ok (terrain r)
     else (generateRoomData ms mid x y).1 = None ∧ rooms m' = rooms m).
Proof.
  intros Hm [Hc Hr]. unfold generateRoomData. rewrite Hm.
  destruct (rooms m !! (x, y)) as [r|] eqn:Hroom.
  - exists m. pose proof (Hr _ _ Hroom) as (Hacc & Hsz & Hg). cbv beta in Hacc.
    rewrite Hacc. cbn [fst snd].
    split; [by rewrite insert_id|]. split; [done|]. split_and!; try done.
    exists r. split_and!; try done. by rewrite insert_id.
  - destruct (getTerrainType_spec ms mid m x y Hm Hc) as (c & -> & Hsub & Hxy & Hc').
    rewrite accessInfo_accessible.
    set (m1 := set_map (set_terrainCache c (map m)) m).
    destruct (isTerrainAccessible (terrainAt (map m) (x, y))) eqn:Hacc; cbn [negb].
    + rewrite lookup_insert_eq. cbn [fst snd].
      eexists. split; [apply insert_insert_eq|]. cbn.
      split; [split|].
      * exact Hc'.
      * intros k r. cbn. rewrite lookup_insert. case_decide as Hk.
        -- intros [= <-]. subst k.
           split_and!; [done|done|apply generateRoomTerrain_grid_ok].
        -- intros Hk'. apply (Hr k r Hk').
      * split_and!; try done.
        eexists. split_and!; [reflexivity|done|done|apply generateRoomTerrain_grid_ok].
    + exists m1. cbn [fst snd].
      split; [done|]. split; [split; [exact Hc'|by apply rooms_ok_set_map]|done].
Qed.

(** C4. On a well-formed match, [generateRoomData] at a cell of accessible
    terrain returns a room whose terrain grid is 20 x 20 with every border
    cell a wall; at a cell of inaccessible terrain (deep water, dense
    forest, mountain, cliff) it returns null and the room cache of the
    match is unchanged.  The match stays well formed, so no room is ever
    cached for inaccessible terrain. *)
Theorem generateRoomData_accessible_or_null (ms : Matches) mid m x y :
  ms !! mid = Some m → match_ok m →
  let t := (getTerrainType ms mid x y).1 in
  let res := generateRoomData ms mid x y in
  (isTerrainAccessible t = true →
     ∃ r, res.1 = Some r ∧ room_size r = (20, 20) ∧ grid_ok (terrain r)) ∧
  (t = T_deep_water ∨ t = T_dense_forest ∨ t = T_mountain ∨ t = T_cliff →
     res.1 = None ∧ ∃ m', res.2 !! mid = Some m' ∧ rooms m' = rooms m) ∧
  (∃ m', res.2 !! mid = Some m' ∧ match_ok m').
Proof.
  intros Hm Hok t res.
  destruct (getTerrainType_spec ms mid m x y Hm (proj1 Hok)) as (c & Ht & _).
  destruct (generateRoomData_spec ms mid m x y Hm Hok)
    as (m' & Heq & Hok' & _ & _ & _ & Hres).
  assert (Hm' : (generateRoomData ms mid x y).2 !! mid = Some m')
    by (by rewrite Heq, lookup_insert_eq).
  subst t res. rewrite Ht. cbn [fst].
  split_and!.
  - intros Hacc. rewrite Hacc in Hres. destruct Hres as (r & ? & _ & ? & ?). eauto.
  - intros Hin. apply inaccessible_iff in Hin. rewrite Hin in Hres.
    destruct Hres as [? ?]. eauto.
  - eauto.
Qed.

Lemma createMatch_ok (ms : Matches) ps uuid rnd now :
  match_ok (createMatch ms ps uuid rnd now).1.
Proof. split; apply map_Forall_empty. Qed.

Lemma match_ok_same_world (m m' : MatchState) :
  map m' = map m → rooms m' = rooms m → match_ok m → match_ok m'.
Proof.
  intros Hmap Hrooms [Hc Hr]. split.
  - by rewrite Hmap.
  - unfold rooms_ok. by rewrite Hrooms, Hmap.
Qed.

Lemma all_ok_insert (ms : Matches) mid m :
  all_ok ms → match_ok m → all_ok (<[mid := m]> ms).
Proof. intros Hall Hm. by apply map_Forall_insert_2. Qed.

Lemma getTerrainType_all_ok (ms : Matches) mid x y :
  all_ok ms → all_ok (getTerrainType ms mid x y).2.
Proof.
  intros Hall. destruct (ms !! mid) as [m|] eqn:Hm.
  - pose proof (Hall _ _ Hm) as [Hc Hr].
    destruct (getTerrainType_spec ms mid m x y Hm Hc) as (c & -> & _ & _ & Hc').
    apply all_ok_insert; [done|]. split; [done|]. by apply rooms_ok_set_map.
  - unfold getTerrainType. by rewrite Hm.
Qed.

Lemma generateRoomData_all_ok (ms : Matches) mid x y :
  all_ok ms → all_ok (generateRoomData ms mid x y).2.
Proof.
  intros Hall. destruct (ms !! mid) as [m|] eqn:Hm.
  - destruct (generateRoomData_spec ms mid m x y Hm (Hall _ _ Hm)) as (m' & -> & Hok & _).
    by apply all_ok_insert.
  - unfold generateRoomData. by rewrite Hm.
Qed.

Lemma updatePlayerPosition_all_ok (ms : Matches) mid pid pos now :
  all_ok ms → all_ok (updatePlayerPosition ms mid pid pos now).2.
Proof.
  intros Hall. unfold updatePlayerPosition.
  destruct (ms !! mid) as [m|] eqn:Hm; [|done].
  destruct (Js.omap_get pid (players m)) as [player|]; [|done].
  pose proof (Hall _ _ Hm) as Hok.
  case_decide.
  - apply all_ok_insert; [done|]. by apply (match_ok_same_world m).
  - match goal with
    | |- context [generateRoomData ?ms1 mid ?a ?b] =>
        pose proof (generateRoomData_all_ok ms1 mid a b) as Hgen;
        destruct (generateRoomData ms1 mid a b) as [roomData ms2]
    end.
    cbn [snd] in Hgen.
    assert (Hall2 : all_ok ms2).
    { apply Hgen, all_ok_insert; [done|]. by apply (match_ok_same_world m). }
    destruct roomData as [r|]; [|done].
    destruct (ms2 !! mid) as [m2|] eqn:Hm2; [|done].
    cbn [snd]. apply all_ok_insert; [done|].
    destruct (Hall2 _ _ Hm2) as [Hc2 Hr2]. split; [done|].
    intros k room. cbn. rewrite lookup_alter.
    case_decide as Hk.
    + subst k.
      destruct (rooms m2 !! (pos_x (world pos), pos_y (world pos))) as [r0|] eqn:Hr0;
        cbn; [|done].
      intros [= <-]. apply (Hr2 _ r0 Hr0).
    + intros Hk'. apply (Hr2 k room Hk').
Qed.

(** Every match of a reachable table is well formed: its terrain cache
    holds derived values only, and it caches rooms for accessible terrain
    only, each with a walled 20 x 20 grid. *)
Lemma reachable_all_ok ms : reachable ms → all_ok ms.
Proof.
  induction 1 as [|ms ps uuid rnd now _ IH|ms mid now _ IH|ms mid x y _ IH
                 |ms mid x y _ IH|ms mid pid pos now _ IH|ms mid a t d _ IH
                 |ms mid k v now _ IH|ms mid p q _ IH|ms mid reason now _ IH
                 |ms mid _ IH].
  - apply map_Forall_empty.
  - apply all_ok_insert; [done|apply (createMatch_ok ms)].
  - unfold startMatch. destruct (ms !! mid) as [m|] eqn:Hm; [|done].
    apply all_ok_insert; [done|]. by apply (match_ok_same_world m), (IH _ _ Hm).
  - by apply getTerrainType_all_ok.
  - by apply generateRoomData_all_ok.
  - by apply updatePlayerPosition_all_ok.
  - unfold recordPlayerDamage. destruct (ms !! mid) as [m|] eqn:Hm; [|done].
    repeat case_match; try done.
    apply all_ok_insert; [done|]. by apply (match_ok_same_world m), (IH _ _ Hm).
  - unfold recordPlayerKill. destruct (ms !! mid) as [m|] eqn:Hm; [|done].
    repeat case_match; try done;
      (apply all_ok_insert; [done|]; by apply (match_ok_same_world m), (IH _ _ Hm)).
  - unfold recordItemCollection. destruct (ms !! mid) as [m|] eqn:Hm; [|done].
    repeat case_match; try done.
    apply all_ok_insert; [done|]. by apply (match_ok_same_world m), (IH _ _ Hm).
  - unfold endMatch. destruct (ms !! mid) as [m|] eqn:Hm; [|done].
    apply all_ok_insert; [done|]. by apply (match_ok_same_world m), (IH _ _ Hm).
  - unfold reapMatch. intros k m Hk. apply lookup_delete_Some in Hk as [_ Hk].
    apply (IH _ _ Hk).
Qed.

(** The hypotheses of [generateRoomData_accessible_or_null] at a freshly
    created match, at the landmark cell (0, 0). *)
Lemma generateRoomData_accessible_or_null_witness :
  ∃ r, (generateRoomData ((createMatch ∅ [("p1", "Ann")] "m1" 7 1000).2) "m1" 0 0).1
       = Some r ∧ grid_ok (terrain r).
Proof.
  destruct (generateRoomData_accessible_or_null
              ((createMatch ∅ [("p1", "Ann")] "m1" 7 1000).2) "m1"
              ((createMatch ∅ [("p1", "Ann")] "m1" 7 1000).1) 0 0)
    as (Hacc & _ & _).
  - reflexivity.
  - apply createMatch_ok.
  - destruct Hacc as (r & Hr & _ & Hg); [reflexivity|].
    exists r. split; [exact Hr | exact Hg].
Defined.

(** On reachable states the terrain of a cell is the derived one, with
    no further assumption. *)
Lemma getTerrainType_reachable (ms : Matches) mid m x y :
  reachable ms → ms !! mid = Some m →
  (getTerrainType ms mid x y).1 = terrainAt (map m) (x, y).
Proof.
  intros Hreach Hm.
  destruct (getTerrainType_spec ms mid m x y Hm) as (c & -> & _); [|done].
  apply (reachable_all_ok ms Hreach mid m Hm).
Qed.

Example room_inaccessible_is_null :
  generateTerrainType 14 11 12352 = T_mountain ∧
  (generateRoomData ((createMatch ∅ [("p1", "Ann")] "m1" 7 1000).2) "m1" 14 11).1 = None.
Proof. split; reflexivity. Qed.

End TerrainFacts.

(** * Movement validation *)
Section MovementFacts.
Import ServerAuthority Runs.

Lemma or_num_zero v : Js.or_num v 0 = v.
Proof. unfold Js.or_num. destruct (Z.eqb_spec v 0); congruence. Qed.

(** [t || 0] reads as the same number as [t]. *)
Lemma or_time_zero t : Js.toNumber (Js.or_time t (Js.Num 0)) = Js.toNumber t.
Proof.
  destruct t as [n| | |]; try reflexivity.
  unfold Js.or_time. cbn. destruct (Z.eqb_spec n 0); cbn; congruence.
Qed.

(** The elapsed time of a request without a usable [lastMoveTime] is
    [timestamp - timestamp]: 0 for a finite timestamp, NaN otherwise. *)
Lemma sub_self t :
  Js.sub (Js.toNumber t) (Js.toNumber t) = match t with Js.Num _ => Js.Fin 0 | _ => Js.NaN end.
Proof. destruct t; cbn; [f_equal; lia|done..]. Qed.

Lemma flag_actions a pid vt now :
  playerActions (flagSuspiciousActivity a pid vt now).2 = playerActions a.
Proof.
  unfold flagSuspiciousActivity. cbn.
  repeat (case_match; cbn); reflexivity.
Qed.

Lemma flag_count a pid vt now :
  count <$> suspiciousPlayers (flagSuspiciousActivity a pid vt now).2 !! pid
  = Some (default 0 (count <$> suspiciousPlayers a !! pid) + 1).
Proof.
  unfold flagSuspiciousActivity. cbn.
  repeat (case_match; cbn); rewrite lookup_insert_eq; cbn;
    by destruct (suspiciousPlayers a !! pid).
Qed.

Lemma distance_same_point p bound :
  0 ≤ bound.1 → distance_gt (calculateDistanceSq p p) bound = false.
Proof.
  intros Hb. unfold calculateDistanceSq, distance_gt.
  destruct (coord_x p), (coord_y p); try reflexivity.
  rewrite !Z.sub_diag. cbn. apply orb_false_iff. split.
  - apply Z.ltb_ge, Hb.
  - apply Z.ltb_ge. nia.
Qed.

(** No travel distance is beyond the bound of an elapsed time that is
    infinite or NaN. *)
Lemma distance_unbounded dsq timeDelta :
  timeDelta = Js.PosInf ∨ timeDelta = Js.NaN →
  distance_gt_num dsq (calculateMaxMovementDistance timeDelta) = false.
Proof. by intros [-> | ->]. Qed.

Lemma distance_same_point_num p timeDelta :
  Js.lt timeDelta (Js.Fin 0) = false →
  distance_gt_num (calculateDistanceSq p p) (calculateMaxMovementDistance timeDelta) = false.
Proof.
  destruct timeDelta as [n| | |]; cbn; try done.
  intros Hn%Z.ltb_ge. unfold distance_gt_num. cbn [fst snd].
  apply distance_same_point.
  unfold maxMovementSpeed, maxMovementSpeedMultiplier. cbn. lia.
Qed.

Example move_too_fast :
  (validateMovement noAuthority "p1" (pt 0 0) (pt 300 400) (Js.Num 6000)
     {| lastMoveTime := Some (Js.Num 5000); lastValidPosition := Some (pt 1 1) |} 6000).1
  = Some (pt 1 1).
Proof. reflexivity. Qed.

Example move_within_speed :
  (validateMovement noAuthority "p1" (pt 0 0) (pt 6 8) (Js.Num 6000)
     {| lastMoveTime := Some (Js.Num 5000); lastValidPosition := Some (pt 1 1) |} 6000).1
  = Some (pt 6 8).
Proof. reflexivity. Qed.

(** C2, the claim as stated fails: a request far beyond the speed bound
    whose target lies outside the world bounds is answered with null, not
    with the last valid position; and when the stored last valid position
    happens to be the requested one, the correction returned is the
    requested position. *)
Lemma validateMovement_speed_counterexample :
  (distance_gt_num (calculateDistanceSq (pt 0 0) (pt 2000 0))
                   (calculateMaxMovementDistance (Js.Fin (6000 - 5000))) = true ∧
   (validateMovement noAuthority "p1" (pt 0 0) (pt 2000 0) (Js.Num 6000)
      {| lastMoveTime := Some (Js.Num 5000); lastValidPosition := Some (pt 0 0) |}
      6000).1 = None) ∧
  (distance_gt_num (calculateDistanceSq (pt 0 0) (pt 300 400))
                   (calculateMaxMovementDistance (Js.Fin (6000 - 5000))) = true ∧
   (validateMovement noAuthority "p1" (pt 0 0) (pt 300 400) (Js.Num 6000)
      {| lastMoveTime := Some (Js.Num 5000); lastValidPosition := Some (pt 300 400) |}
      6000).1
   = Some (pt 300 400)) ∧
  ¬ speed_rule_unconditional.
Proof.
  split_and!; try reflexivity.
  intros H.
  destruct (H noAuthority "p1" (pt 0 0) (pt 2000 0) (Js.Num 6000)
              {| lastMoveTime := Some (Js.Num 5000); lastValidPosition := Some (pt 0 0) |}
              6000)
    as [Hnull _]; [reflexivity|].
  discriminate Hnull.
Qed.

(** C2, amended.  For a request whose target is inside the world bounds
    and whose distance from the from-position exceeds
    [maxMovementSpeed * elapsedSeconds * 2.0], with the elapsed time taken
    from [playerData.lastMoveTime], [validateMovement] returns the last
    known valid position, falling back to the from-position; it records a
    violation and no action.  The position returned differs from the
    requested one whenever the stored position does, and always when the
    fallback is used and the elapsed time is not negative.  The request
    timestamp and [lastMoveTime] are any values the request can carry; an
    elapsed time that is [Infinity] or NaN puts no distance beyond the
    bound. *)
Theorem validateMovement_speed_rejected a pid fromPos toPos timestamp pd now :
  isPositionInBounds toPos = true →
  distance_gt_num
    (calculateDistanceSq fromPos toPos)
    (calculateMaxMovementDistance
       (Js.sub (Js.toNumber timestamp)
               (Js.toNumber (Js.or_undef_time (lastMoveTime pd) timestamp)))) = true →
  let res := validateMovement a pid fromPos toPos timestamp pd now in
  res.1 = Some (default fromPos (lastValidPosition pd)) ∧
  playerActions res.2 = playerActions a ∧
  count <$> suspiciousPlayers res.2 !! pid
    = Some (default 0 (count <$> suspiciousPlayers a !! pid) + 1) ∧
  (default fromPos (lastValidPosition pd) ≠ toPos → res.1 ≠ Some toPos) ∧
  (lastValidPosition pd = None →
   Js.lt (Js.sub (Js.toNumber timestamp)
                 (Js.toNumber (Js.or_undef_time (lastMoveTime pd) timestamp)))
         (Js.Fin 0) = false →
   res.1 ≠ Some toPos).
Proof.
  intros Hin Hfar res. subst res. unfold validateMovement.
  rewrite Hin, Hfar. cbn [negb fst snd].
  split_and!.
  - reflexivity.
  - apply flag_actions.
  - apply flag_count.
  - congruence.
  - intros Hnone Hpos [= Heq]. rewrite Hnone in Heq. cbn in Heq. subst toPos.
    rewrite distance_same_point_num in Hfar; [discriminate|exact Hpos].
Qed.

Lemma validateMovement_speed_rejected_witness :
  (validateMovement noAuthority "p1" (pt 0 0) (pt 300 400) (Js.Num 6000)
     {| lastMoveTime := Some (Js.Num 5000); lastValidPosition := None |} 6000).1
  = Some (pt 0 0) ∧
  (validateMovement noAuthority "p1" (pt 0 0) (pt 300 400) (Js.Num 6000)
     {| lastMoveTime := Some (Js.Num 5000); lastValidPosition := None |} 6000).1
  ≠ Some (pt 300 400).
Proof.
  destruct (validateMovement_speed_rejected noAuthority "p1" (pt 0 0) (pt 300 400)
              (Js.Num 6000)
              {| lastMoveTime := Some (Js.Num 5000); lastValidPosition := None |} 6000)
    as (H1 & _ & _ & _ & H5).
  - reflexivity.
  - reflexivity.
  - split; [exact H1|]. apply H5; reflexivity.
Defined.

(** An out-of-bounds target is answered with null and a violation. *)
Lemma validateMovement_out_of_bounds a pid fromPos toPos timestamp pd now :
  isPositionInBounds toPos = false →
  (validateMovement a pid fromPos toPos timestamp pd now).1 = None ∧
  playerActions (validateMovement a pid fromPos toPos timestamp pd now).2 = playerActions a.
Proof.
  intros Hout. unfold validateMovement. rewrite Hout. cbn.
  split; [reflexivity | apply flag_actions].
Qed.

Lemma inBounds_coords p :
  isPositionInBounds p = true →
  ∃ px py, p = pt px py ∧ 0 ≤ px ≤ 1000 ∧ 0 ≤ py ≤ 1000.
Proof.
  unfold isPositionInBounds. destruct p as [[px py]|]; cbn; [|discriminate].
  rewrite !andb_true_iff, !Z.leb_le. intros [[[? ?] ?] ?].
  exists px, py. unfold pt. split; [reflexivity | lia].
Qed.

(** A request stamped [Infinity] passes the speed test whatever the
    player data: the elapsed time is [Infinity], or NaN when there is no
    usable [lastMoveTime] or it is [Infinity] itself. *)
Lemma validateMovement_infinite_timestamp a pid fromPos toPos pd now :
  isPositionInBounds toPos = true →
  validateMovement a pid fromPos toPos Js.Infinity pd now
  = (Some toPos, recordPlayerAction a pid MOVEMENT now).
Proof.
  intros Ht. unfold validateMovement. rewrite Ht. cbn [negb].
  rewrite distance_unbounded; [reflexivity|].
  destruct pd as [[[n| | |]|] lv]; cbn; auto.
  unfold Js.or_time. cbn. destruct (n =? 0); cbn; auto.
Qed.

(** So does a request whose timestamp is no number. *)
Lemma validateMovement_non_numeric_timestamp a pid fromPos toPos pd now :
  isPositionInBounds toPos = true →
  validateMovement a pid fromPos toPos Js.NotNumeric pd now
  = (Some toPos, recordPlayerAction a pid MOVEMENT now).
Proof.
  intros Ht. unfold validateMovement. rewrite Ht. cbn [negb].
  rewrite distance_unbounded; [reflexivity|]. right. reflexivity.
Qed.

(** With a recorded non-zero finite [lastMoveTime], 200 seconds of
    claimed elapsed time cover any distance inside the world bounds. *)
Lemma validateMovement_late_timestamp a pid fromPos toPos pd now t0 later :
  isPositionInBounds fromPos = true →
  isPositionInBounds toPos = true →
  lastMoveTime pd = Some (Js.Num t0) → t0 ≠ 0 →
  t0 + 200000 ≤ later →
  validateMovement a pid fromPos toPos (Js.Num later) pd now
  = (Some toPos, recordPlayerAction a pid MOVEMENT now).
Proof.
  intros Hf Ht Hlast Hnz Hl.
  apply inBounds_coords in Hf as (fx & fy & -> & Hfx & Hfy).
  pose proof Ht as Ht'.
  apply inBounds_coords in Ht' as (tx & ty & -> & Htx & Hty).
  unfold validateMovement. rewrite Ht, Hlast. cbn [negb].
  unfold Js.or_undef_time, Js.or_time, Js.truthy.
  destruct (Z.eqb_spec t0 0) as [|_]; [done|]. cbn [negb Js.toNumber Js.sub].
  assert (distance_gt_num (calculateDistanceSq (pt fx fy) (pt tx ty))
                          (calculateMaxMovementDistance (Js.Fin (later - t0))) = false)
    as ->; [|reflexivity].
  unfold distance_gt_num, distance_gt, calculateDistanceSq, calculateMaxMovementDistance,
    maxMovementSpeed, maxMovementSpeedMultiplier. cbn.
  apply orb_false_iff. split; apply Z.ltb_ge; nia.
Qed.

(** Without a usable [lastMoveTime] the elapsed time of a finite
    timestamp is 0, and then only a request that stays on the spot
    passes. *)
Lemma validateMovement_finite_timestamp_no_history a pid fromPos toPos pd now t :
  isPositionInBounds fromPos = true →
  isPositionInBounds toPos = true →
  Js.or_undef_time (lastMoveTime pd) (Js.Num t) = Js.Num t →
  fromPos ≠ toPos →
  (validateMovement a pid fromPos toPos (Js.Num t) pd now).1
  = Some (default fromPos (lastValidPosition pd)).
Proof.
  intros Hf Ht Hlast Hne.
  apply inBounds_coords in Hf as (fx & fy & -> & Hfx & Hfy).
  pose proof Ht as Ht'.
  apply inBounds_coords in Ht' as (tx & ty & -> & Htx & Hty).
  unfold validateMovement. rewrite Ht, Hlast. cbn [negb Js.toNumber Js.sub].
  rewrite Z.sub_diag.
  assert (distance_gt_num (calculateDistanceSq (pt fx fy) (pt tx ty))
                          (calculateMaxMovementDistance (Js.Fin 0)) = true) as ->;
    [|reflexivity].
  unfold distance_gt_num, distance_gt, calculateDistanceSq, calculateMaxMovementDistance.
  cbn. apply Z.ltb_lt.
  pose proof (Z.square_nonneg (fx - tx)). pose proof (Z.square_nonneg (fy - ty)).
  assert (fx ≠ tx ∨ fy ≠ ty) as [Hd|Hd]
    by (unfold pt in Hne; destruct (decide (fx = tx)); [right; congruence|by left]).
  - assert (0 < (fx - tx) * (fx - tx)) by nia. lia.
  - assert (0 < (fy - ty) * (fy - ty)) by nia. lia.
Qed.

(** C10.  For every pair of in-bounds positions, however far apart, some
    request timestamp makes [validateMovement] accept the move and return
    the requested position, whatever the player data and the server
    clock: the elapsed time is the request's timestamp minus the recorded
    [lastMoveTime], the obstacle check reports no collision, and the
    accepted move is recorded as an action.  A timestamp beyond the double
    range ([1e999], read as [Infinity]) does for every player data; with
    a recorded non-zero finite [lastMoveTime] so does every finite
    timestamp at least 200 seconds later. *)
Theorem validateMovement_large_timestamp a pid fromPos toPos pd now :
  isPositionInBounds fromPos = true →
  isPositionInBounds toPos = true →
  (∃ timestamp,
     validateMovement a pid fromPos toPos timestamp pd now
     = (Some toPos, recordPlayerAction a pid MOVEMENT now)) ∧
  hasObstacleCollision fromPos toPos = false ∧
  (validateMovement a pid fromPos toPos Js.Infinity pd now).1 = Some toPos ∧
  (∀ t0 later,
     lastMoveTime pd = Some (Js.Num t0) → t0 ≠ 0 → t0 + 200000 ≤ later →
     (validateMovement a pid fromPos toPos (Js.Num later) pd now).1 = Some toPos).
Proof.
  intros Hf Ht. split_and!.
  - exists Js.Infinity. by apply validateMovement_infinite_timestamp.
  - reflexivity.
  - by rewrite validateMovement_infinite_timestamp.
  - intros t0 later Hlast Hnz Hl.
    by rewrite (validateMovement_late_timestamp _ _ _ _ _ _ t0).
Qed.

Lemma validateMovement_large_timestamp_witness :
  (validateMovement noAuthority "p1" (pt 0 0) (pt 1000 1000) Js.Infinity
     {| lastMoveTime := Some (Js.Num 5000); lastValidPosition := None |} 0).1
  = Some (pt 1000 1000) ∧
  (validateMovement noAuthority "p1" (pt 0 0) (pt 1000 1000) (Js.Num 205000)
     {| lastMoveTime := Some (Js.Num 5000); lastValidPosition := None |} 0).1
  = Some (pt 1000 1000).
Proof.
  destruct (validateMovement_large_timestamp noAuthority "p1" (pt 0 0) (pt 1000 1000)
              {| lastMoveTime := Some (Js.Num 5000); lastValidPosition := None |} 0)
    as (_ & _ & Hinf & Hlate).
  - reflexivity.
  - reflexivity.
  - split; [exact Hinf|]. apply (Hlate 5000 205000); [reflexivity|lia|lia].
Defined.

(** The same without any recorded [lastMoveTime], where no finite
    timestamp does. *)
Example move_unlocked_without_history :
  (validateMovement noAuthority "p1" (pt 0 0) (pt 1000 1000) Js.Infinity
     {| lastMoveTime := None; lastValidPosition := None |} 0).1 = Some (pt 1000 1000) ∧
  (validateMovement noAuthority "p1" (pt 0 0) (pt 1000 1000) Js.NotNumeric
     {| lastMoveTime := None; lastValidPosition := None |} 0).1 = Some (pt 1000 1000) ∧
  (validateMovement noAuthority "p1" (pt 0 0) (pt 1000 1000) (Js.Num 205000)
     {| lastMoveTime := None; lastValidPosition := None |} 0).1 = Some (pt 0 0).
Proof. split_and!; reflexivity. Qed.

End MovementFacts.

(** * Combat validation *)
Section CombatFacts.
Import ServerAuthority Runs.

Lemma handlePlayerDeath_fields ps dead killer ts p :
  match ps !! p, handlePlayerDeath ps dead killer ts !! p with
  | Some c, Some c' =>
      lastAttackTime (gameState c') = lastAttackTime (gameState c) ∧
      health (gameState c') = health (gameState c)
  | None, None => True
  | _, _ => False
  end.
Proof.
  unfold handlePlayerDeath.
  destruct (decide (p = dead)) as [Hpd|Hpd], (decide (p = killer)) as [Hpk|Hpk],
    (decide (dead = killer)) as [Hdk|Hdk];
    destruct (ps !! dead) as [d|] eqn:Hd; destruct (ps !! killer) as [k|] eqn:Hk;
    simplify_map_eq; try done;
    by destruct (ps !! p).
Qed.

(** What [applyCombatDamage] does to the two fields the cooldown and the
    health bounds depend on, player by player. *)
Lemma applyCombatDamage_fields ps att tgt d ts res ps' :
  applyCombatDamage ps att tgt d ts = Some (res, ps') →
  ∀ p,
    match ps !! p, ps' !! p with
    | Some c, Some c' =>
        lastAttackTime (gameState c')
          = (if decide (p = att) then ts else lastAttackTime (gameState c)) ∧
        health (gameState c')
          = (if decide (p = tgt) then Z.max 0 (health (gameState c) - d)
             else health (gameState c))
    | None, None => True
    | _, _ => False
    end.
Proof.
  intros H p. unfold applyCombatDamage in H.
  destruct (ps !! att) as [a|] eqn:Ha; [|done].
  destruct (ps !! tgt) as [t|] eqn:Ht; [|done].
  destruct (<[att:=_]> ps !! tgt) as [t1|] eqn:Ht1; [|done].
  injection H as <- <-.
  match goal with
  | |- context [if ?b then handlePlayerDeath ?q _ _ _ else _] =>
      pose proof (handlePlayerDeath_fields q tgt att ts p) as Hd; destruct b
  end.
  all: destruct (decide (att = tgt)) as [Hat|Hat], (decide (p = att)) as [Hpa|Hpa],
         (decide (p = tgt)) as [Hpt|Hpt]; simplify_map_eq.
  all: first [done | exact Hd | by destruct (ps !! p)].
Qed.

Lemma applyCombatDamage_result ps att tgt d ts res ps' :
  applyCombatDamage ps att tgt d ts = Some (res, ps') →
  ∃ t, ps !! tgt = Some t ∧
       oldHealth res = health (gameState t) ∧
       newHealth res = Z.max 0 (health (gameState t) - d) ∧
       res_damage res = d ∧
       isDead res = (newHealth res <=? 0).
Proof.
  unfold applyCombatDamage.
  destruct (ps !! att) as [a|] eqn:Ha; [|done].
  destruct (ps !! tgt) as [t|] eqn:Ht; [|done].
  rewrite lookup_insert.
  destruct (decide (att = tgt)) as [->|Hne].
  - intros [= <- <-]. exists t. cbn. rewrite Ha in Ht. injection Ht as ->. done.
  - rewrite Ht. intros [= <- <-]. exists t. done.
Qed.

(** An accepted attack passed the liveness and cooldown checks, and a
    rejected one changes no player. *)
Lemma validateCombatAction_cases a ps att tgt ts rnd5 now :
  match validateCombatAction a ps att tgt ts rnd5 now with
  | (Some res, ps', a') =>
      ∃ c t, ps !! att = Some c ∧ ps !! tgt = Some t ∧
             0 < health (gameState c) ∧
             Js.lt (Js.sub (Js.toNumber ts) (Js.toNumber (lastAttackTime (gameState c))))
                   (Js.Fin attackCooldown) = false ∧
             applyCombatDamage ps att tgt (calculateDamage c t rnd5) ts = Some (res, ps') ∧
             a' = recordPlayerAction a att COMBAT now
  | (None, ps', a') =>
      ps' = ps ∧ playerActions a' = playerActions a
  end.
Proof.
  unfold validateCombatAction.
  destruct (ps !! att) as [c|] eqn:Hc; [|split; [done|apply flag_actions]].
  destruct (ps !! tgt) as [t|] eqn:Ht; [|split; [done|apply flag_actions]].
  destruct (Z.leb_spec (health (gameState c)) 0); [split; [done|apply flag_actions]|].
  rewrite or_time_zero.
  destruct (Js.lt _ _) eqn:Hcool; [split; [done|apply flag_actions]|].
  destruct (distance_gt _ _); [split; [done|apply flag_actions]|].
  destruct (applyCombatDamage ps att tgt (calculateDamage c t rnd5) ts)
    as [[res ps']|] eqn:Happ; [|done].
  exists c, t. by split_and!.
Qed.

Lemma attackStep_lastAttack st r :
  match (attackStep st r).1 with
  | Some _ =>
      ∃ old, lastAttackOf st.1 (req_attacker r) = Some old ∧
             Js.lt (Js.sub (Js.toNumber (req_timestamp r)) (Js.toNumber old))
                   (Js.Fin attackCooldown) = false ∧
             ∀ p, lastAttackOf (attackStep st r).2.1 p
                  = if decide (p = req_attacker r)
                    then Some (req_timestamp r)
                    else lastAttackOf st.1 p
  | None => (attackStep st r).2.1 = st.1
  end.
Proof.
  unfold attackStep.
  pose proof (validateCombatAction_cases st.2 st.1 (req_attacker r) (req_target r)
                (req_timestamp r) (req_rnd5 r) (req_now r)) as H.
  destruct (validateCombatAction _ _ _ _ _ _ _) as [[[res|] ps'] a']; cbn.
  - destruct H as (c & t & Hc & Ht & _ & Hcool & Happ & _).
    exists (lastAttackTime (gameState c)). unfold lastAttackOf. rewrite Hc.
    split_and!; [done|done|]. intros p.
    pose proof (applyCombatDamage_fields _ _ _ _ _ _ _ Happ p) as Hf.
    destruct (st.1 !! p) as [cp|] eqn:Hp, (ps' !! p) as [cp'|]; try done; cbn.
    + destruct Hf as [-> _]. by case_decide.
    + case_decide as Hpa; [|done]. subst p. congruence.
  - by destruct H.
Qed.

(** Along a run of combat requests in which the requests of player [p]
    carry numbers as timestamps, a recorded last attack time of [p] that
    is a number at or after the time [n] stays one. *)
Lemma runAttacks_lastAttack_mono reqs p n : ∀ st v,
  Forall (numeric_for p) reqs →
  lastAttackOf st.1 p = Some v → not_before n v →
  ∃ v', lastAttackOf (runAttacks st reqs).1 p = Some v' ∧ not_before n v'.
Proof.
  induction reqs as [|r reqs IH]; intros st v Hnum Hv Hn.
  - exists v. by split.
  - apply Forall_cons in Hnum as [Hr Hnum]. cbn.
    pose proof (attackStep_lastAttack st r) as Hstep.
    destruct ((attackStep st r).1) as [res|].
    + destruct Hstep as (old & Hold & Hcool & Hall).
      specialize (Hall p). rewrite Hv in Hall. case_decide as Hp.
      * subst p. rewrite Hv in Hold. injection Hold as <-.
        apply (IH _ _ Hnum Hall).
        specialize (Hr eq_refl). unfold attackCooldown in Hcool.
        destruct v as [m| | |], (req_timestamp r) as [k| | |]; cbn in *;
          try done; try discriminate.
        apply Z.ltb_ge in Hcool. lia.
      * apply (IH _ _ Hnum Hall Hn).
    + apply (IH _ v Hnum); [by rewrite Hstep | done].
Qed.

(** C3, the claim as stated fails.  The cooldown is measured on the
    attacker's session record, and a player who reconnects gets a fresh
    record whose last attack time is 0: "a" attacks at 2000, reconnects,
    and its attack at 2001 is accepted.  And the elapsed time is computed
    from whatever the request carries as timestamp: a request whose
    timestamp is no number is accepted whatever the last attack time (the
    elapsed time is NaN, and [NaN < 1500] is false), and it is then that
    value the next request is measured against, so the attacks of "a"
    stamped 2000, "x" and 2001 are all accepted on one and the same
    record; so are two attacks that both carry [1e999]. *)
Lemma attack_cooldown_counterexample :
  (firstAttack.1
   = Some {| res_attackerId := "a"; res_targetId := "b"; res_damage := 20;
             oldHealth := 100; newHealth := 80; isDead := false;
             res_timestamp := Js.Num 2000 |} ∧
   (GameServer.handleAttackRequest reconnected "a" "b" (Some (Js.Num 2001)) 2 2001).1
   = Some {| res_attackerId := "a"; res_targetId := "b"; res_damage := 20;
             oldHealth := 80; newHealth := 60; isDead := false;
             res_timestamp := Js.Num 2001 |}) ∧
  ((attackStep (GameServer.players duel, noAuthority) sampleFirst).1
   = Some {| res_attackerId := "a"; res_targetId := "b"; res_damage := 20;
             oldHealth := 100; newHealth := 80; isDead := false;
             res_timestamp := Js.Num 2000 |} ∧
   (attackStep (attackStep (GameServer.players duel, noAuthority) sampleFirst).2
               sampleUnreadable).1
   = Some {| res_attackerId := "a"; res_targetId := "b"; res_damage := 20;
             oldHealth := 80; newHealth := 60; isDead := false;
             res_timestamp := Js.NotNumeric |} ∧
   (attackStep
      (runAttacks (attackStep (GameServer.players duel, noAuthority) sampleFirst).2
                  [sampleUnreadable])
      sampleSoon).1
   = Some {| res_attackerId := "a"; res_targetId := "b"; res_damage := 20;
             oldHealth := 60; newHealth := 40; isDead := false;
             res_timestamp := Js.Num 2001 |}) ∧
  ((attackStep (GameServer.players duel, noAuthority) sampleOverflow).1
   = Some {| res_attackerId := "a"; res_targetId := "b"; res_damage := 20;
             oldHealth := 100; newHealth := 80; isDead := false;
             res_timestamp := Js.Infinity |} ∧
   (attackStep (attackStep (GameServer.players duel, noAuthority) sampleOverflow).2
               sampleOverflow).1
   = Some {| res_attackerId := "a"; res_targetId := "b"; res_damage := 20;
             oldHealth := 80; newHealth := 60; isDead := false;
             res_timestamp := Js.Infinity |}) ∧
  ¬ cooldown_unconditional.
Proof.
  split_and!.
  1-7: vm_compute; reflexivity.
  intros H.
  assert (Hnull := H (GameServer.players duel) noAuthority sampleFirst [sampleUnreadable]
                     sampleSoon 2000 2001 eq_refl eq_refl eq_refl eq_refl).
  discriminate Hnull. discriminate.
Qed.

(** C3, amended.  On one set of session records, two attack requests of
    one attacker whose timestamps are finite numbers less than the
    cooldown (1500 ms) apart are never both accepted by
    [validateCombatAction], as long as every request of that attacker
    validated in between carries a number as timestamp: once the first is
    accepted (its timestamp is then the attacker's [lastAttackTime]), the
    second is answered with null, whatever other combat requests of any
    players are validated in between. *)
Theorem attack_cooldown_enforced ps a r1 between r2 res1 t1 t2 :
  req_attacker r2 = req_attacker r1 →
  req_timestamp r1 = Js.Num t1 →
  req_timestamp r2 = Js.Num t2 →
  Z.abs (t2 - t1) < attackCooldown →
  Forall (numeric_for (req_attacker r1)) between →
  (attackStep (ps, a) r1).1 = Some res1 →
  lastAttackOf (attackStep (ps, a) r1).2.1 (req_attacker r1) = Some (req_timestamp r1) ∧
  (attackStep (runAttacks (attackStep (ps, a) r1).2 between) r2).1 = None.
Proof.
  intros Hsame Ht1 Ht2 Hclose Hnum Hacc.
  pose proof (attackStep_lastAttack (ps, a) r1) as H1. rewrite Hacc in H1.
  destruct H1 as (old & Hold & _ & Hall).
  specialize (Hall (req_attacker r1)). rewrite decide_True in Hall by done.
  split; [exact Hall|].
  destruct (runAttacks_lastAttack_mono between (req_attacker r1) t1 _ _ Hnum Hall)
    as (v' & Hv' & Hle); [by rewrite Ht1; cbn; lia|].
  pose proof (attackStep_lastAttack (runAttacks (attackStep (ps, a) r1).2 between) r2) as H2.
  destruct ((attackStep (runAttacks (attackStep (ps, a) r1).2 between) r2).1); [|done].
  destruct H2 as (old2 & Hold2 & Hcool2 & _).
  rewrite Hsame, Hv' in Hold2. injection Hold2 as <-.
  rewrite Ht2 in Hcool2. unfold attackCooldown in *.
  destruct v' as [m| | |]; cbn in *; try done.
  apply Z.ltb_ge in Hcool2. lia.
Qed.

Lemma attack_cooldown_enforced_witness :
  (attackStep (GameServer.players duel, noAuthority) sampleFirst).1
  = Some {| res_attackerId := "a"; res_targetId := "b"; res_damage := 20;
            oldHealth := 100; newHealth := 80; isDead := false;
            res_timestamp := Js.Num 2000 |} ∧
  (attackStep
     (runAttacks (attackStep (GameServer.players duel, noAuthority) sampleFirst).2
                 [sampleBetween])
     sampleSecond).1 = None.
Proof.
  split; [reflexivity|].
  refine (proj2 (attack_cooldown_enforced (GameServer.players duel) noAuthority
                   sampleFirst [sampleBetween] sampleSecond _ 2000 3499 _ _ _ _ _ _)).
  - reflexivity.
  - reflexivity.
  - reflexivity.
  - reflexivity.
  - apply Forall_singleton. intros H. discriminate H.
  - reflexivity.
Defined.

Example attack_after_cooldown_accepted :
  (attackStep
     (attackStep (GameServer.players duel, noAuthority) sampleFirst).2
     {| req_attacker := "a"; req_target := "b"; req_timestamp := Js.Num 3500;
        req_rnd5 := 4; req_now := 3500 |}).1
  = Some {| res_attackerId := "a"; res_targetId := "b"; res_damage := 22;
            oldHealth := 80; newHealth := 58; isDead := false;
            res_timestamp := Js.Num 3500 |}.
Proof. reflexivity. Qed.

(** The damage of a hit is always within [minDamagePerHit, maxDamagePerHit]. *)
Lemma calculateDamage_range attacker target rnd5 :
  minDamagePerHit ≤ calculateDamage attacker target rnd5 ≤ maxDamagePerHit.
Proof. unfold calculateDamage, minDamagePerHit, maxDamagePerHit. cbv zeta. lia. Qed.

Lemma applyCombatDamage_nonneg ps att tgt d ts res ps' :
  applyCombatDamage ps att tgt d ts = Some (res, ps') →
  nonneg_health ps → nonneg_health ps'.
Proof.
  intros Happ Hps p c' Hc'.
  pose proof (applyCombatDamage_fields _ _ _ _ _ _ _ Happ p) as Hf.
  rewrite Hc' in Hf. destruct (ps !! p) as [c|] eqn:Hc; [|done].
  destruct Hf as [_ Hf]. specialize (Hps p c Hc). cbv beta in *. rewrite Hf. case_decide; lia.
Qed.

Lemma applyCombatDamage_in_range ps att tgt d ts res ps' :
  applyCombatDamage ps att tgt d ts = Some (res, ps') → 0 ≤ d →
  health_in_range ps → health_in_range ps'.
Proof.
  intros Happ Hd Hps p c' Hc'.
  pose proof (applyCombatDamage_fields _ _ _ _ _ _ _ Happ p) as Hf.
  rewrite Hc' in Hf. destruct (ps !! p) as [c|] eqn:Hc; [|done].
  destruct Hf as [_ Hf]. specialize (Hps p c Hc). cbv beta in *. rewrite Hf. case_decide; lia.
Qed.

(** The damage of an accepted attack is the server's own and lies within
    [minDamagePerHit, maxDamagePerHit] = [5, 25]. *)
Theorem accepted_damage_within_limits a ps att tgt ts rnd5 now :
  match (validateCombatAction a ps att tgt ts rnd5 now).1.1 with
  | Some res => minDamagePerHit ≤ res_damage res ≤ maxDamagePerHit
  | None => True
  end.
Proof.
  pose proof (validateCombatAction_cases a ps att tgt ts rnd5 now) as H.
  destruct (validateCombatAction a ps att tgt ts rnd5 now) as [[[res|] ps'] a']; cbn; [|done].
  destruct H as (c & t & _ & _ & _ & _ & Happ & _).
  destruct (applyCombatDamage_result _ _ _ _ _ _ _ Happ) as (_ & _ & _ & _ & -> & _).
  apply calculateDamage_range.
Qed.

(** On the validated path the damage is the server's own, so health stays
    within [0, maxHealth]. *)
Lemma validateCombatAction_health a ps att tgt ts rnd5 now :
  health_in_range ps →
  health_in_range (validateCombatAction a ps att tgt ts rnd5 now).1.2.
Proof.
  intros Hps.
  pose proof (validateCombatAction_cases a ps att tgt ts rnd5 now) as H.
  destruct (validateCombatAction a ps att tgt ts rnd5 now) as [[[res|] ps'] a']; cbn.
  - destruct H as (c & t & _ & _ & _ & _ & Happ & _).
    eapply applyCombatDamage_in_range; [exact Happ| |exact Hps].
    pose proof (calculateDamage_range c t rnd5). unfold minDamagePerHit in *. lia.
  - by destruct H as [-> _].
Qed.

End CombatFacts.

(** * Health bounds *)
Section HealthFacts.
Import ServerAuthority Runs.

Lemma omap_get_elem {V} (k : string) (v : V) m :
  Js.omap_get k m = Some v → (k, v) ∈ m.
Proof.
  induction m as [|[k' v'] m IH]; cbn; [done|].
  case_decide as Hk.
  - intros [= ->]. subst k'. apply list_elem_of_here.
  - intros H. apply list_elem_of_further, IH, H.
Qed.

Lemma omap_set_elem {V} (k : string) (v : V) m p c :
  (p, c) ∈ Js.omap_set k v m → (p, c) = (k, v) ∨ (p, c) ∈ m.
Proof.
  induction m as [|[k' v'] m IH]; cbn.
  - intros H. apply list_elem_of_singleton in H. by left.
  - case_decide as Hk.
    + intros H. apply elem_of_cons in H as [H|H]; [by left|].
      right. by apply list_elem_of_further.
    + intros H. apply elem_of_cons in H as [H|H].
      * right. rewrite H. apply list_elem_of_here.
      * destruct (IH H) as [?|?]; [by left|]. right. by apply list_elem_of_further.
Qed.

Lemma recordPlayerDamage_health (ms : MatchManager.Matches) mid att tgt d m m' :
  ms !! mid = Some m →
  (MatchManager.recordPlayerDamage ms mid att tgt d).2 !! mid = Some m' →
  ∀ p c', (p, c') ∈ MatchManager.players m' →
    ∃ c, (∃ q, (q, c) ∈ MatchManager.players m) ∧
         (MatchManager.health c' = MatchManager.health c ∨
          MatchManager.health c' = Z.max 0 (MatchManager.health c - d)).
Proof.
  intros Hm. unfold MatchManager.recordPlayerDamage. rewrite Hm.
  destruct (Js.omap_get att (MatchManager.players m)) as [a|] eqn:Ha;
    [|cbn; rewrite Hm; intros [= <-] p c' Hin; exists c'; eauto].
  destruct (Js.omap_get tgt (MatchManager.players m)) as [t|] eqn:Ht;
    [|cbn; rewrite Hm; intros [= <-] p c' Hin; exists c'; eauto].
  destruct (Js.omap_get tgt (Js.omap_set att _ _)) as [t1|] eqn:Ht1;
    [|cbn; rewrite Hm; intros [= <-] p c' Hin; exists c'; eauto].
  cbn. rewrite lookup_insert_eq. intros [= <-] p c'. cbn. intros Hin.
  apply omap_get_elem in Ha, Ht1.
  assert (Hps1 : ∀ q x, (q, x) ∈ Js.omap_set att (MatchManager.add_damageDealt d a)
                                     (MatchManager.players m) →
            ∃ c, (∃ q', (q', c) ∈ MatchManager.players m) ∧
                 MatchManager.health x = MatchManager.health c).
  { intros q x Hq. apply omap_set_elem in Hq as [[= -> ->]|Hq]; eauto. }
  apply omap_set_elem in Hin as [[= -> ->]|Hin].
  - destruct (Hps1 _ _ Ht1) as (c & Hc & Heq). exists c. split; [done|].
    right. cbn. by rewrite Heq.
  - destruct (Hps1 _ _ Hin) as (c & Hc & Heq). exists c. split; [done|]. by left.
Qed.

(** C5. Starting from health within [0, 100]: combat damage, through
    [applyCombatDamage] on the sessions or [recordPlayerDamage] on the
    match-scoped states, never leaves any player's health below 0 (and not
    above 100 either when the damage is not negative); a consumable's
    health restoration through [applyItemEffects] never leaves health
    above [maxHealth] = 100. *)
Theorem health_stays_in_range ps att tgt d ts (ms : MatchManager.Matches) mid m matt mtgt md
    g item :
  health_in_range ps →
  ms !! mid = Some m → match_health_in_range m →
  0 ≤ health g ≤ maxHealth →
  (∀ res ps', applyCombatDamage ps att tgt d ts = Some (res, ps') →
     nonneg_health ps' ∧ 0 ≤ newHealth res ∧ (0 ≤ d → health_in_range ps')) ∧
  (∀ m', (MatchManager.recordPlayerDamage ms mid matt mtgt md).2 !! mid = Some m' →
     match_nonneg_health m' ∧ (0 ≤ md → match_health_in_range m')) ∧
  health (applyItemEffects g item) ≤ maxHealth.
Proof.
  intros Hps Hm Hmr Hg. split_and!.
  - intros res ps' Happ. split_and!.
    + eapply applyCombatDamage_nonneg; [exact Happ|].
      intros p c Hc. pose proof (Hps p c Hc) as Hr. cbv beta in *. lia.
    + destruct (applyCombatDamage_result _ _ _ _ _ _ _ Happ) as (t & _ & _ & -> & _). lia.
    + intros Hd. eapply applyCombatDamage_in_range; eauto.
  - intros m' Hm'.
    unfold match_nonneg_health, match_health_in_range in *.
    rewrite Forall_forall in Hmr. rewrite !Forall_forall.
    split.
    + intros [p c'] Hin.
      destruct (recordPlayerDamage_health ms mid matt mtgt md m m' Hm Hm' p c' Hin)
        as (c & [q Hq] & [Heq | Heq]); cbn; rewrite Heq; [apply (Hmr _ Hq)|lia].
    + intros Hd [p c'] Hin.
      destruct (recordPlayerDamage_health ms mid matt mtgt md m m' Hm Hm' p c' Hin)
        as (c & [q Hq] & [Heq | Heq]); cbn; rewrite Heq; pose proof (Hmr _ Hq); cbn in *; lia.
  - unfold applyItemEffects, maxHealth in *.
    destruct (effects item) as [e|]; [|lia]. cbn.
    destruct (eff_health e) as [h|]; [|lia]. destruct (h =? 0); lia.
Qed.

Lemma health_stays_in_range_witness :
  (∀ res ps',
     applyCombatDamage (GameServer.players duel) "a" "b" 20 (Js.Num 2000) = Some (res, ps') →
     nonneg_health ps' ∧ 0 ≤ newHealth res ∧ (0 ≤ 20 → health_in_range ps')) ∧
  (∀ m', (MatchManager.recordPlayerDamage testMatch.2 "m-test" "test1" "test3" 50).2
           !! "m-test" = Some m' →
     match_nonneg_health m' ∧ (0 ≤ 50 → match_health_in_range m')) ∧
  health (applyItemEffects (gameState (GameServer.newConnection "lobby" "a" "Ann" 1000))
                           healthPotion) ≤ maxHealth.
Proof.
  apply (health_stays_in_range (GameServer.players duel) "a" "b" 20 (Js.Num 2000)
           testMatch.2 "m-test" testMatch.1 "test1" "test3" 50
           (gameState (GameServer.newConnection "lobby" "a" "Ann" 1000)) healthPotion).
  - unfold health_in_range. by_evaluation.
  - reflexivity.
  - unfold match_health_in_range. by_evaluation.
  - cbn. unfold maxHealth. lia.
Defined.

Example potion_is_capped :
  health (applyItemEffects
            (mark_hit 20 (Js.Num 2000) (gameState (GameServer.newConnection "lobby" "a" "Ann" 1000)))
            healthPotion) = 100.
Proof. reflexivity. Qed.

Example damage_floors_at_zero :
  (fun r => newHealth r.1) <$>
    applyCombatDamage
      (<["b" := set_gameState
                  (mark_hit 95 (Js.Num 1500) (gameState (GameServer.newConnection "lobby" "b" "Bob" 1000)))
                  (GameServer.newConnection "lobby" "b" "Bob" 1000)]>
         (GameServer.players duel))
      "a" "b" 20 (Js.Num 2000)
  = Some 0.
Proof. reflexivity. Qed.

End HealthFacts.

(** * Dead players *)
Section DeadPlayerFacts.
Import ServerAuthority Runs.

(** A dead attacker is turned away and no player record changes. *)
Lemma dead_attacker_rejected a ps att tgt ts rnd5 now c :
  ps !! att = Some c → health (gameState c) ≤ 0 →
  (validateCombatAction a ps att tgt ts rnd5 now).1 = (None, ps).
Proof.
  intros Hc Hdead. unfold validateCombatAction. rewrite Hc.
  destruct (ps !! tgt); [|done].
  by destruct (Z.leb_spec (health (gameState c)) 0); [|lia].
Qed.

Lemma dead_attacker_rejected_witness :
  healthOf (GameServer.players afterKill) "b" = Some 0 ∧
  (validateCombatAction noAuthority (GameServer.players afterKill) "b" "a" (Js.Num 20000) 2 20000).1
  = (None, GameServer.players afterKill).
Proof.
  split; [reflexivity|].
  refine (dead_attacker_rejected noAuthority (GameServer.players afterKill) "b" "a"
            (Js.Num 20000) 2 20000
            (default (GameServer.newConnection "lobby" "b" "Bob" 1000)
                     (GameServer.players afterKill !! "b")) _ _).
  - vm_compute. reflexivity.
  - vm_compute. discriminate.
Defined.

(** A dead player's item action is turned away before the item is even
    looked up, whatever the inventory operations are. *)
Lemma dead_item_actor_rejected {R} (process : Authority → Players → string → Item →
                                     ItemActionKind → Js.Timestamp →
                                     R * Players * Authority)
    a ps pid itemId kind ts now c :
  ps !! pid = Some c → health (gameState c) ≤ 0 →
  (validateItemAction process a ps pid itemId kind ts now).1 = (None, ps).
Proof.
  intros Hc Hdead. unfold validateItemAction. rewrite Hc.
  by destruct (Z.leb_spec (health (gameState c)) 0); [|lia].
Qed.

(** At the request handler the dead attacker does not even reach the
    validation. *)
Lemma handleAttackRequest_dead_attacker s att tgt ts rnd5 now c :
  GameServer.players s !! att = Some c → alive (gameState c) = false →
  GameServer.handleAttackRequest s att tgt ts rnd5 now = (None, s).
Proof.
  intros Hc Hdead. unfold GameServer.handleAttackRequest. by rewrite Hc, Hdead.
Qed.

(** C6, the code at the failing input.  "a" and "b" are connected to the
    lobby; five accepted attacks of "a" (20 damage each, 1500 ms apart)
    bring "b" to health 0 and kill it: "a" has one kill, "b" is dead since
    8000.  A sixth attack on the dead "b" is accepted all the same: it
    reports a death again, "a" gets a second kill, and the death time and
    combat time of "b" are overwritten. *)
Theorem dead_target_attacked_again :
  let s5 := attacksOnB duel 2000 5 in
  let sixth := GameServer.handleAttackRequest s5 "a" "b" (Some (Js.Num 9500)) 2 9500 in
  healthOf (GameServer.players s5) "b" = Some 0 ∧
  aliveOf s5 "b" = Some false ∧
  deathTimeOf s5 "b" = Some (Some (Js.Num 8000)) ∧
  killsOf s5 "a" = Some 1 ∧
  sixth.1 = Some {| res_attackerId := "a"; res_targetId := "b"; res_damage := 20;
                    oldHealth := 0; newHealth := 0; isDead := true;
                    res_timestamp := Js.Num 9500 |} ∧
  killsOf sixth.2 "a" = Some 2 ∧
  deathTimeOf sixth.2 "b" = Some (Some (Js.Num 9500)) ∧
  lastCombatOf sixth.2 "b" = Some (Js.Num 9500).
Proof. vm_compute. repeat split; reflexivity. Qed.

(** The same at [validateCombatAction] itself, for any living attacker in
    range of a target with health 0: the attack is accepted and reports a
    death. *)
Lemma dead_target_accepted a ps att tgt ts rnd5 now c t :
  ps !! att = Some c → ps !! tgt = Some t →
  0 < health (gameState c) →
  Js.lt (Js.sub (Js.toNumber ts) (Js.toNumber (lastAttackTime (gameState c))))
        (Js.Fin attackCooldown) = false →
  distance_gt (calculateDistanceSq (position (gameState c)) (position (gameState t)))
              (maxAttackRange, 1) = false →
  health (gameState t) = 0 →
  ∃ res, (validateCombatAction a ps att tgt ts rnd5 now).1.1 = Some res ∧
         isDead res = true ∧ newHealth res = 0.
Proof.
  intros Hc Ht Hlive Hcool Hrange Hdead.
  pose proof (calculateDamage_range c t rnd5) as Hdmg. unfold minDamagePerHit in Hdmg.
  unfold validateCombatAction. rewrite Hc, Ht, or_time_zero, Hcool, Hrange.
  destruct (Z.leb_spec (health (gameState c)) 0); [lia|].
  destruct (applyCombatDamage ps att tgt (calculateDamage c t rnd5) ts)
    as [[res ps']|] eqn:Happ.
  - exists res. cbn. split; [done|].
    destruct (applyCombatDamage_result _ _ _ _ _ _ _ Happ)
      as (t' & Ht' & _ & Hnew & _ & Hd).
    rewrite Ht in Ht'. injection Ht' as <-.
    rewrite Hd, Hnew, Hdead. split; [apply Z.leb_le|]; lia.
  - unfold applyCombatDamage in Happ. rewrite Hc, Ht in Happ.
    rewrite lookup_insert in Happ. case_decide; [done|]. by rewrite Ht in Happ.
Qed.

End DeadPlayerFacts.

(** * Action history and action frequency *)
Section FrequencyFacts.
Import ServerAuthority Runs.

(** C7, the claim as stated fails: after 20 accepted move requests of one
    player within one second the 20 actions are in the history and no
    violation at all is recorded for the player; and a rejected request
    (here an out-of-bounds target) is not appended to the history. *)
Lemma action_frequency_counterexample :
  (length <$> playerActions (moveBurst noAuthority "p1" (pt 1 1) 1000 50 20) !! "p1"
   = Some 20%nat ∧
   suspiciousPlayers (moveBurst noAuthority "p1" (pt 1 1) 1000 50 20) !! "p1" = None) ∧
  playerActions
    (validateMovement noAuthority "p1" (pt 1 1) (pt 2000 1) (Js.Num 1050)
       {| lastMoveTime := Some (Js.Num 1000); lastValidPosition := Some (pt 1 1) |} 1050).2
    !! "p1" = None ∧
  ¬ burst_of_twenty_is_flagged.
Proof.
  assert (Hquiet : suspiciousPlayers (moveBurst noAuthority "p1" (pt 1 1) 1000 50 20)
                     !! "p1" = None) by (vm_compute; reflexivity).
  split_and!; [vm_compute; reflexivity|exact Hquiet|vm_compute; reflexivity|].
  intros H. apply (H "p1" (pt 1 1) 1000 50); [reflexivity|lia|lia|exact Hquiet].
Qed.

Lemma checkActionFrequency_actions a pid actions now :
  playerActions (checkActionFrequency a pid actions now) = playerActions a.
Proof.
  unfold checkActionFrequency. case_match; [apply flag_actions|done].
Qed.

(** C7, amended.  [recordPlayerAction], which the two validators call for
    an accepted movement or combat action only, appends the action to the
    player's history and keeps the entries of the last 10 seconds; a
    violation is recorded for the player exactly when that window then
    holds more than 100 actions (more than 10 per second on average over
    the window), and then the player's violation counter grows by one. *)
Theorem recordPlayerAction_window a pid kind now :
  let window :=
    filter (fun action => now - 10000 < act_timestamp action)
           (default [] (playerActions a !! pid)
              ++ [{| act_type := kind; act_timestamp := now |}]) in
  let a' := recordPlayerAction a pid kind now in
  playerActions a' !! pid = Some window ∧
  (∀ q, q ≠ pid → playerActions a' !! q = playerActions a !! q) ∧
  (if decide (100 < length window)%nat
   then count <$> suspiciousPlayers a' !! pid
        = Some (default 0 (count <$> suspiciousPlayers a !! pid) + 1)
   else suspiciousPlayers a' = suspiciousPlayers a).
Proof.
  intros window a'. subst a'. unfold recordPlayerAction. fold window.
  rewrite checkActionFrequency_actions. cbn.
  split_and!.
  - by rewrite lookup_insert_eq.
  - intros q Hq. by rewrite lookup_insert_ne.
  - unfold checkActionFrequency, maxActionsPerSecond.
    case_decide as Hlen.
    + destruct (Z.ltb_spec (10 * 10) (Z.of_nat (length window))); [|lia].
      by rewrite flag_count.
    + destruct (Z.ltb_spec (10 * 10) (Z.of_nat (length window))); [lia|done].
Qed.

(** A rejected movement or combat request leaves the action history as
    it was; an accepted one goes through [recordPlayerAction]. *)
Lemma validateMovement_history a pid fromPos toPos ts pd now :
  let res := validateMovement a pid fromPos toPos ts pd now in
  (res.1 = Some toPos ∧ res.2 = recordPlayerAction a pid MOVEMENT now) ∨
  playerActions res.2 = playerActions a.
Proof.
  cbn. unfold validateMovement.
  destruct (isPositionInBounds toPos); cbn [negb]; [|right; apply flag_actions].
  destruct (distance_gt_num _ _); [right; apply flag_actions|].
  cbn. by left.
Qed.

(** The rate check first fires at the 101st action inside one window. *)
Example frequency_violation_at_101 :
  suspiciousPlayers (moveBurst noAuthority "p1" (pt 1 1) 1000 50 100) !! "p1" = None ∧
  count <$> suspiciousPlayers (moveBurst noAuthority "p1" (pt 1 1) 1000 50 101) !! "p1"
  = Some 1.
Proof. vm_compute. split; reflexivity. Qed.

End FrequencyFacts.

(** * Sessions and match rosters *)
Section RegistryFacts.
Import GameServer Registry.

(** What [handlePlayerDisconnection] does do: the session is gone, the
    player is in no set of [playersByMatch] under the session's match id,
    an emptied set is dropped together with the legacy match entry, and
    the match manager is not touched. *)
Lemma handlePlayerDisconnection_registry s p c :
  players s !! p = Some c →
  let s' := handlePlayerDisconnection s p in
  players s' !! p = None ∧
  (∀ ids, playersByMatch s' !! ServerAuthority.conn_matchId c = Some ids →
          (p ∉ ids) ∧ (ids ≠ ∅)) ∧
  matchManager s' = matchManager s.
Proof.
  intros Hc. cbn. unfold handlePlayerDisconnection. rewrite Hc.
  destruct (playersByMatch s !! ServerAuthority.conn_matchId c) as [ids|] eqn:Hids.
  - case_decide as Hsz; cbn.
    + split_and!; [apply lookup_delete_eq| |done].
      intros ids'. by rewrite lookup_delete_eq.
    + split_and!; [apply lookup_delete_eq| |done].
      intros ids'. rewrite lookup_insert_eq. intros [= <-].
      split; [rewrite elem_of_difference, elem_of_singleton; tauto|]. intros Hempty. rewrite Hempty in Hsz.
      by rewrite size_empty in Hsz.
  - cbn. split_and!; [apply lookup_delete_eq| |done]. intros ids'. by rewrite Hids.
Qed.

(** C8, the code at the failing input.  A player joins the lobby: the
    match manager creates a match under its own fresh id, listing the
    player, while the session is attached to "lobby".  The transport then
    closes: the session and the lobby set are removed, but the match still
    exists and still lists the player, who has no session at all. *)
Theorem released_player_stays_in_match :
  ServerAuthority.conn_matchId <$> players joined !! "p1" = Some "lobby" ∧
  roster <$> matchManager joined !! "m-1" = Some ["p1"] ∧
  players released !! "p1" = None ∧
  playersByMatch released !! "lobby" = None ∧
  roster <$> matchManager released !! "m-1" = Some ["p1"] ∧
  ¬ roster_within_sessions joined ∧
  ¬ roster_within_sessions released.
Proof.
  split_and!; try reflexivity.
  - intros H.
    destruct (matchManager joined !! "m-1") as [m|] eqn:Hm; [|by vm_compute in Hm].
    destruct (H "m-1" m "p1" Hm) as (c & Hc & Hmid).
    + assert (roster <$> matchManager joined !! "m-1" = Some ["p1"]) as Hr by reflexivity.
      rewrite Hm in Hr. injection Hr as ->. apply list_elem_of_here.
    + assert (ServerAuthority.conn_matchId <$> players joined !! "p1" = Some "lobby")
        as Hl by reflexivity.
      rewrite Hc in Hl. cbn in Hl. rewrite Hmid in Hl. discriminate Hl.
  - intros H.
    destruct (matchManager released !! "m-1") as [m|] eqn:Hm; [|by vm_compute in Hm].
    destruct (H "m-1" m "p1" Hm) as (c & Hc & _).
    + assert (roster <$> matchManager released !! "m-1" = Some ["p1"]) as Hr by reflexivity.
      rewrite Hm in Hr. injection Hr as ->. apply list_elem_of_here.
    + assert (players released !! "p1" = None) as Hn by reflexivity.
      rewrite Hc in Hn. discriminate Hn.
Qed.

(** Whatever the ids, a player who created a match on joining is still on
    its roster after the release. *)
Lemma release_keeps_roster s mid p uname uuid rnd now :
  matchManager s !! mid = None →
  let s' := handlePlayerDisconnection (handleNewConnection s mid p uname uuid rnd now) p in
  players s' !! p = None ∧ roster <$> matchManager s' !! uuid = Some [p].
Proof.
  intros Hnone. cbn.
  set (s1 := handleNewConnection s mid p uname uuid rnd now).
  assert (Hp : ∃ c, players s1 !! p = Some c).
  { subst s1. unfold handleNewConnection, updatePlayerStatus. cbn.
    rewrite lookup_insert_eq. rewrite lookup_insert_eq. eauto. }
  destruct Hp as [c Hc].
  destruct (handlePlayerDisconnection_registry s1 p c Hc) as (Hgone & _ & Hmm).
  split; [exact Hgone|]. rewrite Hmm. subst s1.
  unfold handleNewConnection, MatchManager.getMatchState. cbn. rewrite Hnone.
  unfold createNewMatch, MatchManager.createMatch, MatchManager.startMatch. cbn.
  rewrite lookup_insert_eq. cbn. rewrite lookup_insert_eq. cbn.
  reflexivity.
Qed.

(** The server's own index goes stale as well: a second connection under
    the same player id to another match replaces the session but leaves
    the player in the first match's set, and the release of the second
    connection leaves that set behind with no session for the player. *)
Lemma rejoin_leaves_stale_entry :
  ServerAuthority.conn_matchId <$> players rejoined !! "p1" = Some "arena" ∧
  playersByMatch rejoined !! "lobby" = Some {["p1"]} ∧
  ¬ index_within_sessions rejoined ∧
  players rejoinedReleased !! "p1" = None ∧
  playersByMatch rejoinedReleased !! "lobby" = Some {["p1"]} ∧
  ¬ index_within_sessions rejoinedReleased.
Proof.
  assert (Hset : playersByMatch rejoined !! "lobby" = Some {["p1"]}).
  { by_evaluation. }
  assert (Hset' : playersByMatch rejoinedReleased !! "lobby" = Some {["p1"]}).
  { by_evaluation. }
  split_and!; try done; try reflexivity.
  - intros H. destruct (H "lobby" {["p1"]} "p1" Hset) as (c & Hc & Hmid);
      [set_solver|].
    assert (ServerAuthority.conn_matchId <$> players rejoined !! "p1" = Some "arena")
      as Ha by reflexivity.
    rewrite Hc in Ha. cbn in Ha. rewrite Hmid in Ha. discriminate Ha.
  - intros H. destruct (H "lobby" {["p1"]} "p1" Hset') as (c & Hc & _);
      [set_solver|].
    assert (players rejoinedReleased !! "p1" = None) as Hn by reflexivity.
    rewrite Hc in Hn. discriminate Hn.
Qed.

End RegistryFacts.

(** * End-of-match statistics *)
Section StatsFacts.
Import MatchManager StatsInv.

(** The most-kills test of the loop never succeeds: the winner test just
    before it has already raised [maxKills] to the player's kills. *)
Lemma statsStep_mostDeadly start endOrNow acc entry :
  mostDeadlyPlayer (statsStep start endOrNow acc entry) = mostDeadlyPlayer acc ∧
  maxKills (statsStep start endOrNow acc entry) = Z.max (maxKills acc) (kills entry.2).
Proof.
  destruct entry as [pid p]. unfold statsStep. cbn [mostDeadlyPlayer maxKills snd].
  destruct (Z.ltb_spec (maxKills acc) (kills p)) as [Hlt|Hge]; cbn [orb].
  - rewrite Z.ltb_irrefl. split; [done|lia].
  - destruct (Z.eqb_spec (kills p) (maxKills acc)) as [Heq|Hne]; cbn [andb].
    + destruct (isAlive p).
      * rewrite Z.ltb_irrefl. split; [done|lia].
      * destruct (Z.ltb_spec (maxKills acc) (kills p)); [lia|]. split; [done|lia].
    + destruct (Z.ltb_spec (maxKills acc) (kills p)); [lia|]. split; [done|lia].
Qed.

Lemma stats_fold_mostDeadly start endOrNow entries : ∀ acc,
  mostDeadlyPlayer (fold_left (statsStep start endOrNow) entries acc)
  = mostDeadlyPlayer acc.
Proof.
  induction entries as [|e entries IH]; intros acc; cbn; [done|].
  rewrite IH. apply statsStep_mostDeadly.
Qed.

(** Whatever the players and their kills, no most-kills award holder is
    named. *)
Lemma mostDeadlyPlayer_never_named m now :
  mostDeadlyPlayer (calculateMatchStats m now) = None.
Proof. unfold calculateMatchStats. by rewrite stats_fold_mostDeadly. Qed.

(** C9, the code at the failing input: the match of [createTestMatch]
    (test1 and test2 have one kill each, test3 and test4 are dead), ended
    five minutes later.  The statistics name no most-kills award holder at
    all, although the maximum kill count, 1, is held by two players; the
    winner is test2, who has the maximum kill count and is alive. *)
Theorem endMatch_names_no_mostDeadlyPlayer :
  let res := (endMatch (createTestMatch ∅ "m-test" 7 1000) "m-test" "COMPLETED" 301000).1 in
  (fun r => (fun row => (ps_playerId row, ps_kills row, ps_survived row))
              <$> playerStats (res_stats r)) <$> res
  = Some [("test1", 1, true); ("test2", 1, true); ("test3", 0, false); ("test4", 0, false)] ∧
  (fun r => mostDeadlyPlayer (res_stats r)) <$> res = Some None ∧
  (fun r => ps_playerId <$> winner (res_stats r)) <$> res = Some (Some "test2").
Proof. vm_compute. repeat split; reflexivity. Qed.

Lemma statsStep_winner start endOrNow seen acc entry :
  0 ≤ kills entry.2 → winner_ok seen acc →
  winner_ok (seen ++ [entry]) (statsStep start endOrNow acc entry).
Proof.
  intros Hk Hok. pose proof (statsStep_mostDeadly start endOrNow acc entry) as [_ Hmax].
  destruct entry as [pid p]. cbn [snd] in Hk, Hmax.
  unfold winner_ok in *. rewrite Hmax. unfold statsStep. cbn [winner].
  destruct (winner acc) as [w|] eqn:Hw.
  - destruct Hok as (Hwk & (qid & q & Hq & Hwid & Hwq & Hws) & Hall).
    destruct (Z.ltb_spec (maxKills acc) (kills p)) as [Hlt|Hge]; cbn [orb].
    + cbn. split; [lia|]. split.
      * exists pid, p. split; [apply elem_of_app; right; apply list_elem_of_here|done].
      * apply Forall_app. split.
        -- eapply Forall_impl; [exact Hall|]. cbn. intros e [He _]. split; lia.
        -- apply Forall_singleton. cbn. split; [lia|done].
    + destruct (Z.eqb_spec (kills p) (maxKills acc)) as [Heq|Hne]; cbn [andb].
      * destruct (isAlive p) eqn:Halive.
        -- cbn. split; [lia|]. split.
           ++ exists pid, p. split; [apply elem_of_app; right; apply list_elem_of_here|done].
           ++ apply Forall_app. split.
              ** eapply Forall_impl; [exact Hall|]. cbn. intros e [He _]. split; [lia|done].
              ** apply Forall_singleton. cbn. split; [lia|done].
        -- split; [lia|]. split.
           ++ exists qid, q. split; [apply elem_of_app; by left|done].
           ++ apply Forall_app. split; [exact Hall|].
              apply Forall_singleton. cbn. split; [lia|]. congruence.
      * split; [lia|]. split.
        -- exists qid, q. split; [apply elem_of_app; by left|done].
        -- apply Forall_app. split; [exact Hall|].
           apply Forall_singleton. cbn. split; [lia|]. lia.
  - destruct Hok as [-> Hm1]. rewrite Hm1.
    destruct (Z.ltb_spec (-1) (kills p)) as [_|]; [|lia]. cbn.
    split; [lia|]. split.
    + exists pid, p. split; [apply list_elem_of_here|done].
    + apply Forall_singleton. cbn. split; [lia|done].
Qed.

Lemma stats_fold_winner start endOrNow entries : ∀ seen acc,
  Forall (fun e => 0 ≤ kills e.2) entries → winner_ok seen acc →
  winner_ok (seen ++ entries) (fold_left (statsStep start endOrNow) entries acc).
Proof.
  induction entries as [|e entries IH]; intros seen acc Hk Hok; cbn.
  - by rewrite app_nil_r.
  - apply Forall_cons in Hk as [Hk Hks].
    replace (seen ++ e :: entries) with ((seen ++ [e]) ++ entries)
      by (by rewrite <- app_assoc).
    apply IH; [exact Hks|]. by apply statsStep_winner.
Qed.

(** The winner part of C9 does hold: with at least one player (and kill
    counters that are not negative) a winner is named, it holds the
    maximum kill count, and it is alive if any holder of that count is. *)
Lemma winner_has_max_kills m now :
  players m ≠ [] → Forall (fun e => 0 ≤ kills e.2) (players m) →
  ∃ w, winner (calculateMatchStats m now) = Some w ∧
       (∃ pid p, (pid, p) ∈ players m ∧ ps_playerId w = pid ∧ ps_kills w = kills p ∧
                 ps_survived w = isAlive p) ∧
       Forall (fun e => kills e.2 ≤ ps_kills w ∧
                        (kills e.2 = ps_kills w → isAlive e.2 = true →
                         ps_survived w = true)) (players m).
Proof.
  intros Hne Hk.
  pose proof (stats_fold_winner (startTime m) (Js.or_undef_num (endTime m) now)
                (players m) [] statsInit Hk) as H.
  unfold winner_ok in H at 2. cbn in H. specialize (H (conj eq_refl eq_refl)).
  unfold calculateMatchStats, winner_ok in *.
  destruct (winner (fold_left _ (players m) statsInit)) as [w|].
  - exists w. destruct H as (_ & ? & ?). eauto.
  - by destruct H as [? _].
Qed.

Lemma winner_has_max_kills_witness :
  ∃ w, winner (calculateMatchStats playedMatch 301000) = Some w ∧
       ps_playerId w = "test2" ∧ ps_kills w = 1 ∧ ps_survived w = true.
Proof.
  destruct (winner_has_max_kills playedMatch 301000) as (w & Hw & _ & _).
  - vm_compute. discriminate.
  - by_evaluation.
  - exists w. split; [exact Hw|].
    assert (winner (calculateMatchStats playedMatch 301000)
            = Some {| ps_playerId := "test2"; ps_username := "TestPlayer2";
                      ps_kills := 1; ps_deaths := 0; ps_damageDealt := 75;
                      ps_damageTaken := 0; ps_itemsCollected := 2;
                      ps_roomsExplored := 2; ps_finalStatus := ALIVE;
                      ps_survived := true; ps_survivalTime := 300000;
                      ps_lastActivity := 1000; ps_totalPlayTime := 0 |}) as Hc
      by reflexivity.
    rewrite Hw in Hc. injection Hc as ->. repeat split.
Defined.

End StatsFacts.

(** * The move request handler *)
Section MoveRequestFacts.
Import ServerAuthority Runs.

(** The timestamp a handler works with, [message.timestamp || Date.now()],
    is a finite number when the message carries one or none. *)
Lemma or_undef_time_finite (ts : option Z) now :
  ∃ t, Js.or_undef_time (Js.Num <$> ts) (Js.Num now) = Js.Num t.
Proof.
  destruct ts as [t|]; cbn; [|by eexists].
  unfold Js.or_time. cbn. destruct (t =? 0); by eexists.
Qed.

(** [handleMoveRequest] hands the connection object to [validateMovement]
    as player data, so the elapsed time is 0 for every request with a
    finite timestamp: among those the reply does not depend on the
    timestamp. *)
Lemma handleMoveRequest_ignores_timestamp s pid q (ts1 ts2 : option Z) now :
  (GameServer.handleMoveRequest s pid q (Js.Num <$> ts1) now).1
  = (GameServer.handleMoveRequest s pid q (Js.Num <$> ts2) now).1.
Proof.
  unfold GameServer.handleMoveRequest.
  destruct (GameServer.players s !! pid) as [c|]; [|done].
  destruct (alive (gameState c)); cbn [negb]; [|done].
  destruct (or_undef_time_finite ts1 now) as [t1 ->].
  destruct (or_undef_time_finite ts2 now) as [t2 ->].
  unfold validateMovement, GameServer.connectionAsPlayerData. cbn.
  destruct (isPositionInBounds q); cbn [negb]; [|done].
  rewrite !Z.sub_diag.
  destruct (distance_gt _ _); done.
Qed.

(** Through the handler a player standing at one point who asks for
    another in-bounds point with a finite timestamp is always put back
    where it stands. *)
Lemma handleMoveRequest_never_moves s pid c p q (ts : option Z) now :
  GameServer.players s !! pid = Some c → alive (gameState c) = true →
  position (gameState c) = XY p → isPositionInBounds (XY q) = true → p ≠ q →
  (GameServer.handleMoveRequest s pid (XY q) (Js.Num <$> ts) now).1 = Some (XY p).
Proof.
  intros Hc Halive Hpos Hin Hne.
  unfold GameServer.handleMoveRequest. rewrite Hc, Halive, Hpos. cbn [negb].
  destruct (or_undef_time_finite ts now) as [t ->].
  unfold validateMovement, GameServer.connectionAsPlayerData. rewrite Hin.
  cbn [negb lastMoveTime lastValidPosition Js.or_undef_time Js.toNumber Js.sub].
  rewrite Z.sub_diag.
  assert (distance_gt_num (calculateDistanceSq (XY p) (XY q))
                          (calculateMaxMovementDistance (Js.Fin 0)) = true) as ->; [|done].
  unfold distance_gt_num, distance_gt, calculateDistanceSq, calculateMaxMovementDistance.
  cbn.
  destruct p as [px py], q as [qx qy]. cbn.
  apply Z.ltb_lt.
  pose proof (Z.square_nonneg (px - qx)). pose proof (Z.square_nonneg (py - qy)).
  assert (px ≠ qx ∨ py ≠ qy) as [Hd|Hd]
    by (destruct (decide (px = qx)); [right; congruence|by left]).
  - assert (0 < (px - qx) * (px - qx)) by nia. lia.
  - assert (0 < (py - qy) * (py - qy)) by nia. lia.
Qed.

(** A request stamped [1e999], or with a timestamp that is no number, is
    granted any in-bounds target through the handler as well: the elapsed
    time is NaN and nothing compares with the bound. *)
Lemma handleMoveRequest_unchecked_timestamp s pid c q ts now :
  GameServer.players s !! pid = Some c → alive (gameState c) = true →
  isPositionInBounds q = true →
  ts = Js.Infinity ∨ ts = Js.NotNumeric →
  (GameServer.handleMoveRequest s pid q (Some ts) now).1 = Some q.
Proof.
  intros Hc Halive Hin Hts.
  unfold GameServer.handleMoveRequest. rewrite Hc, Halive. cbn [negb].
  destruct Hts as [-> | ->]; cbn [Js.or_undef_time Js.or_time Js.truthy].
  - by rewrite validateMovement_infinite_timestamp.
  - by rewrite validateMovement_non_numeric_timestamp.
Qed.

(** A fresh connection holds a [{world, room}] position, whose distance to
    anything is NaN: its first request to any in-bounds point is accepted. *)
Example first_move_is_free :
  (GameServer.handleMoveRequest duel "a" (pt 1000 1000) (Some (Js.Num 1001)) 1001).1
  = Some (pt 1000 1000).
Proof. reflexivity. Qed.

End MoveRequestFacts.

(** * Rooms: caching and dependence on the seed *)
Section RoomFacts.
Import MatchManager Inv RoomInv.

#[local] Arguments isTerrainAccessible : simpl never.
#[local] Arguments getTerrainAccessInfo : simpl never.
#[local] Arguments terrainAt : simpl never.
#[local] Arguments generateRoomTerrain : simpl never.
#[local] Arguments generateRoomEntities : simpl never.
#[local] Arguments hashCoords : simpl never.
#[local] Arguments generateTerrainType : simpl never.

(** One call of [getTerrainType] as an equation: the cached value if
    there is one, the derived one otherwise, stored under the cell. *)
Lemma getTerrainType_eq (ms : Matches) mid m x y :
  ms !! mid = Some m →
  let t := default (terrainAt (map m) (x, y)) (terrainCache (map m) !! (x, y)) in
  getTerrainType ms mid x y
  = (t, <[mid := set_map (set_terrainCache (<[(x, y) := t]> (terrainCache (map m)))
                                           (map m)) m]> ms).
Proof.
  intros Hm. unfold getTerrainType. rewrite Hm.
  destruct (terrainCache (map m) !! (x, y)) as [t|] eqn:Hc; cbn.
  - f_equal. rewrite (insert_id (terrainCache (map m))) by done.
    rewrite insert_id; [done|]. rewrite Hm. f_equal.
    by destruct m as [? ? ? ? []].
  - unfold terrainAt. by destruct (landmarks (map m) !! (x, y)).
Qed.

(** [generateRoomData] as an equation on the match record. *)
Lemma generateRoomData_eq (ms : Matches) mid m x y :
  ms !! mid = Some m →
  generateRoomData ms mid x y =
  match rooms m !! (x, y) with
  | Some r => (Some r, ms)
  | None =>
      let t := default (terrainAt (map m) (x, y)) (terrainCache (map m) !! (x, y)) in
      let m1 := set_map (set_terrainCache (<[(x, y) := t]> (terrainCache (map m)))
                                          (map m)) m in
      let info := getTerrainAccessInfo t in
      if accessible info then
        let roomSeed := hashCoords x y (seed (map m)) in
        let r := {| worldPos := (x, y); terrainType := t;
                    room_roomType := roomType info; room_seed := roomSeed;
                    room_size := (20, 20);
                    terrain := generateRoomTerrain (roomType info) roomSeed;
                    entities := generateRoomEntities (roomType info) roomSeed;
                    discovered := false; exploredBy := ∅;
                    room_description := description info |} in
        (Some r, <[mid := set_rooms (<[(x, y) := r]> (rooms m)) m1]> ms)
      else (None, <[mid := m1]> ms)
  end.
Proof.
  intros Hm. unfold generateRoomData. rewrite Hm.
  destruct (rooms m !! (x, y)) as [r|] eqn:Hr; [done|].
  rewrite (getTerrainType_eq ms mid m x y Hm). cbv zeta.
  destruct (accessible _) eqn:Hacc; cbn [negb]; [|done].
  rewrite lookup_insert_eq. cbn. by rewrite insert_insert_eq.
Qed.

(** [generateRoomData] caches its answer: a second call for the same cell
    returns what the first call returned (the same room, or null again)
    and leaves the match table as the first call left it. *)
Theorem generateRoomData_idempotent (ms : Matches) mid x y :
  generateRoomData (generateRoomData ms mid x y).2 mid x y = generateRoomData ms mid x y.
Proof.
  destruct (ms !! mid) as [m|] eqn:Hm.
  - rewrite (generateRoomData_eq ms mid m x y Hm).
    destruct (rooms m !! (x, y)) as [r|] eqn:Hr.
    + cbn [snd]. rewrite (generateRoomData_eq ms mid m x y Hm). by rewrite Hr.
    + cbv zeta. destruct (accessible _) eqn:Hacc; cbn [snd].
      * erewrite generateRoomData_eq by apply lookup_insert_eq.
        cbn. by rewrite lookup_insert_eq.
      * erewrite generateRoomData_eq by apply lookup_insert_eq.
        cbn. rewrite Hr, lookup_insert_eq. cbn. rewrite Hacc.
        by rewrite !insert_insert_eq.
  - unfold generateRoomData. rewrite Hm. cbn. by rewrite Hm.
Qed.

Lemma match_exact_meta (m m' : MatchState) :
  map m' = map m → rooms m' = rooms m → match_seed m' = match_seed m →
  match_exact m → match_exact m'.
Proof.
  intros Hmap Hrooms Hseed (Hc & Hs & Hr). unfold match_exact, map_of_seed, rooms_exact.
  by rewrite Hmap, Hrooms, Hseed.
Qed.

Lemma roomAt_cache_irrelevant sm c k : roomAt (set_terrainCache c sm) k = roomAt sm k.
Proof. reflexivity. Qed.

Lemma match_exact_cache (m : MatchState) k :
  match_exact m →
  let t := default (terrainAt (map m) k) (terrainCache (map m) !! k) in
  t = terrainAt (map m) k ∧
  match_exact (set_map (set_terrainCache (<[k := t]> (terrainCache (map m))) (map m)) m).
Proof.
  intros (Hc & Hs & Hr). cbv zeta.
  assert (Ht : default (terrainAt (map m) k) (terrainCache (map m) !! k)
               = terrainAt (map m) k).
  { destruct (terrainCache (map m) !! k) as [t|] eqn:Hk; [|done]. apply (Hc _ _ Hk). }
  split; [done|]. rewrite Ht. split_and!.
  - by apply cache_coherent_insert.
  - done.
  - done.
Qed.

Lemma createMatch_exact (ms : Matches) ps uuid rnd now :
  match_exact (createMatch ms ps uuid rnd now).1.
Proof. split_and!; [apply map_Forall_empty|done|apply map_Forall_empty]. Qed.

(** What [generateRoomData] does to a match that is exact. *)
Lemma generateRoomData_exact (ms : Matches) mid m x y :
  ms !! mid = Some m → match_exact m →
  ∃ m', (generateRoomData ms mid x y).2 = <[mid := m']> ms ∧
        match_exact m' ∧ players m' = players m ∧ match_seed m' = match_seed m ∧
        match (generateRoomData ms mid x y).1 with
        | Some r => rooms m' !! (x, y) = Some r ∧
                    layout <$> roomAt (map m) (x, y) = Some (layout r)
        | None => roomAt (map m) (x, y) = None ∧ rooms m' = rooms m
        end.
Proof.
  intros Hm Hex. rewrite (generateRoomData_eq ms mid m x y Hm).
  destruct (rooms m !! (x, y)) as [r|] eqn:Hr.
  - exists m. cbn [fst snd]. split_and!; try done.
    + by rewrite insert_id.
    + destruct Hex as (_ & _ & Hrooms). apply (Hrooms _ _ Hr).
  - destruct (match_exact_cache m (x, y) Hex) as [Ht Hex1]. cbv zeta in *.
    rewrite Ht in *. unfold roomAt.
    destruct (accessible _) eqn:Hacc; cbn [fst snd].
    + eexists. split; [reflexivity|].
      destruct Hex1 as (Hc1 & Hs1 & Hr1).
      split_and!; try done.
      * split_and!; try done.
        intros k r. cbn. rewrite lookup_insert. case_decide as Hk.
        -- intros [= <-]. subst k. rewrite roomAt_cache_irrelevant.
           unfold roomAt. by rewrite Hacc.
        -- intros Hk'. apply (Hr1 k r Hk').
      * cbn. by rewrite lookup_insert_eq.
    + eexists. split; [reflexivity|]. by split_and!.
Qed.

Lemma all_exact_insert (ms : Matches) mid m :
  all_exact ms → match_exact m → all_exact (<[mid := m]> ms).
Proof. intros Hall Hm. by apply map_Forall_insert_2. Qed.

Lemma updatePlayerPosition_exact (ms : Matches) mid pid pos now :
  all_exact ms → all_exact (updatePlayerPosition ms mid pid pos now).2.
Proof.
  intros Hall. unfold updatePlayerPosition.
  destruct (ms !! mid) as [m|] eqn:Hm; [|done].
  destruct (Js.omap_get pid (players m)) as [player|]; [|done].
  pose proof (Hall _ _ Hm) as Hok.
  case_decide.
  - apply all_exact_insert; [done|]. by apply (match_exact_meta m).
  - match goal with
    | |- context [generateRoomData (<[mid := ?m1]> ms) mid ?a ?b] =>
        destruct (generateRoomData_exact (<[mid := m1]> ms) mid m1 a b)
          as (m2 & Heq & Hex2 & _ & _ & _);
        [apply lookup_insert_eq|by apply (match_exact_meta m)|];
        destruct (generateRoomData (<[mid := m1]> ms) mid a b) as [roomData ms2]
    end.
    cbn [snd] in Heq. subst ms2. rewrite insert_insert_eq.
    assert (Hall2 : all_exact (<[mid := m2]> ms)) by by apply all_exact_insert.
    destruct roomData as [r|]; [|done].
    rewrite lookup_insert_eq. cbn [snd]. rewrite insert_insert_eq.
    apply all_exact_insert; [done|].
    destruct Hex2 as (Hc2 & Hs2 & Hr2). split_and!; try done.
    intros k room. cbn. rewrite lookup_alter.
    case_decide as Hk.
    + subst k.
      destruct (rooms m2 !! (pos_x (world pos), pos_y (world pos))) as [r0|] eqn:Hr0;
        cbn; [|done].
      intros [= <-]. apply (Hr2 _ r0 Hr0).
    + intros Hk'. apply (Hr2 k room Hk').
Qed.

(** Every match of a reachable table carries the map of its seed, and
    every room it caches has the layout that the seed gives at its cell. *)
Lemma reachable_all_exact ms : reachable ms → all_exact ms.
Proof.
  induction 1 as [|ms ps uuid rnd now _ IH|ms mid now _ IH|ms mid x y _ IH
                 |ms mid x y _ IH|ms mid pid pos now _ IH|ms mid a t d _ IH
                 |ms mid k v now _ IH|ms mid p q _ IH|ms mid reason now _ IH
                 |ms mid _ IH].
  - apply map_Forall_empty.
  - apply all_exact_insert; [done|apply (createMatch_exact ms)].
  - unfold startMatch. destruct (ms !! mid) as [m|] eqn:Hm; [|done].
    apply all_exact_insert; [done|]. by apply (match_exact_meta m), (IH _ _ Hm).
  - destruct (ms !! mid) as [m|] eqn:Hm.
    + rewrite (getTerrainType_eq ms mid m x y Hm).
      apply all_exact_insert; [done|]. apply match_exact_cache, (IH _ _ Hm).
    + unfold getTerrainType. by rewrite Hm.
  - destruct (ms !! mid) as [m|] eqn:Hm.
    + destruct (generateRoomData_exact ms mid m x y Hm (IH _ _ Hm)) as (m' & -> & Hok & _).
      by apply all_exact_insert.
    + unfold generateRoomData. by rewrite Hm.
  - by apply updatePlayerPosition_exact.
  - unfold recordPlayerDamage. destruct (ms !! mid) as [m|] eqn:Hm; [|done].
    repeat case_match; try done.
    apply all_exact_insert; [done|]. by apply (match_exact_meta m), (IH _ _ Hm).
  - unfold recordPlayerKill. destruct (ms !! mid) as [m|] eqn:Hm; [|done].
    repeat case_match; try done;
      (apply all_exact_insert; [done|]; by apply (match_exact_meta m), (IH _ _ Hm)).
  - unfold recordItemCollection. destruct (ms !! mid) as [m|] eqn:Hm; [|done].
    repeat case_match; try done.
    apply all_exact_insert; [done|]. by apply (match_exact_meta m), (IH _ _ Hm).
  - unfold endMatch. destruct (ms !! mid) as [m|] eqn:Hm; [|done].
    apply all_exact_insert; [done|]. by apply (match_exact_meta m), (IH _ _ Hm).
  - unfold reapMatch. intros k m Hk. apply lookup_delete_Some in Hk as [_ Hk].
    apply (IH _ _ Hk).
Qed.

Lemma roomAt_of_seed (m : MatchState) k :
  map_of_seed m → roomAt (map m) k = roomAt (generateServerMap (match_seed m)) k.
Proof.
  intros [Hs Hl]. unfold roomAt, terrainAt. rewrite Hs, Hl. reflexivity.
Qed.

(** On a reachable match table the layout of the room returned for a
    cell (everything but the two exploration marks) is the one that the
    match seed and the fixed landmark table give for that cell, and the
    answer is null exactly when they give inaccessible terrain: whatever
    happened in the match before, and the same in every match of that
    seed. *)
Theorem room_layout_from_seed (ms : Matches) mid m x y :
  reachable ms → ms !! mid = Some m →
  layout <$> (generateRoomData ms mid x y).1
  = layout <$> roomAt (generateServerMap (match_seed m)) (x, y).
Proof.
  intros Hreach Hm.
  pose proof (reachable_all_exact ms Hreach mid m Hm) as Hex.
  destruct (generateRoomData_exact ms mid m x y Hm Hex) as (m' & _ & _ & _ & _ & Hres).
  rewrite <- (roomAt_of_seed m) by apply Hex.
  destruct (generateRoomData ms mid x y).1 as [r|].
  - destruct Hres as [_ ->]. done.
  - destruct Hres as [-> _]. done.
Qed.

Lemma room_layout_from_seed_witness :
  layout <$> (generateRoomData ((createMatch ∅ [("p1", "Ann")] "m1" 7 1000).2) "m1" 0 0).1
  = layout <$> roomAt (generateServerMap 12352) (0, 0).
Proof.
  apply (room_layout_from_seed
           ((createMatch ∅ [("p1", "Ann")] "m1" 7 1000).2) "m1"
           ((createMatch ∅ [("p1", "Ann")] "m1" 7 1000).1) 0 0).
  - apply reach_createMatch, reach_empty.
  - reflexivity.
Defined.

Lemma generateTerrainType_kinds x y s : generateTerrainType x y s ∈ producedTerrain.
Proof.
  unfold generateTerrainType, producedTerrain. cbv zeta.
  repeat case_match; rewrite !elem_of_cons; tauto.
Qed.

Lemma landmark_kinds s :
  map_Forall (fun _ lm => lm_type lm ∈ producedTerrain) (landmarks (generateServerMap s)).
Proof. unfold generateServerMap. cbn [landmarks]. by_evaluation. Qed.

Lemma terrainAt_kinds (m : MatchState) k :
  map_of_seed m → terrainAt (map m) k ∈ producedTerrain.
Proof.
  intros [Hs Hl]. unfold terrainAt. rewrite Hl.
  destruct (landmarks (generateServerMap (match_seed m)) !! k) as [lm|] eqn:Hk.
  - apply (landmark_kinds _ _ _ Hk).
  - apply generateTerrainType_kinds.
Qed.

Lemma roomAt_roomType sm k r0 :
  roomAt sm k = Some r0 →
  accessible (getTerrainAccessInfo (terrainAt sm k)) = true ∧
  room_roomType r0 = roomType (getTerrainAccessInfo (terrainAt sm k)).
Proof.
  unfold roomAt. destruct (accessible _); [|done]. by intros [= <-].
Qed.

Lemma layout_roomType r r' : layout r = layout r' → room_roomType r = room_roomType r'.
Proof. unfold layout. intros H. by injection H. Qed.

(** On a reachable match table [getTerrainType] only ever answers one of
    the thirteen terrain kinds of the landmark table and of
    [generateTerrainType]; so the rooms of [generateRoomData] have one of
    eleven room types.  Beach, desert, bridge, swamp, camp, portal, temple
    and city are never produced, nor dense forest and cliff. *)
Theorem produced_terrain_and_rooms (ms : Matches) mid x y :
  reachable ms →
  (getTerrainType ms mid x y).1 ∈ producedTerrain ∧
  ∀ r, (generateRoomData ms mid x y).1 = Some r →
       ∃ rt, room_roomType r = Some rt ∧ rt ∈ producedRoomTypes.
Proof.
  intros Hreach. destruct (ms !! mid) as [m|] eqn:Hm.
  - pose proof (reachable_all_exact ms Hreach mid m Hm) as Hex.
    pose proof (terrainAt_kinds m (x, y) (proj1 (proj2 Hex))) as Hk.
    split.
    + rewrite (getTerrainType_reachable ms mid m x y Hreach Hm). exact Hk.
    + intros r Hr.
      destruct (generateRoomData_exact ms mid m x y Hm Hex) as (m' & _ & _ & _ & _ & Hres).
      rewrite Hr in Hres. destruct Hres as [_ Hres].
      destruct (roomAt (map m) (x, y)) as [r0|] eqn:Hr0; [|done].
      apply (inj Some), layout_roomType in Hres.
      apply roomAt_roomType in Hr0 as [Hacc Hrt]. rewrite <- Hres, Hrt.
      clear Hres Hrt Hr Hex.
      unfold producedTerrain, producedRoomTypes in *.
      rewrite !elem_of_cons, elem_of_nil in Hk.
      destruct Hk as [Hk | [Hk | [Hk | [Hk | [Hk | [Hk | [Hk | [Hk | [Hk | [Hk |
                     [Hk | [Hk | [Hk | []]]]]]]]]]]]]]; rewrite Hk in *;
        try (cbv in Hacc; discriminate Hacc); eexists; (split; [reflexivity|]);
        rewrite !elem_of_cons; tauto.
  - unfold getTerrainType, generateRoomData. rewrite Hm. cbn. split; [|done].
    unfold producedTerrain. rewrite !elem_of_cons; tauto.
Qed.

Lemma produced_terrain_and_rooms_witness :
  (getTerrainType ((createMatch ∅ [("p1", "Ann")] "m1" 7 1000).2) "m1" 3 4).1
  ∈ producedTerrain.
Proof.
  apply (produced_terrain_and_rooms
           ((createMatch ∅ [("p1", "Ann")] "m1" 7 1000).2) "m1" 3 4).
  apply reach_createMatch, reach_empty.
Defined.

(** On a reachable match table [canMoveToPosition] agrees with room
    generation: it answers true exactly for the cells for which
    [generateRoomData] returns a room, except that for a match the table
    does not hold it answers true (the terrain defaults to grass) while no
    room is returned. *)
Theorem canMoveToPosition_iff_room (ms : Matches) mid x y :
  reachable ms →
  (canMoveToPosition ms mid x y).1 = true ↔
  is_Some (generateRoomData ms mid x y).1 ∨ ms !! mid = None.
Proof.
  intros Hreach. unfold canMoveToPosition.
  destruct (getTerrainType ms mid x y) as [t ms'] eqn:Ht. cbn [fst].
  destruct (ms !! mid) as [m|] eqn:Hm.
  - pose proof (getTerrainType_reachable ms mid m x y Hreach Hm) as Hterr.
    rewrite Ht in Hterr. cbn in Hterr. subst t.
    pose proof (reachable_all_exact ms Hreach mid m Hm) as Hex.
    destruct (generateRoomData_exact ms mid m x y Hm Hex) as (m' & _ & _ & _ & _ & Hres).
    unfold roomAt in Hres. rewrite accessInfo_accessible in Hres.
    destruct (generateRoomData ms mid x y).1 as [r|].
    + destruct Hres as [_ Hres].
      destruct (isTerrainAccessible (terrainAt (map m) (x, y))); [|done].
      split; [intros _; left; by eexists|done].
    + destruct Hres as [Hres _].
      destruct (isTerrainAccessible (terrainAt (map m) (x, y))); [done|].
      split; [done|]. intros [[? [=]]|[=]].
  - unfold getTerrainType in Ht. rewrite Hm in Ht. injection Ht as <- <-.
    split; [by right|done].
Qed.

Lemma canMoveToPosition_iff_room_witness :
  (canMoveToPosition ((createMatch ∅ [("p1", "Ann")] "m1" 7 1000).2) "m1" 14 11).1 = true ↔
  is_Some (generateRoomData ((createMatch ∅ [("p1", "Ann")] "m1" 7 1000).2) "m1" 14 11).1 ∨
  (createMatch ∅ [("p1", "Ann")] "m1" 7 1000).2 !! "m1" = None.
Proof.
  apply (canMoveToPosition_iff_room ((createMatch ∅ [("p1", "Ann")] "m1" 7 1000).2)
                                    "m1" 14 11).
  apply reach_createMatch, reach_empty.
Defined.

Ltac thresholds :=
  repeat match goal with
         | H : (_ <? _) = true |- _ => apply Z.ltb_lt in H
         | H : (_ <? _) = false |- _ => apply Z.ltb_ge in H
         | H : (_ && _) = true |- _ => apply andb_true_iff in H as [? ?]
         | H : (_ =? _) = true |- _ => apply Z.eqb_eq in H
         end.

(** Entities that [generateRoomEntities] never places, whatever the seed
    and the cell, because an earlier test of the same chain already covers
    the values of the later one: no trap in a cave, a swamp or ruins; no
    enemy in ruins, hills, a portal site or a field; no chest on a shore,
    a beach or in a desert; no item in a temple, a tower, on a road or in
    a camp; and in a village an NPC only at cell (10, 5). *)
Theorem entity_kinds_never_placed seed0 x y :
  entityCell (Some R_cave) seed0 x y ≠ TRAP ∧
  entityCell (Some R_swamp) seed0 x y ≠ TRAP ∧
  entityCell (Some R_ruins) seed0 x y ≠ TRAP ∧
  entityCell (Some R_ruins) seed0 x y ≠ ENEMY ∧
  entityCell (Some R_hills) seed0 x y ≠ ENEMY ∧
  entityCell (Some R_portal) seed0 x y ≠ ENEMY ∧
  entityCell (Some R_field) seed0 x y ≠ ENEMY ∧
  entityCell (Some R_shore) seed0 x y ≠ CHEST ∧
  entityCell (Some R_beach) seed0 x y ≠ CHEST ∧
  entityCell (Some R_desert) seed0 x y ≠ CHEST ∧
  entityCell (Some R_temple) seed0 x y ≠ ITEM ∧
  entityCell (Some R_tower) seed0 x y ≠ ITEM ∧
  entityCell (Some R_road) seed0 x y ≠ ITEM ∧
  entityCell (Some R_camp) seed0 x y ≠ ITEM ∧
  (entityCell (Some R_village) seed0 x y = NPC → x = 10 ∧ y = 5).
Proof.
  unfold entityCell. cbv zeta.
  generalize (Z.rem (hashCoords (x + 100) (y + 100) seed0) 1000). intros v.
  split_and!; repeat case_match; try discriminate; thresholds; try lia; done.
Qed.

End RoomFacts.

(** * The roster: exploration, kills and deaths, statistics *)
Section RosterFacts.
Import MatchManager Inv RoomInv Tally.

#[local] Arguments isTerrainAccessible : simpl never.
#[local] Arguments getTerrainAccessInfo : simpl never.
#[local] Arguments terrainAt : simpl never.
#[local] Arguments generateRoomTerrain : simpl never.
#[local] Arguments generateRoomEntities : simpl never.
#[local] Arguments hashCoords : simpl never.

Lemma omap_get_set {K V} `{EqDecision K} (k k' : K) (v : V) m :
  Js.omap_get k' (Js.omap_set k v m) = if decide (k' = k) then Some v else Js.omap_get k' m.
Proof.
  induction m as [|[k0 v0] m IH]; cbn.
  - done.
  - destruct (decide (k = k0)) as [->|Hk]; cbn.
    + repeat case_decide; congruence.
    + rewrite IH. repeat case_decide; congruence.
Qed.

Lemma omap_set_keys {K V} `{EqDecision K} (k : K) (v v' : V) m :
  Js.omap_get k m = Some v → (Js.omap_set k v' m).*1 = m.*1.
Proof.
  induction m as [|[k0 v0] m IH]; cbn; [done|].
  case_decide; cbn; [by subst|]. intros Hg. by rewrite IH.
Qed.

Lemma total_omap_set (f : PlayerState → Z) k v v' m :
  Js.omap_get k m = Some v →
  total f (Js.omap_set k v' m) = total f m - f v + f v'.
Proof.
  unfold total, sumZ. induction m as [|[k0 v0] m IH]; cbn; [done|].
  case_decide; cbn.
  - intros [= ->]. lia.
  - intros Hg. rewrite IH by done. lia.
Qed.

(** What [updatePlayerPosition] does for a player on the roster of an
    exact match. *)
Lemma updatePlayerPosition_spec (ms : Matches) mid m pid p pos now :
  ms !! mid = Some m → Js.omap_get pid (players m) = Some p → match_exact m →
  let key := (pos_x (world pos), pos_y (world pos)) in
  ∃ m', updatePlayerPosition ms mid pid pos now = (true, <[mid := m']> ms) ∧
        players m'
        = Js.omap_set pid (set_position pos now ({[key]} ∪ roomsExplored p) p) (players m) ∧
        match_exact m' ∧ match_seed m' = match_seed m ∧ map_of_seed m' ∧
        (key ∉ roomsExplored p →
         match roomAt (map m) key with
         | Some _ => ∃ r, rooms m' !! key = Some r ∧ discovered r = true ∧ pid ∈ exploredBy r
         | None => rooms m' = rooms m
         end).
Proof.
  intros Hm Hp Hex key. unfold updatePlayerPosition. rewrite Hm, Hp. fold key.
  case_decide as Hin.
  - eexists. split; [reflexivity|].
    assert (Hset : {[key]} ∪ roomsExplored p = roomsExplored p)
      by (by apply subseteq_union_1_L, singleton_subseteq_l).
    rewrite Hset. split_and!; try done; try (by apply (match_exact_meta m)); apply Hex.
  - match goal with
    | |- context [generateRoomData (<[mid := ?m1]> ms) mid ?a ?b] =>
        destruct (generateRoomData_exact (<[mid := m1]> ms) mid m1 a b)
          as (m2 & Heq & Hex2 & Hpl2 & Hseed2 & Hres);
        [apply lookup_insert_eq|by apply (match_exact_meta m)|];
        destruct (generateRoomData (<[mid := m1]> ms) mid a b) as [roomData ms2]
    end.
    cbn [fst snd] in Heq, Hres. change (key.1, key.2) with key in Hres.
    subst ms2. rewrite insert_insert_eq in *.
    rewrite lookup_insert_eq.
    destruct roomData as [r|].
    + eexists. rewrite insert_insert_eq. split; [reflexivity|].
      destruct Hres as [Hr Hlay]. cbn in Hlay.
      destruct Hex2 as (Hc2 & Hs2 & Hr2).
      split_and!; try done.
      * split_and!; try done.
        intros k room. cbn. rewrite lookup_alter.
        case_decide as Hk.
        -- subst k. rewrite Hr. cbn. intros [= <-]. apply (Hr2 _ r Hr).
        -- intros Hk'. apply (Hr2 k room Hk').
      * intros _. destruct (roomAt (map m) key) as [r0|]; [|done].
        exists (mark_discovered pid r). cbn. rewrite lookup_alter_eq, Hr.
        split_and!; [done|done|set_solver].
    + exists m2. split; [done|]. destruct Hres as [Hnone Hrooms]. cbn in Hnone.
      split_and!; try done; [apply Hex2|].
      intros _. by rewrite Hnone.
Qed.

(** A player on the roster who reports a position is moved there whatever
    the terrain; the cell joins the rooms the player has explored; no
    other player changes and the roster keeps its order; on a first visit
    to accessible terrain the room of the cell exists afterwards, is
    marked discovered and lists the player among its explorers. *)
Theorem updatePlayerPosition_explores (ms : Matches) mid m pid p pos now :
  reachable ms → ms !! mid = Some m → Js.omap_get pid (players m) = Some p →
  let key := (pos_x (world pos), pos_y (world pos)) in
  ∃ m', updatePlayerPosition ms mid pid pos now = (true, <[mid := m']> ms) ∧
        Js.omap_get pid (players m')
        = Some (set_position pos now ({[key]} ∪ roomsExplored p) p) ∧
        (∀ q, q ≠ pid → Js.omap_get q (players m') = Js.omap_get q (players m)) ∧
        (players m').*1 = (players m).*1 ∧
        (key ∉ roomsExplored p → isTerrainAccessible (terrainAt (map m) key) = true →
         ∃ r, rooms m' !! key = Some r ∧ discovered r = true ∧ pid ∈ exploredBy r).
Proof.
  intros Hreach Hm Hp key.
  pose proof (reachable_all_exact ms Hreach mid m Hm) as Hex.
  destruct (updatePlayerPosition_spec ms mid m pid p pos now Hm Hp Hex)
    as (m' & Heq & Hpl & _ & _ & _ & Hroom).
  exists m'. fold key in Hpl, Hroom. rewrite Hpl. split_and!.
  - done.
  - rewrite omap_get_set. by case_decide.
  - intros q Hq. rewrite omap_get_set. by case_decide.
  - by apply (omap_set_keys pid p).
  - intros Hnew Hacc. specialize (Hroom Hnew). unfold roomAt in Hroom.
    rewrite accessInfo_accessible, Hacc in Hroom. exact Hroom.
Qed.

Lemma updatePlayerPosition_explores_witness :
  ∃ m', updatePlayerPosition ((createMatch ∅ [("p1", "Ann")] "m1" 7 1000).2) "m1" "p1"
                             (wr 0 0) 2000
        = (true, <[ "m1" := m' ]> ((createMatch ∅ [("p1", "Ann")] "m1" 7 1000).2)) ∧
        ∃ r, rooms m' !! (0, 0) = Some r ∧ discovered r = true ∧ "p1" ∈ exploredBy r.
Proof.
  destruct (updatePlayerPosition_explores
              ((createMatch ∅ [("p1", "Ann")] "m1" 7 1000).2) "m1"
              ((createMatch ∅ [("p1", "Ann")] "m1" 7 1000).1) "p1"
              (newPlayerState "p1" "Ann" 1000) (wr 0 0) 2000)
    as (m' & Heq & _ & _ & _ & Hroom).
  - apply reach_createMatch, reach_empty.
  - reflexivity.
  - reflexivity.
  - exists m'. split; [exact Heq|]. apply Hroom; [set_solver|reflexivity].
Defined.

Lemma total_zero (f : PlayerState → Z) l :
  Forall (fun e => f e.2 = 0) l → total f l = 0.
Proof.
  unfold total, sumZ. induction 1 as [|e l He _ IH]; cbn; [done|]. lia.
Qed.

Lemma createMatch_fresh ps now : ∀ acc,
  Forall (fun e : string * PlayerState => kills e.2 = 0 ∧ deaths e.2 = 0) acc →
  Forall (fun e : string * PlayerState => kills e.2 = 0 ∧ deaths e.2 = 0)
         (fold_left (fun acc p => Js.omap_set p.1 (newPlayerState p.1 p.2 now) acc) ps acc).
Proof.
  induction ps as [|p ps IH]; intros acc Hacc; cbn; [done|].
  apply IH. apply Forall_forall. intros [k v] Hin.
  apply omap_set_elem in Hin as [[= -> ->]|Hin]; [done|].
  by apply (proj1 (Forall_forall _ _) Hacc (k, v)).
Qed.

Lemma createMatch_balanced (ms : Matches) ps uuid rnd now :
  balanced (createMatch ms ps uuid rnd now).1.
Proof.
  unfold balanced. cbn [createMatch fst players].
  pose proof (createMatch_fresh ps now [] (Forall_nil_2 _)) as Hz.
  rewrite !total_zero; [done| |].
  - eapply Forall_impl; [exact Hz|]. by intros e [_ ?].
  - eapply Forall_impl; [exact Hz|]. by intros e [? _].
Qed.

Lemma balanced_same_players (m m' : MatchState) :
  players m' = players m → balanced m → balanced m'.
Proof. unfold balanced. by intros ->. Qed.

Lemma all_balanced_insert (ms : Matches) mid m :
  map_Forall (fun _ => balanced) ms → balanced m →
  map_Forall (fun _ => balanced) (<[mid := m]> ms).
Proof. intros Hall Hm. by apply map_Forall_insert_2. Qed.

Lemma recordPlayerKill_balanced (ms : Matches) mid k v now :
  map_Forall (fun _ => balanced) ms →
  map_Forall (fun _ => balanced) (recordPlayerKill ms mid k v now).2.
Proof.
  intros Hall. unfold recordPlayerKill.
  destruct (ms !! mid) as [m|] eqn:Hm; [|done].
  destruct (Js.omap_get k (players m)) as [killer|] eqn:Hk; [|done].
  destruct (Js.omap_get v (players m)) as [victim0|] eqn:Hv0; [|done].
  match goal with |- context [Js.omap_set k ?kk (players m)] => set (killer1 := kk) end.
  destruct (Js.omap_get v (Js.omap_set k killer1 (players m))) as [victim|] eqn:Hv; [|done].
  destruct (Js.omap_get k (Js.omap_set v (add_death now victim)
                             (Js.omap_set k killer1 (players m)))) as [killer2|] eqn:Hk2;
    [|done].
  cbn [snd]. apply all_balanced_insert; [done|].
  pose proof (Hall _ _ Hm) as Hb. unfold balanced in *. cbn [players set_players].
  assert (H2 : total kills (Js.omap_set v (add_death now victim)
                              (Js.omap_set k killer1 (players m)))
               = total kills (players m) + 1 ∧
               total deaths (Js.omap_set v (add_death now victim)
                               (Js.omap_set k killer1 (players m)))
               = total deaths (players m) + 1).
  { rewrite !(total_omap_set _ v victim) by done.
    rewrite !(total_omap_set _ k killer) by done. subst killer1. cbn. lia. }
  destruct (kills killer2 =? 1).
  - rewrite !(total_omap_set _ k killer2) by done. cbn. lia.
  - lia.
Qed.

(** Every match of a reachable table is balanced: its players' kills and
    deaths add up to the same. *)
Lemma reachable_balanced ms : reachable ms → map_Forall (fun _ => balanced) ms.
Proof.
  induction 1 as [|ms ps uuid rnd now _ IH|ms mid now _ IH|ms mid x y _ IH
                 |ms mid x y Hreach IH|ms mid pid pos now Hreach IH|ms mid a t d _ IH
                 |ms mid k v now _ IH|ms mid p q _ IH|ms mid reason now _ IH
                 |ms mid _ IH].
  - apply map_Forall_empty.
  - apply all_balanced_insert; [done|apply (createMatch_balanced ms)].
  - unfold startMatch. destruct (ms !! mid) as [m|] eqn:Hm; [|done].
    apply all_balanced_insert; [done|]. by apply (balanced_same_players m), (IH _ _ Hm).
  - destruct (ms !! mid) as [m|] eqn:Hm.
    + rewrite (getTerrainType_eq ms mid m x y Hm).
      apply all_balanced_insert; [done|]. by apply (balanced_same_players m), (IH _ _ Hm).
    + unfold getTerrainType. by rewrite Hm.
  - destruct (ms !! mid) as [m|] eqn:Hm.
    + destruct (generateRoomData_exact ms mid m x y Hm
                  (reachable_all_exact ms Hreach mid m Hm)) as (m' & -> & _ & Hpl & _).
      apply all_balanced_insert; [done|]. by apply (balanced_same_players m), (IH _ _ Hm).
    + unfold generateRoomData. by rewrite Hm.
  - destruct (ms !! mid) as [m|] eqn:Hm; [|by unfold updatePlayerPosition; rewrite Hm].
    destruct (Js.omap_get pid (players m)) as [p|] eqn:Hp;
      [|by unfold updatePlayerPosition; rewrite Hm, Hp].
    destruct (updatePlayerPosition_spec ms mid m pid p pos now Hm Hp
                (reachable_all_exact ms Hreach mid m Hm)) as (m' & -> & Hpl & _).
    cbn [snd]. apply all_balanced_insert; [done|].
    pose proof (IH _ _ Hm) as Hb. unfold balanced in *. rewrite Hpl.
    rewrite !(total_omap_set _ pid p) by done. cbn. lia.
  - unfold recordPlayerDamage. destruct (ms !! mid) as [m|] eqn:Hm; [|done].
    destruct (Js.omap_get a (players m)) as [att|] eqn:Ha; [|done].
    destruct (Js.omap_get t (players m)) as [tgt0|] eqn:Ht0; [|done].
    destruct (Js.omap_get t (Js.omap_set a _ _)) as [tgt|] eqn:Ht; [|done].
    cbn [snd]. apply all_balanced_insert; [done|].
    pose proof (IH _ _ Hm) as Hb. unfold balanced in *. cbn [players set_players].
    rewrite !(total_omap_set _ t tgt) by done.
    rewrite !(total_omap_set _ a att) by done. cbn. lia.
  - by apply recordPlayerKill_balanced.
  - unfold recordItemCollection. destruct (ms !! mid) as [m|] eqn:Hm; [|done].
    destruct (Js.omap_get p (players m)) as [pl|] eqn:Hp; [|done].
    cbn [snd]. apply all_balanced_insert; [done|].
    pose proof (IH _ _ Hm) as Hb. unfold balanced in *. cbn [players set_players].
    rewrite !(total_omap_set _ p pl) by done. cbn. lia.
  - unfold endMatch. destruct (ms !! mid) as [m|] eqn:Hm; [|done].
    apply all_balanced_insert; [done|]. by apply (balanced_same_players m), (IH _ _ Hm).
  - unfold reapMatch. intros k m Hk. apply lookup_delete_Some in Hk as [_ Hk].
    apply (IH _ _ Hk).
Qed.

(** The loop of [calculateMatchStats] adds one row per roster entry, in
    order, and adds each counter into its total. *)
Lemma stats_fold_rows start endOrNow entries : ∀ acc,
  let st := fold_left (statsStep start endOrNow) entries acc in
  ps_playerId <$> playerStats st = (ps_playerId <$> playerStats acc) ++ entries.*1 ∧
  ps_kills <$> playerStats st
  = (ps_kills <$> playerStats acc) ++ ((fun e => kills e.2) <$> entries) ∧
  ps_deaths <$> playerStats st
  = (ps_deaths <$> playerStats acc) ++ ((fun e => deaths e.2) <$> entries) ∧
  ps_itemsCollected <$> playerStats st
  = (ps_itemsCollected <$> playerStats acc) ++ ((fun e => itemsCollected e.2) <$> entries) ∧
  ps_roomsExplored <$> playerStats st
  = (ps_roomsExplored <$> playerStats acc)
      ++ ((fun e => Z.of_nat (size (roomsExplored e.2))) <$> entries) ∧
  totalKills st = totalKills acc + total kills entries ∧
  totalDeaths st = totalDeaths acc + total deaths entries ∧
  totalItemsCollected st = totalItemsCollected acc + total itemsCollected entries.
Proof.
  induction entries as [|[pid p] entries IH]; intros acc.
  - cbn. rewrite !app_nil_r. unfold total, sumZ. cbn. split_and!; try done; lia.
  - cbn [fold_left]. cbv zeta.
    specialize (IH (statsStep start endOrNow acc (pid, p))). cbv zeta in IH.
    destruct IH as (H1 & H2 & H3 & H4 & H5 & H6 & H7 & H8).
    rewrite H1, H2, H3, H4, H5, H6, H7, H8.
    unfold statsStep.
    cbn [playerStats totalKills totalDeaths totalItemsCollected].
    rewrite !fmap_app, <- !app_assoc. cbn [fmap list_fmap app fst snd].
    cbn [ps_playerId ps_kills ps_deaths ps_itemsCollected ps_roomsExplored].
    unfold total, sumZ. cbn [fmap list_fmap foldr snd].
    split_and!; try done; lia.
Qed.

(** The statistics hold one row per player, in roster order, with the
    player's counters, and the match totals are the sums of the rows. *)
Theorem stats_rows_and_totals (m : MatchState) now :
  let st := calculateMatchStats m now in
  ps_playerId <$> playerStats st = (players m).*1 ∧
  ps_kills <$> playerStats st = (fun e => kills e.2) <$> players m ∧
  ps_deaths <$> playerStats st = (fun e => deaths e.2) <$> players m ∧
  ps_itemsCollected <$> playerStats st = (fun e => itemsCollected e.2) <$> players m ∧
  ps_roomsExplored <$> playerStats st
  = (fun e => Z.of_nat (size (roomsExplored e.2))) <$> players m ∧
  totalKills st = sumZ (ps_kills <$> playerStats st) ∧
  totalDeaths st = sumZ (ps_deaths <$> playerStats st) ∧
  totalItemsCollected st = sumZ (ps_itemsCollected <$> playerStats st).
Proof.
  cbv zeta. unfold calculateMatchStats.
  destruct (stats_fold_rows (startTime m) (Js.or_undef_num (endTime m) now)
              (players m) statsInit) as (H1 & H2 & H3 & H4 & H5 & H6 & H7 & H8).
  rewrite H1, H2, H3, H4, H5, H6, H7, H8. cbn. unfold total. split_and!; try done; lia.
Qed.

(** In the statistics of every match of a reachable table the total of
    kills equals the total of deaths. *)
Theorem total_kills_equal_total_deaths (ms : Matches) mid m now :
  reachable ms → ms !! mid = Some m →
  totalKills (calculateMatchStats m now) = totalDeaths (calculateMatchStats m now).
Proof.
  intros Hreach Hm. pose proof (reachable_balanced ms Hreach mid m Hm) as Hb.
  unfold calculateMatchStats.
  destruct (stats_fold_rows (startTime m) (Js.or_undef_num (endTime m) now)
              (players m) statsInit) as (_ & _ & _ & _ & _ & H6 & H7 & _).
  rewrite H6, H7. cbn. exact (f_equal (Z.add 0) Hb).
Qed.

(** The match of [createTestMatch], with its four players, two kills and
    two deaths, is one the match manager's operations produce. *)
Lemma createTestMatch_reachable : reachable (createTestMatch ∅ "m-test" 7 1000).
Proof.
  unfold createTestMatch. cbv zeta.
  apply reach_recordPlayerKill, reach_recordPlayerDamage, reach_recordPlayerDamage.
  apply reach_recordPlayerKill, reach_recordPlayerDamage, reach_recordPlayerDamage.
  do 3 apply reach_recordItemCollection.
  do 5 apply reach_updatePlayerPosition.
  apply reach_startMatch, reach_createMatch, reach_empty.
Qed.

Lemma total_kills_equal_total_deaths_witness :
  totalKills (calculateMatchStats StatsInv.playedMatch 301000)
  = totalDeaths (calculateMatchStats StatsInv.playedMatch 301000) ∧
  totalKills (calculateMatchStats StatsInv.playedMatch 301000) = 2.
Proof.
  split; [|vm_compute; reflexivity].
  apply (total_kills_equal_total_deaths (createTestMatch ∅ "m-test" 7 1000) "m-test"
                                        StatsInv.playedMatch 301000).
  - apply createTestMatch_reachable.
  - vm_compute. reflexivity.
Defined.

Lemma first_maximum_all key rows w :
  first_maximum key rows w → Forall (fun r => key r ≤ key w) rows.
Proof.
  intros (before & after & -> & Hb & Ha).
  apply Forall_app. split; [|apply Forall_cons; split; [lia|done]].
  eapply Forall_impl; [exact Hb|]. cbn. intros. lia.
Qed.

Lemma award_inv_step key rows mx aw r :
  0 ≤ key r → award_inv key rows mx aw →
  award_inv key (rows ++ [r]) (if mx <? key r then key r else mx)
            (if mx <? key r then Some r else aw).
Proof.
  intros Hr Hinv. destruct (Z.ltb_spec mx (key r)) as [Hlt|Hge].
  - split; [done|]. exists rows, []. split_and!; [done| |done].
    destruct aw as [w|].
    + destruct Hinv as [-> Hw]. apply first_maximum_all in Hw.
      eapply Forall_impl; [exact Hw|]. cbn. intros. lia.
    + destruct Hinv as [-> _]. done.
  - destruct aw as [w|].
    + destruct Hinv as [-> (before & after & -> & Hb & Ha)].
      split; [done|]. exists before, (after ++ [r]).
      split_and!; [by rewrite <- app_assoc|done|].
      apply Forall_app. split; [done|]. by apply Forall_singleton.
    + destruct Hinv as [_ ->]. lia.
Qed.

Lemma stats_fold_awards start endOrNow entries : ∀ acc,
  Forall (fun e : string * PlayerState => 0 ≤ itemsCollected e.2) entries →
  award_inv ps_roomsExplored (playerStats acc) (maxExploration acc)
            (mostExplorativePlayer acc) →
  award_inv ps_itemsCollected (playerStats acc) (maxItems acc) (mostCollectorPlayer acc) →
  let st := fold_left (statsStep start endOrNow) entries acc in
  award_inv ps_roomsExplored (playerStats st) (maxExploration st)
            (mostExplorativePlayer st) ∧
  award_inv ps_itemsCollected (playerStats st) (maxItems st) (mostCollectorPlayer st).
Proof.
  induction entries as [|[pid p] entries IH]; intros acc Hitems He Hi; [done|].
  apply Forall_cons in Hitems as [Hp Hitems]. cbn [snd] in Hp.
  cbn [fold_left]. apply IH; [done| |].
  - unfold statsStep.
    cbn [playerStats maxExploration mostExplorativePlayer].
    match goal with
    | |- award_inv _ (_ ++ [?row]) _ _ =>
        apply (award_inv_step ps_roomsExplored _ _ _ row); [cbn; lia|done]
    end.
  - unfold statsStep.
    cbn [playerStats maxItems mostCollectorPlayer].
    match goal with
    | |- award_inv _ (_ ++ [?row]) _ _ =>
        apply (award_inv_step ps_itemsCollected _ _ _ row); [done|done]
    end.
Qed.

(** With at least one player, the exploration award goes to the first
    player, in roster order, who explored the most rooms; with item
    counters that are not negative, the collector award goes to the first
    player who collected the most items. *)
Theorem awards_go_to_first_maximum (m : MatchState) now :
  players m ≠ [] →
  Forall (fun e : string * PlayerState => 0 ≤ itemsCollected e.2) (players m) →
  let st := calculateMatchStats m now in
  (∃ w, mostExplorativePlayer st = Some w ∧
        first_maximum ps_roomsExplored (playerStats st) w) ∧
  (∃ w, mostCollectorPlayer st = Some w ∧
        first_maximum ps_itemsCollected (playerStats st) w).
Proof.
  intros Hne Hitems st.
  destruct (stats_fold_awards (startTime m) (Js.or_undef_num (endTime m) now)
              (players m) statsInit Hitems) as [He Hi]; [by split|by split|].
  fold (calculateMatchStats m now) in He, Hi. fold st in He, Hi.
  assert (Hrows : playerStats st ≠ []).
  { intros Hnil.
    destruct (stats_fold_rows (startTime m) (Js.or_undef_num (endTime m) now)
                (players m) statsInit) as (H1 & _).
    fold (calculateMatchStats m now) in H1. fold st in H1. rewrite Hnil in H1. cbn in H1.
    destruct (players m); [done|discriminate H1]. }
  split.
  - destruct (mostExplorativePlayer st) as [w|]; [|by destruct He].
    exists w. split; [done|apply He].
  - destruct (mostCollectorPlayer st) as [w|]; [|by destruct Hi].
    exists w. split; [done|apply Hi].
Qed.

Lemma awards_go_to_first_maximum_witness :
  (∃ w, mostExplorativePlayer (calculateMatchStats StatsInv.playedMatch 301000) = Some w ∧
        first_maximum ps_roomsExplored
                      (playerStats (calculateMatchStats StatsInv.playedMatch 301000)) w ∧
        ps_playerId w = "test1" ∧ ps_roomsExplored w = 3) ∧
  (∃ w, mostCollectorPlayer (calculateMatchStats StatsInv.playedMatch 301000) = Some w ∧
        first_maximum ps_itemsCollected
                      (playerStats (calculateMatchStats StatsInv.playedMatch 301000)) w ∧
        ps_playerId w = "test1" ∧ ps_itemsCollected w = 8) ∧
  (ps_roomsExplored <$> playerStats (calculateMatchStats StatsInv.playedMatch 301000))
  = [3; 2; 0; 0].
Proof.
  destruct (awards_go_to_first_maximum StatsInv.playedMatch 301000)
    as [(w & Hw & Hfirst) (v & Hv & Hvfirst)].
  - intros Hnil. vm_compute in Hnil. discriminate Hnil.
  - vm_compute. repeat constructor; discriminate.
  - split_and!; [exists w|exists v|vm_compute; reflexivity].
    + split_and!; [exact Hw|exact Hfirst|..];
        vm_compute in Hw; injection Hw as <-; reflexivity.
    + split_and!; [exact Hv|exact Hvfirst|..];
        vm_compute in Hv; injection Hv as <-; reflexivity.
Defined.

End RosterFacts.

(** * The anti-cheat records *)
Section AuthorityFacts.
Import ServerAuthority Runs AuthInv.

Lemma flag_one_more a pid vt now :
  one_violation_more a (flagSuspiciousActivity a pid vt now).2 pid.
Proof.
  unfold one_violation_more, violationCount. rewrite flag_count, flag_actions.
  split_and!; try done.
  - intros q Hq. unfold flagSuspiciousActivity. cbn.
    repeat (case_match; cbn); by rewrite lookup_insert_ne.
  - unfold flagSuspiciousActivity. cbn. repeat (case_match; cbn); reflexivity.
Qed.


(** A refused attack changes no player and logs exactly one violation for
    the attacker; an accepted one goes through [recordPlayerAction]. *)
Theorem refused_attack_is_logged a ps att tgt ts rnd5 now :
  match validateCombatAction a ps att tgt ts rnd5 now with
  | (Some _, _, a') => a' = recordPlayerAction a att COMBAT now
  | (None, ps', a') => ps' = ps ∧ one_violation_more a a' att
  end.
Proof.
  unfold validateCombatAction.
  destruct (ps !! att) as [c|] eqn:Hc; [|split; [done|apply flag_one_more]].
  destruct (ps !! tgt) as [t|] eqn:Ht; [|split; [done|apply flag_one_more]].
  destruct (health (gameState c) <=? 0); [split; [done|apply flag_one_more]|].
  destruct (Js.lt _ _); [split; [done|apply flag_one_more]|].
  destruct (distance_gt _ _); [split; [done|apply flag_one_more]|].
  unfold applyCombatDamage. rewrite Hc, Ht.
  destruct (decide (att = tgt)) as [->|Hne].
  - by rewrite lookup_insert_eq.
  - by rewrite lookup_insert_ne, Ht.
Qed.

Lemma validateCombatAction_outcome a ps att tgt ts rnd5 now res ps' a' c t :
  validateCombatAction a ps att tgt ts rnd5 now = (Some res, ps', a') →
  ps !! att = Some c → ps !! tgt = Some t →
  (∀ p, p ≠ att → p ≠ tgt → ps' !! p = ps !! p) ∧
  ∃ c' t', ps' !! att = Some c' ∧ ps' !! tgt = Some t' ∧
    lastAttackTime (gameState c') = ts ∧
    (att ≠ tgt → health (gameState c') = health (gameState c) ∧
                 alive (gameState c') = alive (gameState c)) ∧
    health (gameState t') = newHealth res ∧
    newHealth res = Z.max 0 (health (gameState t) - res_damage res) ∧
    if isDead res then
      newHealth res = 0 ∧ alive (gameState t') = false ∧ status t' = "dead" ∧
      deathTime (gameState t') = Some ts ∧ killedBy (gameState t') = Some att ∧
      kills (gameState c') = Js.or_num (kills (gameState c)) 0 + 1
    else
      0 < newHealth res ∧ alive (gameState t') = alive (gameState t) ∧
      status t' = status t ∧ kills (gameState c') = kills (gameState c).
Proof.
  intros Hv Hc Ht.
  pose proof (validateCombatAction_cases a ps att tgt ts rnd5 now) as Hcases.
  rewrite Hv in Hcases. destruct Hcases as (c0 & t0 & Hc0 & Ht0 & _ & _ & Happ & _).
  rewrite Hc in Hc0. rewrite Ht in Ht0. injection Hc0 as <-. injection Ht0 as <-.
  clear Hv. unfold applyCombatDamage in Happ. rewrite Hc, Ht in Happ.
  unfold handlePlayerDeath in Happ.
  destruct (decide (att = tgt)) as [Heq|Hne].
  - subst tgt. rewrite Hc in Ht. injection Ht as <-.
    rewrite lookup_insert_eq in Happ. cbn in Happ.
    destruct (Z.leb_spec (Z.max 0 (health (gameState c) - calculateDamage c c rnd5)) 0)
      as [Hd|Hd].
    + rewrite !lookup_insert_eq in Happ. injection Happ as <- <-. cbn.
      split; [intros p Hp _; by rewrite !lookup_insert_ne|].
      rewrite lookup_insert_eq. eexists _, _. split_and!; try done; lia.
    + injection Happ as <- <-. cbn.
      split; [intros p Hp _; by rewrite !lookup_insert_ne|].
      rewrite lookup_insert_eq. eexists _, _. split_and!; try done; lia.
  - rewrite lookup_insert_ne, Ht in Happ by done. cbn in Happ.
    destruct (Z.leb_spec (Z.max 0 (health (gameState t) - calculateDamage c t rnd5)) 0)
      as [Hd|Hd].
    + rewrite lookup_insert_eq in Happ.
      rewrite lookup_insert_ne, lookup_insert_ne, lookup_insert_eq in Happ by done.
      injection Happ as <- <-. cbn.
      split; [intros p Hp Hp'; by rewrite !lookup_insert_ne|].
      rewrite lookup_insert_eq, lookup_insert_ne, lookup_insert_eq by done.
      eexists _, _. split_and!; try done; lia.
    + injection Happ as <- <-. cbn.
      split; [intros p Hp Hp'; by rewrite !lookup_insert_ne|].
      rewrite lookup_insert_eq, lookup_insert_ne, lookup_insert_eq by done.
      eexists _, _. split_and!; try done; lia.
Qed.

(** What an accepted attack does: only attacker and target change; the
    attacker's cooldown starts; the target's health drops to
    [max 0 (health - damage)]; and exactly when that is 0 the target is
    marked dead (not alive, status, time of death, killer) and the
    attacker's kill counter goes up by one. *)
Theorem accepted_attack_outcome a ps att tgt ts rnd5 now res ps' a' c t :
  validateCombatAction a ps att tgt ts rnd5 now = (Some res, ps', a') →
  ps !! att = Some c → ps !! tgt = Some t →
  (∀ p, p ≠ att → p ≠ tgt → ps' !! p = ps !! p) ∧
  ∃ c' t', ps' !! att = Some c' ∧ ps' !! tgt = Some t' ∧
    lastAttackTime (gameState c') = ts ∧
    (att ≠ tgt → health (gameState c') = health (gameState c) ∧
                 alive (gameState c') = alive (gameState c)) ∧
    health (gameState t') = newHealth res ∧
    newHealth res = Z.max 0 (health (gameState t) - res_damage res) ∧
    if isDead res then
      newHealth res = 0 ∧ alive (gameState t') = false ∧ status t' = "dead" ∧
      deathTime (gameState t') = Some ts ∧ killedBy (gameState t') = Some att ∧
      kills (gameState c') = Js.or_num (kills (gameState c)) 0 + 1
    else
      0 < newHealth res ∧ alive (gameState t') = alive (gameState t) ∧
      status t' = status t ∧ kills (gameState c') = kills (gameState c).
Proof. apply validateCombatAction_outcome. Qed.

Lemma accepted_attack_outcome_witness :
  ∃ t', (validateCombatAction noAuthority (GameServer.players duel) "a" "b"
                              (Js.Num 2000) 2 2000).1.2
          !! "b" = Some t' ∧
        health (gameState t') = 80 ∧ alive (gameState t') = true.
Proof.
  destruct (accepted_attack_outcome noAuthority (GameServer.players duel) "a" "b"
              (Js.Num 2000) 2 2000
              {| res_attackerId := "a"; res_targetId := "b"; res_damage := 20;
                 oldHealth := 100; newHealth := 80; isDead := false;
                 res_timestamp := Js.Num 2000 |}
              (validateCombatAction noAuthority (GameServer.players duel)
                                    "a" "b" (Js.Num 2000) 2 2000).1.2
              (validateCombatAction noAuthority (GameServer.players duel)
                                    "a" "b" (Js.Num 2000) 2 2000).2
              (GameServer.set_status "connected" 1000
                 (GameServer.newConnection "lobby" "a" "Ann" 1000))
              (GameServer.set_status "connected" 1000
                 (GameServer.newConnection "lobby" "b" "Bob" 1000)))
    as (_ & c' & t' & _ & Ht' & _ & _ & Hh & _ & _ & Halive & _).
  - vm_compute. reflexivity.
  - vm_compute. reflexivity.
  - vm_compute. reflexivity.
  - exists t'. split; [exact Ht'|]. split; [exact Hh|exact Halive].
Defined.

Lemma flag_log_ok a pid vt now : log_ok a → log_ok (flagSuspiciousActivity a pid vt now).2.
Proof.
  intros Hok. unfold log_ok, flagSuspiciousActivity. cbn.
  assert (Hins : map_Forall
                   (fun _ log => count log = Z.of_nat (length (violations log)))
                   (<[pid := {| violations :=
                                  violations (default {| violations := []; count := 0 |}
                                                      (suspiciousPlayers a !! pid))
                                  ++ [{| vio_type := vt; vio_timestamp := now |}];
                                count :=
                                  count (default {| violations := []; count := 0 |}
                                                 (suspiciousPlayers a !! pid)) + 1 |}]>
                      (suspiciousPlayers a))).
  { apply map_Forall_insert_2; [|done]. cbn. rewrite length_app. cbn.
    destruct (suspiciousPlayers a !! pid) as [log|] eqn:Hlog; cbn.
    - rewrite (Hok _ _ Hlog). lia.
    - lia. }
  repeat (case_match; cbn); exact Hins.
Qed.

Lemma recordPlayerAction_log_ok a pid at_ now :
  log_ok a → log_ok (recordPlayerAction a pid at_ now).
Proof.
  intros Hok. unfold recordPlayerAction, checkActionFrequency.
  case_match; [apply flag_log_ok|]; exact Hok.
Qed.

Lemma cleanup_log_ok a now : log_ok (cleanup a now).
Proof.
  unfold log_ok, cleanup. cbn. intros pid log. rewrite lookup_omap.
  destruct (suspiciousPlayers a !! pid) as [l0|]; cbn; [|done].
  case_decide; [done|]. by intros [= <-].
Qed.

(** The counter of every violation record is the number of violations it
    lists: the validation functions keep it so, and [cleanup] makes it so. *)
Theorem violation_counters_match_logs a ps pid fromPos toPos att tgt ts pd rnd5 now :
  log_ok a →
  log_ok (validateMovement a pid fromPos toPos ts pd now).2 ∧
  log_ok (validateCombatAction a ps att tgt ts rnd5 now).2 ∧
  log_ok (cleanup a now).
Proof.
  intros Hok. split_and!.
  - unfold validateMovement.
    repeat (case_match; cbn [snd]);
      first [by apply flag_log_ok | by apply recordPlayerAction_log_ok].
  - unfold validateCombatAction.
    repeat (case_match; cbn [snd]);
      first [by apply flag_log_ok | by apply recordPlayerAction_log_ok | done].
  - apply cleanup_log_ok.
Qed.

Lemma violation_counters_match_logs_witness :
  log_ok (validateMovement noAuthority "p1" (pt 0 0) (pt 2000 0) (Js.Num 6000)
            {| lastMoveTime := Some (Js.Num 5000); lastValidPosition := None |} 6000).2.
Proof.
  destruct (violation_counters_match_logs noAuthority ∅ "p1" (pt 0 0) (pt 2000 0)
              "p1" "p2" (Js.Num 6000)
              {| lastMoveTime := Some (Js.Num 5000); lastValidPosition := None |}
              2 6000) as [H _].
  - apply map_Forall_empty.
  - exact H.
Defined.

Lemma filter_idem {A} (P : A → Prop) `{∀ x, Decision (P x)} (l : list A) :
  filter P (filter P l) = filter P l.
Proof.
  induction l as [|x l IH]; [done|].
  rewrite (filter_cons P x l). case_decide as Hx; [|done].
  rewrite (filter_cons P x (filter P l)). case_decide; [|done]. by rewrite IH.
Qed.

(** [cleanup] keeps exactly what is newer than five minutes: afterwards no
    action and no violation on record is older, no record is empty, every
    action and violation that was newer is still on record, the items of
    the world are untouched, and a second [cleanup] at the same time
    changes nothing. *)
Theorem cleanup_keeps_recent a now :
  records_newer (now - 300000) (cleanup a now) ∧
  (∀ pid actions x,
     playerActions a !! pid = Some actions → x ∈ actions →
     now - 300000 < act_timestamp x →
     ∃ actions', playerActions (cleanup a now) !! pid = Some actions' ∧ x ∈ actions') ∧
  (∀ pid log v,
     suspiciousPlayers a !! pid = Some log → v ∈ violations log →
     now - 300000 < vio_timestamp v →
     ∃ log', suspiciousPlayers (cleanup a now) !! pid = Some log' ∧ v ∈ violations log') ∧
  gameItems (cleanup a now) = gameItems a ∧
  cleanup (cleanup a now) now = cleanup a now.
Proof.
  split_and!.
  - split.
    + intros pid actions. unfold cleanup. cbn. rewrite lookup_omap.
      destruct (playerActions a !! pid) as [l0|]; cbn; [|done].
      case_decide as Hne; [done|]. intros [= <-]. split; [done|].
      apply Forall_forall. intros x Hx. by apply list_elem_of_filter in Hx as [? _].
    + intros pid log. unfold cleanup. cbn. rewrite lookup_omap.
      destruct (suspiciousPlayers a !! pid) as [l0|]; cbn; [|done].
      case_decide as Hne; [done|]. intros [= <-]. cbn. split; [done|].
      apply Forall_forall. intros x Hx. by apply list_elem_of_filter in Hx as [? _].
  - intros pid actions x Hpid Hx Hrecent. unfold cleanup. cbn.
    rewrite lookup_omap, Hpid. cbn.
    assert (Hin : x ∈ filter (fun action => now - 300000 < act_timestamp action) actions)
      by (by apply list_elem_of_filter).
    case_decide as Hnil; [rewrite Hnil in Hin; by apply not_elem_of_nil in Hin|].
    eauto.
  - intros pid log v Hpid Hv Hrecent. unfold cleanup. cbn.
    rewrite lookup_omap, Hpid. cbn.
    assert (Hin : v ∈ filter (fun v => now - 300000 < vio_timestamp v) (violations log))
      by (by apply list_elem_of_filter).
    case_decide as Hnil; [rewrite Hnil in Hin; by apply not_elem_of_nil in Hin|].
    eauto.
  - done.
  - unfold cleanup. cbn. f_equal.
    + apply map_eq. intros pid. rewrite !lookup_omap.
      destruct (playerActions a !! pid) as [l0|]; cbn; [|done].
      case_decide as Hne; cbn; [done|]. rewrite filter_idem. by case_decide.
    + apply map_eq. intros pid. rewrite !lookup_omap.
      destruct (suspiciousPlayers a !! pid) as [l0|]; cbn; [|done].
      case_decide as Hne; cbn; [done|]. rewrite filter_idem. by case_decide.
Qed.

End AuthorityFacts.

(** * The item system *)
Section ItemFacts.
Import ServerAuthority Runs AuthInv Inventory.

Lemma omap_get_None_keys {K V} `{EqDecision K} (k : K) (m : list (K * V)) :
  Js.omap_get k m = None ↔ k ∉ m.*1.
Proof.
  induction m as [|[k0 v0] m IH]; cbn.
  - split; [intros _; apply not_elem_of_nil|done].
  - case_decide as Hk.
    + subst k0. split; [done|]. intros Hn. exfalso. apply Hn, list_elem_of_here.
    + rewrite IH, not_elem_of_cons. tauto.
Qed.

Lemma omap_set_fresh {K V} `{EqDecision K} (k : K) (v : V) (m : list (K * V)) :
  Js.omap_get k m = None → Js.omap_set k v m = m ++ [(k, v)].
Proof.
  induction m as [|[k0 v0] m IH]; cbn; [done|].
  case_decide; [done|]. intros Hg. by rewrite IH.
Qed.

Lemma find_first {A} (f : A → bool) (l : list A) x :
  List.find f l = Some x →
  ∃ i, l !! i = Some x ∧ f x = true ∧ ∀ j y, (j < i)%nat → l !! j = Some y → f y = false.
Proof.
  induction l as [|a l IH]; cbn; [done|].
  destruct (f a) eqn:Ha.
  - intros [= ->]. exists 0%nat. split_and!; [done|done|]. intros j y Hj. lia.
  - intros Hf. destruct (IH Hf) as (i & Hi & Hx & Hmin).
    exists (S i). split_and!; [done|done|].
    intros [|j] y Hj; cbn.
    + by intros [= <-].
    + apply Hmin. lia.
Qed.

(** The slot search of [pickupItem]: the lowest free slot, which exists
    whenever the inventory holds fewer than 20 items. *)
Lemma firstEmptySlot_spec inv :
  inv_ok inv → (length (inv_items inv) < 20)%nat →
  ∃ slot, firstEmptySlot inv = Some slot ∧ 0 ≤ slot < 20 ∧
          Js.omap_get slot (inv_items inv) = None ∧
          ∀ k, 0 ≤ k < slot → is_Some (Js.omap_get k (inv_items inv)).
Proof.
  intros (Hmax & Hnd & Hrange) Hlen. unfold firstEmptySlot. rewrite Hmax.
  destruct (List.find _ (seqZ 0 20)) as [slot|] eqn:Hfind.
  - apply find_first in Hfind as (i & Hi & Hfree & Hmin).
    apply lookup_seqZ in Hi as [-> Hi].
    exists (0 + Z.of_nat i). split_and!; try done; try lia.
    + apply negb_true_iff, bool_decide_eq_false in Hfree.
      destruct (Js.omap_get _ _) eqn:Hg; [|done]. exfalso. by apply Hfree.
    + intros k Hk. specialize (Hmin (Z.to_nat k) k).
      rewrite lookup_seqZ_lt in Hmin by lia.
      assert (Hf : negb (bool_decide (is_Some (Js.omap_get k (inv_items inv)))) = false).
      { apply Hmin; [lia|]. f_equal. lia. }
      by apply negb_false_iff, bool_decide_eq_true in Hf.
  - exfalso.
    assert (Hall : ∀ x, x ∈ seqZ 0 20 → x ∈ (inv_items inv).*1).
    { intros x Hx. apply list_elem_of_In in Hx.
      pose proof (List.find_none _ _ Hfind x Hx) as Hf. cbv beta in Hf.
      apply negb_false_iff, bool_decide_eq_true in Hf.
      destruct (decide (x ∈ (inv_items inv).*1)) as [|Hn]; [done|].
      apply omap_get_None_keys in Hn. rewrite Hn in Hf. by destruct Hf. }
    pose proof (submseteq_length _ _ (NoDup_submseteq _ _ (NoDup_seqZ 0 20) Hall)) as Hle.
    rewrite length_seqZ, length_fmap in Hle. lia.
Qed.

Lemma omap_get_NoDup {K V} `{EqDecision K} (k : K) (v : V) (m : list (K * V)) :
  NoDup m.*1 → (k, v) ∈ m → Js.omap_get k m = Some v.
Proof.
  induction m as [|[k0 v0] m IH]; cbn; intros Hnd Hin.
  - by apply not_elem_of_nil in Hin.
  - apply NoDup_cons in Hnd as [Hk0 Hnd].
    apply elem_of_cons in Hin as [[= -> ->]|Hin].
    + by case_decide.
    + case_decide as Hk; [|by apply IH].
      subst k0. exfalso. apply Hk0. apply list_elem_of_fmap. by exists (k, v).
Qed.

Lemma initializePlayerInventory_spec invs pid :
  invs_ok invs →
  let inv0 := (initializePlayerInventory invs pid).1 in
  let invs1 := (initializePlayerInventory invs pid).2 in
  inv_ok inv0 ∧ invs_ok invs1 ∧ invs1 !! pid = Some inv0.
Proof.
  intros Hok. unfold initializePlayerInventory.
  destruct (invs !! pid) as [inv|] eqn:Hinv; cbn.
  - split_and!; [by apply (Hok pid)|done|done].
  - assert (Hfresh : inv_ok {| inv_playerId := pid; inv_items := []; equipped := ∅;
                               maxSlots := 20 |}).
    { split_and!; [done|apply NoDup_nil_2|apply Forall_nil_2]. }
    split_and!; [done| |by rewrite lookup_insert_eq].
    by apply map_Forall_insert_2.
Qed.

Lemma inv_ok_length inv : inv_ok inv → (length (inv_items inv) ≤ 20)%nat.
Proof.
  intros (_ & Hnd & Hrange).
  assert (Hall : ∀ x, x ∈ (inv_items inv).*1 → x ∈ seqZ 0 20).
  { intros x Hx. apply elem_of_seqZ.
    pose proof (proj1 (Forall_forall _ _) Hrange x Hx) as Hr. cbv beta in Hr. lia. }
  pose proof (submseteq_length _ _ (NoDup_submseteq _ _ Hnd Hall)) as Hle.
  by rewrite length_seqZ, length_fmap in Hle.
Qed.

Lemma pickupIntoEmptySlot_spec invs1 a pid inv0 it :
  inv_ok inv0 → (length (inv_items inv0) < 20)%nat →
  ∃ slot,
    pickupIntoEmptySlot invs1 a pid inv0 it
    = (PickedUp it slot,
       <[pid := set_items (inv_items inv0 ++ [(slot, it)]) inv0]> invs1,
       set_gameItems (delete (item_id it) (gameItems a)) a) ∧
    0 ≤ slot < 20 ∧
    Js.omap_get slot (inv_items inv0) = None ∧
    (∀ k, 0 ≤ k < slot → is_Some (Js.omap_get k (inv_items inv0))) ∧
    inv_ok (set_items (inv_items inv0 ++ [(slot, it)]) inv0).
Proof.
  intros Hok Hlen.
  destruct (firstEmptySlot_spec inv0 Hok Hlen) as (slot & Hslot & Hr & Hfree & Hmin).
  exists slot. unfold pickupIntoEmptySlot. rewrite Hslot, (omap_set_fresh _ _ _ Hfree).
  split_and!; try done; try lia.
  destruct Hok as (Hmax & Hnd & Hrange). split_and!; [done| |]; cbn.
  - rewrite fmap_app. apply NoDup_app. split_and!; [done| |apply NoDup_singleton].
    intros x Hx Hx'. cbn in Hx'. apply list_elem_of_singleton in Hx'. subst x.
    by apply omap_get_None_keys in Hfree.
  - rewrite fmap_app. apply Forall_app. split; [done|]. by apply Forall_singleton.
Qed.

Lemma pickupItem_spec invs a pid it :
  invs_ok invs →
  let inv0 := (initializePlayerInventory invs pid).1 in
  let res := pickupItem invs a pid it in
  invs_ok res.1.2 ∧
  match res.1.1 with
  | PickedUp it' slot =>
      it' = it ∧ 0 ≤ slot < 20 ∧
      Js.omap_get slot (inv_items inv0) = None ∧
      (∀ k, 0 ≤ k < slot → is_Some (Js.omap_get k (inv_items inv0))) ∧
      inv_items <$> res.1.2 !! pid = Some (inv_items inv0 ++ [(slot, it)]) ∧
      gameItems res.2 = delete (item_id it) (gameItems a)
  | Stacked st slot =>
      slot ≠ 0 ∧ stackable (item_type it) = true ∧
      ∃ old, Js.omap_get slot (inv_items inv0) = Some old ∧
             templateId old = templateId it ∧
             st = set_quantity (quantity old + quantity it) old ∧
             quantity st ≤ maxStack (item_type it) ∧
             inv_items <$> res.1.2 !! pid = Some (Js.omap_set slot st (inv_items inv0)) ∧
             gameItems res.2 = delete (item_id it) (gameItems a)
  | Failed reason =>
      reason = "Inventory full" ∧ length (inv_items inv0) = 20%nat ∧ res.2 = a ∧
      inv_items <$> res.1.2 !! pid = Some (inv_items inv0)
  | _ => False
  end.
Proof.
  intros Hok inv0 res.
  destruct (initializePlayerInventory_spec invs pid Hok) as (Hinv0 & Hok1 & Hpid).
  fold inv0 in Hinv0, Hpid. subst res. unfold pickupItem.
  destruct (initializePlayerInventory invs pid) as [inv0' invs1] eqn:Hinit.
  cbn [fst snd] in *. subst inv0.
  pose proof (inv_ok_length _ Hinv0) as Hlen.
  pose proof Hinv0 as (Hmax & Hnd & Hrange). rewrite Hmax.
  destruct (Z.leb_spec 20 (Z.of_nat (length (inv_items inv0')))) as [Hfull|Hroom].
  - cbn. split; [done|]. split_and!; [done|lia|done|by rewrite Hpid].
  - destruct (pickupIntoEmptySlot_spec invs1 a pid inv0' it Hinv0)
      as (slot & Heq & Hr & Hfree & Hmin & Hok'); [lia|].
    rewrite Heq. cbv zeta.
    assert (Hfresh :
      invs_ok (<[pid := set_items (inv_items inv0' ++ [(slot, it)]) inv0']> invs1) ∧
      it = it ∧ 0 ≤ slot < 20 ∧
      Js.omap_get slot (inv_items inv0') = None ∧
      (∀ k, 0 ≤ k < slot → is_Some (Js.omap_get k (inv_items inv0'))) ∧
      inv_items <$> <[pid := set_items (inv_items inv0' ++ [(slot, it)]) inv0']> invs1
                      !! pid = Some (inv_items inv0' ++ [(slot, it)]) ∧
      gameItems (set_gameItems (delete (item_id it) (gameItems a)) a)
      = delete (item_id it) (gameItems a)).
    { split; [by apply map_Forall_insert_2|].
      split_and!; try done; try lia. by rewrite lookup_insert_eq. }
    destruct (stackable (item_type it)) eqn:Hst; [|exact Hfresh].
    unfold findItemInInventory. rewrite Hpid.
    destruct (List.find _ (inv_items inv0')) as [[s old]|] eqn:Hfind;
      cbn [fmap option_fmap option_map fst]; [|exact Hfresh].
    destruct (Z.eqb_spec s 0) as [Hs0|Hs0]; [exact Hfresh|].
    apply List.find_some in Hfind as [Hin Htpl].
    apply list_elem_of_In in Hin. apply bool_decide_eq_true in Htpl. cbn in Htpl.
    rewrite (omap_get_NoDup s old _ Hnd Hin).
    destruct (Z.leb_spec (quantity old + quantity it) (maxStack (item_type it)))
      as [Hq|Hq]; [|exact Hfresh].
    cbn. split.
    + apply map_Forall_insert_2; [|done].
      split_and!; [done| |]; cbn;
        by rewrite (omap_set_keys s old _ _ (omap_get_NoDup s old _ Hnd Hin)).
    + split_and!; try done. exists old.
      split_and!; try done; [by apply omap_get_NoDup|by rewrite lookup_insert_eq].
Qed.

(** What [pickupItem] answers on well-formed inventories.  An inventory
    never grows beyond its 20 slots; the answer is never "No empty slots";
    a picked-up item goes to the lowest free slot; a stacked one goes onto
    an item of the same template in a slot other than 0, within the stack
    limit; in both cases the world entry under the item's [id] is deleted;
    a full inventory answers "Inventory full" and nothing changes. *)
Theorem pickupItem_outcome invs a pid it :
  invs_ok invs →
  let inv0 := (initializePlayerInventory invs pid).1 in
  let res := pickupItem invs a pid it in
  invs_ok res.1.2 ∧
  match res.1.1 with
  | PickedUp it' slot =>
      it' = it ∧ 0 ≤ slot < 20 ∧
      Js.omap_get slot (inv_items inv0) = None ∧
      (∀ k, 0 ≤ k < slot → is_Some (Js.omap_get k (inv_items inv0))) ∧
      inv_items <$> res.1.2 !! pid = Some (inv_items inv0 ++ [(slot, it)]) ∧
      gameItems res.2 = delete (item_id it) (gameItems a)
  | Stacked st slot =>
      slot ≠ 0 ∧ stackable (item_type it) = true ∧
      ∃ old, Js.omap_get slot (inv_items inv0) = Some old ∧
             templateId old = templateId it ∧
             st = set_quantity (quantity old + quantity it) old ∧
             quantity st ≤ maxStack (item_type it) ∧
             inv_items <$> res.1.2 !! pid = Some (Js.omap_set slot st (inv_items inv0)) ∧
             gameItems res.2 = delete (item_id it) (gameItems a)
  | Failed reason =>
      reason = "Inventory full" ∧ length (inv_items inv0) = 20%nat ∧ res.2 = a ∧
      inv_items <$> res.1.2 !! pid = Some (inv_items inv0)
  | _ => False
  end.
Proof. apply pickupItem_spec. Qed.

Lemma pickupItem_outcome_witness :
  invs_ok (pickupItem ∅ {| playerActions := ∅; suspiciousPlayers := ∅;
                           gameItems := {[ "health_potion_1" := healthPotion ]} |}
                      "p1" healthPotion).1.2.
Proof.
  destruct (pickupItem_outcome ∅ {| playerActions := ∅; suspiciousPlayers := ∅;
                                    gameItems := {[ "health_potion_1" := healthPotion ]} |}
              "p1" healthPotion) as [H _].
  - apply map_Forall_empty.
  - exact H.
Defined.

Lemma append_ne (s t : string) : t ≠ "" → s +:+ t ≠ s.
Proof.
  intros Ht. induction s as [|c s IH]; cbn; [done|].
  intros [= Heq]. by apply IH.
Qed.

Lemma itemDatabase_id tpl template : itemDatabase tpl = Some template → tpl_id template = tpl.
Proof.
  unfold itemDatabase. repeat case_decide; intros [= <-]; done.
Qed.

Lemma pickupItem_world invs a pid it :
  gameItems (pickupItem invs a pid it).2 = gameItems a ∨
  gameItems (pickupItem invs a pid it).2 = delete (item_id it) (gameItems a).
Proof.
  unfold pickupItem, pickupIntoEmptySlot.
  repeat (case_match; cbn [snd gameItems set_gameItems]); auto.
Qed.

Lemma flag_gameItems a pid vt now :
  gameItems (flagSuspiciousActivity a pid vt now).2 = gameItems a.
Proof. apply flag_one_more. Qed.

(** An item made by [spawnItem] lies in the world under the key
    [<template>_<counter>], but its own [id] is the template's, which is a
    different string; [pickupItem] deletes the world entry under the
    item's [id], so after any pickup request for the key, accepted or not,
    the item is still in the world under its key. *)
Theorem spawned_item_survives_pickup
    (dropItem : Inventories → Authority → Players → string → Item → Js.Timestamp →
                ItemOutcome * Inventories * Players * Authority)
    a counter tpl pos rnd5 it a1 counter' :
  spawnItem a counter tpl pos rnd5 = (Some it, a1, counter') →
  let key := tpl +:+ "_" +:+ pretty counter in
  findItemById a1 key = Some it ∧ item_id it = tpl ∧ item_id it ≠ key ∧
  ∀ invs ps pid ts now,
    findItemById (validateItemRequest dropItem invs a1 ps pid key act_pickup ts now).2 key
    = Some it.
Proof.
  unfold spawnItem. destruct (itemDatabase tpl) as [template|] eqn:Hdb; [|done].
  intros [= <- <- <-]. set (key := tpl +:+ "_" +:+ pretty counter).
  apply itemDatabase_id in Hdb.
  assert (Hne : tpl ≠ key) by (symmetry; by apply append_ne).
  unfold findItemById. cbn [gameItems set_gameItems item_id].
  split_and!; [by rewrite lookup_insert_eq|done|by rewrite Hdb|].
  intros invs ps pid ts now. unfold validateItemRequest, validateItemAction.
  set (it := {| item_id := tpl_id template; templateId := tpl;
                item_type := tpl_type template; item_position := pos;
                quantity := if stackable (tpl_type template) then rnd5 + 1 else 1;
                effects := tpl_effects template |}).
  set (a1 := set_gameItems (<[key := it]> (gameItems a)) a).
  assert (Hkey : gameItems a1 !! key = Some it) by apply lookup_insert_eq.
  destruct (ps !! pid) as [c|]; [|done].
  destruct (health (gameState c) <=? 0); cbn [snd]; [by rewrite flag_gameItems|].
  unfold findItemById. rewrite Hkey.
  destruct (distance_gt _ _); cbn [snd]; [by rewrite flag_gameItems|].
  unfold processItemAction.
  pose proof (pickupItem_world invs a1 pid it) as Hw.
  destruct (pickupItem invs a1 pid it) as [[r invs'] a'] eqn:Hp. cbn [snd] in Hw. cbn.
  destruct Hw as [-> | ->]; [done|].
  rewrite lookup_delete_ne; [done|]. subst it. cbn. by rewrite Hdb.
Qed.

Lemma spawned_item_survives_pickup_witness :
  findItemById
    (spawnItem noAuthority 1 "iron_sword" {| pos_x := 0; pos_y := 0 |} 2).1.2
    "iron_sword_1"
  = (spawnItem noAuthority 1 "iron_sword" {| pos_x := 0; pos_y := 0 |} 2).1.1.
Proof.
  destruct (spawned_item_survives_pickup
              ServerRun.dropRefused
              noAuthority 1 "iron_sword" {| pos_x := 0; pos_y := 0 |} 2
              {| item_id := "iron_sword"; templateId := "iron_sword"; item_type := WEAPON;
                 item_position := {| pos_x := 0; pos_y := 0 |}; quantity := 1;
                 effects := None |}
              (spawnItem noAuthority 1 "iron_sword" {| pos_x := 0; pos_y := 0 |} 2).1.2
              2) as (H & _).
  - vm_compute. reflexivity.
  - exact H.
Defined.

Lemma processItemAction_records dropItem invs ref a ps pid it kind ts :
  kind ≠ act_drop →
  let res := processItemAction dropItem invs ref a ps pid it kind ts in
  playerActions res.2 = playerActions a ∧ suspiciousPlayers res.2 = suspiciousPlayers a.
Proof.
  intros Hkind. unfold processItemAction, pickupItem, pickupIntoEmptySlot, useItem,
    equipItem, unequipItem.
  destruct kind; try done; repeat (case_match; cbn); simplify_eq; done.
Qed.

(** The records of an item request.  A refused one changes no inventory,
    no player and no world item, and logs exactly one violation for the
    requesting player; a request of a player without session changes
    nothing at all.  An accepted one (other than a drop) leaves the
    anti-cheat records alone: item actions do not enter the action
    history. *)
Theorem item_request_records
    (dropItem : Inventories → Authority → Players → string → Item → Js.Timestamp →
                ItemOutcome * Inventories * Players * Authority)
    invs a ps pid itemId kind ts now :
  let res := validateItemRequest dropItem invs a ps pid itemId kind ts now in
  match res.1.1.1 with
  | None =>
      res.1.1.2 = invs ∧ res.1.2 = ps ∧
      match ps !! pid with
      | None => res.2 = a
      | Some _ => one_violation_more a res.2 pid
      end
  | Some _ =>
      kind ≠ act_drop →
      playerActions res.2 = playerActions a ∧ suspiciousPlayers res.2 = suspiciousPlayers a
  end.
Proof.
  cbv zeta. unfold validateItemRequest, validateItemAction.
  destruct (ps !! pid) as [c|]; [|done].
  destruct (health (gameState c) <=? 0); cbn [fst snd];
    [split_and!; try done; apply flag_one_more|].
  destruct (findItemById a itemId) as [it|]; cbn [fst snd];
    [|split_and!; try done; apply flag_one_more].
  destruct (distance_gt _ _); cbn [fst snd];
    [split_and!; try done; apply flag_one_more|].
  pose proof (processItemAction_records dropItem invs itemId a ps pid it kind ts) as Hrec.
  destruct (processItemAction dropItem invs itemId a ps pid it kind ts)
    as [[[r invs'] ps'] a'].
  cbn [fst snd] in *. exact Hrec.
Qed.

(** A use request for a consumable that lies within 30 units of a living
    player who has an inventory is served: the item's effects are applied
    to the player (health capped at 100), no other player changes, and the
    item stays in the world under its key with its quantity lowered by
    one, but not below 0. *)
Theorem use_request_outcome
    (dropItem : Inventories → Authority → Players → string → Item → Js.Timestamp →
                ItemOutcome * Inventories * Players * Authority)
    invs a ps pid itemId ts now c inv it :
  ps !! pid = Some c → 0 < health (gameState c) →
  findItemById a itemId = Some it → item_type it = CONSUMABLE →
  distance_gt (calculateDistanceSq (position (gameState c)) (XY (item_position it)))
              (30, 1) = false →
  invs !! pid = Some inv →
  let res := validateItemRequest dropItem invs a ps pid itemId act_use ts now in
  let used := set_quantity (Z.max 0 (quantity it - 1)) it in
  res.1.1.1 = Some (Consumed used ts) ∧
  res.1.2 = <[pid := set_gameState (applyItemEffects (gameState c) it) c]> ps ∧
  health (applyItemEffects (gameState c) it) ≤ Z.max (health (gameState c)) maxHealth ∧
  findItemById res.2 itemId = Some used ∧
  0 ≤ quantity used.
Proof.
  intros Hc Hh Hit Hty Hd Hinv. cbv zeta.
  unfold validateItemRequest, validateItemAction. rewrite Hc.
  destruct (Z.leb_spec (health (gameState c)) 0) as [|_]; [lia|].
  rewrite Hit, Hd. unfold processItemAction, useItem. rewrite Hinv, Hc, Hty.
  unfold findItemById in *.
  assert (Hcap : health (applyItemEffects (gameState c) it)
                 ≤ Z.max (health (gameState c)) maxHealth).
  { unfold applyItemEffects. destruct (effects it) as [e|]; [|lia]. cbn.
    destruct (eff_health e) as [h|]; [|lia]. destruct (h =? 0); lia. }
  repeat (case_match; cbn [fst snd gameItems set_gameItems]);
    (split_and!; [done|done|exact Hcap| |cbn; lia]);
    by rewrite lookup_alter_eq, Hit.
Qed.

Lemma use_request_outcome_witness :
  (validateItemRequest
     ServerRun.dropRefused
     {[ "a" := {| inv_playerId := "a"; inv_items := []; equipped := ∅; maxSlots := 20 |} ]}
     {| playerActions := ∅; suspiciousPlayers := ∅;
        gameItems := {[ "health_potion_1" := healthPotion ]} |}
     (<[ "a" := GameServer.set_moved (pt 0 0) (Js.Num 1500)
                  (GameServer.set_status "connected" 1000
                     (GameServer.newConnection "lobby" "a" "Ann" 1000)) ]> ∅)
     "a" "health_potion_1" act_use (Js.Num 2000) 2000).1.1.1
  = Some (Consumed (set_quantity 0 healthPotion) (Js.Num 2000)).
Proof.
  destruct (use_request_outcome
     ServerRun.dropRefused
     {[ "a" := {| inv_playerId := "a"; inv_items := []; equipped := ∅; maxSlots := 20 |} ]}
     {| playerActions := ∅; suspiciousPlayers := ∅;
        gameItems := {[ "health_potion_1" := healthPotion ]} |}
     (<[ "a" := GameServer.set_moved (pt 0 0) (Js.Num 1500)
                  (GameServer.set_status "connected" 1000
                     (GameServer.newConnection "lobby" "a" "Ann" 1000)) ]> ∅)
     "a" "health_potion_1" (Js.Num 2000) 2000
     (GameServer.set_moved (pt 0 0) (Js.Num 1500)
        (GameServer.set_status "connected" 1000
           (GameServer.newConnection "lobby" "a" "Ann" 1000)))
     {| inv_playerId := "a"; inv_items := []; equipped := ∅; maxSlots := 20 |}
     healthPotion) as (H & _).
  - vm_compute. reflexivity.
  - vm_compute. reflexivity.
  - vm_compute. reflexivity.
  - reflexivity.
  - vm_compute. reflexivity.
  - vm_compute. reflexivity.
  - exact H.
Defined.

End ItemFacts.

(** * Runs of the server *)
Section ServerFacts.
Import ServerAuthority Runs AuthInv Inventory GameServer ServerRun.

Lemma same_sessions_refl ps : same_sessions ps ps.
Proof. done. Qed.

Lemma same_sessions_trans ps1 ps2 ps3 :
  same_sessions ps1 ps2 → same_sessions ps2 ps3 → same_sessions ps1 ps3.
Proof. intros H1 H2 pid. by rewrite H2, H1. Qed.

Lemma same_sessions_insert (ps : Players) pid c c' :
  ps !! pid = Some c → conn_matchId c' = conn_matchId c →
  same_sessions ps (<[pid := c']> ps).
Proof.
  intros Hc Hm q. destruct (decide (q = pid)) as [->|Hq].
  - by rewrite lookup_insert_eq, Hc; cbn; rewrite Hm.
  - by rewrite lookup_insert_ne.
Qed.

Lemma same_sessions_step (ps ps1 : Players) pid c c' :
  same_sessions ps ps1 → ps1 !! pid = Some c → conn_matchId c' = conn_matchId c →
  same_sessions ps (<[pid := c']> ps1).
Proof.
  intros H1 Hc Hm. eapply same_sessions_trans; [exact H1|].
  by apply (same_sessions_insert ps1 pid c).
Qed.

Lemma authority_handlePlayerDeath_same ps0 ps dead killer ts :
  same_sessions ps0 ps →
  same_sessions ps0 (ServerAuthority.handlePlayerDeath ps dead killer ts).
Proof.
  intros H0. unfold ServerAuthority.handlePlayerDeath.
  destruct (ps !! dead) as [d|] eqn:Hd.
  - destruct (_ !! killer) as [k|] eqn:Hk.
    + apply (same_sessions_step _ _ killer k); [|done|done].
      by apply (same_sessions_step _ _ dead d).
    + by apply (same_sessions_step _ _ dead d).
  - destruct (ps !! killer) as [k|] eqn:Hk; [|done].
    by apply (same_sessions_step _ _ killer k).
Qed.

Lemma validateCombatAction_same a ps att tgt ts rnd5 now :
  same_sessions ps (validateCombatAction a ps att tgt ts rnd5 now).1.2.
Proof.
  unfold validateCombatAction, applyCombatDamage.
  destruct (ps !! att) as [c|] eqn:Hc; [|done].
  destruct (ps !! tgt) as [t|] eqn:Ht; [|done].
  destruct (_ <=? 0); [done|]. destruct (Js.lt _ _); [done|].
  destruct (distance_gt _ _); [done|].
  destruct (<[att := _]> ps !! tgt) as [t1|] eqn:Ht1; [|done]. cbn [fst snd].
  assert (H2 : same_sessions ps
                 (<[tgt := set_gameState
                             (mark_hit (calculateDamage c t rnd5) ts (gameState t1)) t1]>
                    (<[att := set_gameState (mark_attack ts (gameState c)) c]> ps))).
  { apply (same_sessions_step _ _ tgt t1); [|done|done].
    by apply (same_sessions_step _ _ att c). }
  case_match; [by apply authority_handlePlayerDeath_same|done].
Qed.

Lemma handlePlayerDeath_same ps dead ts :
  same_sessions ps (GameServer.handlePlayerDeath ps dead ts).
Proof.
  unfold GameServer.handlePlayerDeath. destruct (ps !! dead) as [d|] eqn:Hd; [|done].
  by apply (same_sessions_insert ps dead d).
Qed.

Lemma updatePlayerStatus_same ps pid st now :
  same_sessions ps (updatePlayerStatus ps pid st now).
Proof.
  unfold updatePlayerStatus. destruct (ps !! pid) as [c|] eqn:Hc; [|done].
  by apply (same_sessions_insert ps pid c).
Qed.

Lemma handleAttackRequest_same s pid tgt ts rnd5 now :
  same_sessions (players s) (players (handleAttackRequest s pid tgt ts rnd5 now).2) ∧
  playersByMatch (handleAttackRequest s pid tgt ts rnd5 now).2 = playersByMatch s ∧
  matches (handleAttackRequest s pid tgt ts rnd5 now).2 = matches s ∧
  matchManager (handleAttackRequest s pid tgt ts rnd5 now).2 = matchManager s.
Proof.
  unfold handleAttackRequest. destruct (players s !! pid) as [c|]; [|done].
  destruct (alive (gameState c)); [|done]. cbn [negb].
  pose proof (validateCombatAction_same (serverAuthority s) (players s) pid tgt
                (Js.or_undef_time ts (Js.Num now)) rnd5 now) as Hsame.
  destruct (validateCombatAction _ _ _ _ _ _ _) as [[res ps'] a']. cbn [fst snd] in *.
  split_and!; try done.
  destruct res as [r|]; [|done]. destruct (isDead r); [|done].
  eapply same_sessions_trans; [exact Hsame|apply handlePlayerDeath_same].
Qed.

Lemma handleMoveRequest_same s pid pos ts now :
  same_sessions (players s) (players (handleMoveRequest s pid pos ts now).2) ∧
  playersByMatch (handleMoveRequest s pid pos ts now).2 = playersByMatch s ∧
  matches (handleMoveRequest s pid pos ts now).2 = matches s ∧
  matchManager (handleMoveRequest s pid pos ts now).2 = matchManager s.
Proof.
  unfold handleMoveRequest. destruct (players s !! pid) as [c|] eqn:Hc; [|done].
  destruct (alive (gameState c)); [|done]. cbn [negb].
  destruct (validateMovement _ _ _ _ _ _ _) as [[v|] a']; cbn [fst snd]; [|done].
  split_and!; try done. by apply (same_sessions_insert _ pid c).
Qed.

Lemma sessions_indexed_same s s' :
  same_sessions (players s) (players s') → playersByMatch s' = playersByMatch s →
  sessions_indexed s → sessions_indexed s'.
Proof.
  intros Hsame Hidx Hinv pid c' Hc'. specialize (Hsame pid). rewrite Hc' in Hsame.
  destruct (players s !! pid) as [c|] eqn:Hc; [|done].
  cbn in Hsame. injection Hsame as Hm. rewrite Hm, Hidx. by apply Hinv.
Qed.

Lemma handlePlayerDisconnection_indexed s pid :
  sessions_indexed s → index_nonempty s →
  sessions_indexed (handlePlayerDisconnection s pid) ∧
  index_nonempty (handlePlayerDisconnection s pid).
Proof.
  intros Hidx Hne. unfold handlePlayerDisconnection.
  destruct (players s !! pid) as [c|] eqn:Hc; [|done].
  destruct (playersByMatch s !! conn_matchId c) as [ids|] eqn:Hids.
  - case_decide as Hsz.
    + apply size_empty_iff, leibniz_equiv in Hsz. split.
      * intros q c' Hq. cbn in *. apply lookup_delete_Some in Hq as [Hne' Hq].
        destruct (Hidx q c' Hq) as (ids' & Hids' & Hin).
        destruct (decide (conn_matchId c' = conn_matchId c)) as [Heq|Hneq].
        -- rewrite Heq, Hids in Hids'. injection Hids' as <-. set_solver.
        -- exists ids'. by rewrite lookup_delete_ne.
      * cbn. by apply map_Forall_delete.
    + split.
      * intros q c' Hq. cbn in *. apply lookup_delete_Some in Hq as [Hne' Hq].
        destruct (Hidx q c' Hq) as (ids' & Hids' & Hin).
        destruct (decide (conn_matchId c' = conn_matchId c)) as [Heq|Hneq].
        -- rewrite Heq, Hids in Hids'. injection Hids' as <-.
           exists (ids ∖ {[pid]}). rewrite Heq, lookup_insert_eq. split; [done|set_solver].
        -- exists ids'. by rewrite lookup_insert_ne.
      * cbn. apply map_Forall_insert_2; [|done].
        intros Hempty. apply Hsz. rewrite Hempty. apply size_empty.
  - split; [|done].
    intros q c' Hq. cbn in *. apply lookup_delete_Some in Hq as [Hne' Hq].
    by apply Hidx.
Qed.

Lemma handleNewConnection_indexed s mid pid uname uuid rnd now :
  sessions_indexed s → index_nonempty s →
  sessions_indexed (handleNewConnection s mid pid uname uuid rnd now) ∧
  index_nonempty (handleNewConnection s mid pid uname uuid rnd now).
Proof.
  intros Hidx Hne. unfold handleNewConnection, updatePlayerStatus.
  rewrite lookup_insert_eq, insert_insert_eq. split.
  - intros q c' Hq. cbn in *.
    destruct (decide (q = pid)) as [->|Hqp].
    + rewrite lookup_insert_eq in Hq. injection Hq as <-. cbn.
      rewrite lookup_insert_eq. eexists. split; [done|set_solver].
    + rewrite lookup_insert_ne in Hq by done.
      destruct (Hidx q c' Hq) as (ids' & Hids' & Hin).
      destruct (decide (conn_matchId c' = mid)) as [Heq|Hneq].
      * rewrite Heq in *. rewrite lookup_insert_eq, Hids'. cbn.
        eexists. split; [done|set_solver].
      * exists ids'. by rewrite lookup_insert_ne.
  - cbn. apply map_Forall_insert_2; [set_solver|done].
Qed.

Lemma cleanupInactivePlayers_indexed s now :
  sessions_indexed s → index_nonempty s →
  sessions_indexed (cleanupInactivePlayers s now) ∧
  index_nonempty (cleanupInactivePlayers s now).
Proof.
  intros Hidx Hne. unfold cleanupInactivePlayers.
  induction (map_to_list (players s)) as [|[q c] l IH]; cbn; [done|].
  destruct IH as [IH1 IH2].
  case_match; [by apply handlePlayerDisconnection_indexed|done].
Qed.

Lemma registry_ok_same s s' : same_registry s s' → registry_ok s → registry_ok s'.
Proof.
  intros (Hs & Hidx & Hm & Hmm) (H1 & H2 & H3 & H4).
  unfold registry_ok, index_nonempty, single_player_matches.
  rewrite Hidx, Hm, Hmm. split_and!; try done. by apply (sessions_indexed_same s).
Qed.

Lemma handlePing_same s pid now : same_registry s (handlePing s pid now).
Proof.
  unfold handlePing. destruct (players s !! pid) as [c|] eqn:Hc; [|done].
  split_and!; try done. by apply (same_sessions_insert _ pid c).
Qed.

Lemma handleStatusUpdate_same s pid st now : same_registry s (handleStatusUpdate s pid st now).
Proof.
  unfold handleStatusUpdate. case_match; [|done].
  split_and!; try done. apply updatePlayerStatus_same.
Qed.

Lemma handlePlayerReady_same s pid mid now : same_registry s (handlePlayerReady s pid mid now).
Proof.
  unfold handlePlayerReady. destruct (matches s !! mid); [|done].
  destruct (players s !! pid) as [c|] eqn:Hc; [|done].
  split_and!; try done. cbn.
  eapply same_sessions_trans; [|apply updatePlayerStatus_same].
  by apply (same_sessions_insert _ pid c).
Qed.

Lemma processItemAction_sessions dropItem invs ref a ps pid it kind ts :
  kind ≠ act_drop →
  same_sessions ps (processItemAction dropItem invs ref a ps pid it kind ts).1.2.
Proof.
  intros Hkind. unfold processItemAction, useItem.
  destruct kind; try done; repeat (case_match; cbn [fst snd]); simplify_eq; try done.
  all: match goal with
       | H : ?ps0 !! ?p = Some ?c |- same_sessions ?ps0 (<[?p := _]> ?ps0) =>
           by apply (same_sessions_insert ps0 p c)
       end.
Qed.

Lemma validateItemRequest_sessions dropItem invs a ps pid itemId kind ts now :
  kind ≠ act_drop →
  same_sessions ps (validateItemRequest dropItem invs a ps pid itemId kind ts now).1.2.
Proof.
  intros Hkind. unfold validateItemRequest, validateItemAction.
  destruct (ps !! pid) as [c|]; [|done].
  destruct (_ <=? 0); [done|]. destruct (findItemById a itemId) as [it|]; [|done].
  destruct (distance_gt _ _); [done|].
  pose proof (processItemAction_sessions dropItem invs itemId a ps pid it kind ts Hkind)
    as Hs.
  destruct (processItemAction _ _ _ _ _ _ _ _ _) as [[[r invs'] ps'] a']. exact Hs.
Qed.

Lemma handleItemAction_same dropItem w pid itemId kind ts now :
  kind ≠ act_drop →
  same_registry (server w) (server (handleItemAction dropItem w pid itemId kind ts now).2).
Proof.
  intros Hkind. unfold handleItemAction.
  destruct (players (server w) !! pid) as [c|]; [|done].
  destruct (alive (gameState c)); [|done]. cbn [negb].
  pose proof (validateItemRequest_sessions dropItem (inventories w)
                (serverAuthority (server w)) (players (server w)) pid itemId kind
                (Js.or_undef_time ts (Js.Num now)) now Hkind) as Hs.
  destruct (validateItemRequest _ _ _ _ _ _ _ _ _) as [[[r invs'] ps'] a'].
  by split_and!.
Qed.

Lemma generateRoomData_players (ms : MatchManager.Matches) mid x y mid' m' :
  (MatchManager.generateRoomData ms mid x y).2 !! mid' = Some m' →
  ∃ m, ms !! mid' = Some m ∧ MatchManager.players m' = MatchManager.players m.
Proof.
  destruct (ms !! mid) as [m|] eqn:Hm.
  - rewrite (generateRoomData_eq ms mid m x y Hm).
    destruct (MatchManager.rooms m !! (x, y)); [by eauto|].
    cbv zeta. destruct (MatchManager.accessible _); cbn [snd];
      (destruct (decide (mid' = mid)) as [->|Hne];
       [rewrite lookup_insert_eq; intros [= <-]; by eauto
       |rewrite lookup_insert_ne by done; by eauto]).
  - unfold MatchManager.generateRoomData. rewrite Hm. by eauto.
Qed.

Lemma updatePlayerPosition_roster (ms : MatchManager.Matches) mid pid pos now mid' m' :
  (MatchManager.updatePlayerPosition ms mid pid pos now).2 !! mid' = Some m' →
  ∃ m, ms !! mid' = Some m ∧
       length (MatchManager.players m') = length (MatchManager.players m).
Proof.
  unfold MatchManager.updatePlayerPosition.
  destruct (ms !! mid) as [m|] eqn:Hm; [|by eauto].
  destruct (Js.omap_get pid (MatchManager.players m)) as [p|] eqn:Hp; [|by eauto].
  assert (Hlen : ∀ p', length (Js.omap_set pid p' (MatchManager.players m))
                       = length (MatchManager.players m)).
  { intros p'. rewrite <- (length_fmap fst), (omap_set_keys pid p p') by done.
    by rewrite length_fmap. }
  case_decide.
  - cbn [snd]. destruct (decide (mid' = mid)) as [->|Hne].
    + rewrite lookup_insert_eq. intros [= <-]. exists m. split; [done|apply Hlen].
    + rewrite lookup_insert_ne by done. by eauto.
  - match goal with
    | |- context [MatchManager.generateRoomData ?ms1 mid ?a ?b] =>
        pose proof (generateRoomData_players ms1 mid a b) as Hgen;
        destruct (MatchManager.generateRoomData ms1 mid a b) as [roomData ms2]
    end.
    cbn [snd] in Hgen.
    assert (Hback : ∀ m2, ms2 !! mid' = Some m2 →
              ∃ m0, ms !! mid' = Some m0 ∧
                    length (MatchManager.players m2) = length (MatchManager.players m0)).
    { intros m2 Hm2. destruct (Hgen mid' m2 Hm2) as (m1 & Hm1 & Hpl).
      destruct (decide (mid' = mid)) as [->|Hne].
      - rewrite lookup_insert_eq in Hm1. injection Hm1 as <-.
        exists m. split; [done|]. rewrite Hpl. apply Hlen.
      - rewrite lookup_insert_ne in Hm1 by done. exists m1. by rewrite Hpl. }
    destruct roomData as [r|]; [|by apply Hback].
    destruct (ms2 !! mid) as [m2|] eqn:Hm2; [|by apply Hback].
    cbn [snd]. destruct (decide (mid' = mid)) as [->|Hne].
    + rewrite lookup_insert_eq. intros [= <-]. apply (Hback m2 Hm2).
    + rewrite lookup_insert_ne by done. apply Hback.
Qed.

Lemma handleNewConnection_single s mid pid uname uuid rnd now :
  single_player_matches s →
  single_player_matches (handleNewConnection s mid pid uname uuid rnd now).
Proof.
  intros Hs. unfold single_player_matches, handleNewConnection,
    MatchManager.getMatchState, createNewMatch. cbn [matchManager].
  destruct (matchManager s !! mid) as [m|] eqn:Hm.
  - intros mid' m' Hm'. apply updatePlayerPosition_roster in Hm' as (m0 & Hm0 & ->).
    apply (Hs _ _ Hm0).
  - unfold MatchManager.createMatch, MatchManager.startMatch. cbn [MatchManager.matchId].
    rewrite lookup_insert_eq. cbn [snd]. rewrite insert_insert_eq.
    by apply map_Forall_insert_2.
Qed.

Lemma handlePlayerDisconnection_registry_ok s pid :
  registry_ok s → registry_ok (handlePlayerDisconnection s pid).
Proof.
  intros (H1 & H2 & H3 & H4).
  destruct (handlePlayerDisconnection_indexed s pid H1 H2) as [H1' H2'].
  split_and!; try done; unfold handlePlayerDisconnection, single_player_matches in *;
    repeat (case_match; cbn); try done.
  rewrite H3. apply delete_empty.
Qed.

Lemma cleanupInactivePlayers_registry_ok s now :
  registry_ok s → registry_ok (cleanupInactivePlayers s now).
Proof.
  intros Hok. unfold cleanupInactivePlayers.
  induction (map_to_list (players s)) as [|[q c] l IH]; cbn; [done|].
  case_match; [by apply handlePlayerDisconnection_registry_ok|done].
Qed.

(** The registry invariant holds on every reachable world. *)
Lemma reachable_registry_ok dropItem w : reachable dropItem w → registry_ok (server w).
Proof.
  induction 1 as [g Hg|w mid pid uname uuid rnd now _ IH|w pid _ IH|w pid now _ IH
                 |w pid st now _ IH|w pid c now _ IH Hc|w pid pos ts now _ IH
                 |w pid tgt ts rnd5 now _ IH|w pid itemId kind ts now _ IH Hkind
                 |w now1 now2 _ IH|w _ IH|w mid now _ IH|w mid _ IH|w _ IH]; cbn [server onServer].
  - split_and!; [done|apply map_Forall_empty|done|apply map_Forall_empty].
  - destruct IH as (H1 & H2 & H3 & H4).
    destruct (handleNewConnection_indexed (server w) mid pid uname uuid rnd now H1 H2).
    split_and!; try done. by apply handleNewConnection_single.
  - by apply handlePlayerDisconnection_registry_ok.
  - apply (registry_ok_same (server w)); [apply handlePing_same|done].
  - apply (registry_ok_same (server w)); [apply handleStatusUpdate_same|done].
  - apply (registry_ok_same (server w)); [apply handlePlayerReady_same|done].
  - apply (registry_ok_same (server w)); [|done]. apply handleMoveRequest_same.
  - apply (registry_ok_same (server w)); [|done]. apply handleAttackRequest_same.
  - apply (registry_ok_same (server w)); [|done]. by apply handleItemAction_same.
  - unfold cleanupTick. by apply cleanupInactivePlayers_registry_ok.
  - destruct IH as (H1 & H2 & H3 & H4). split_and!; try done.
    cbn. rewrite H3. apply fmap_empty.
  - destruct IH as (H1 & H2 & H3 & H4). split_and!; try done.
    unfold single_player_matches, matchTimeLimit, MatchManager.endMatch in *. cbn.
    destruct (matchManager (server w) !! mid) as [m|] eqn:Hm; [|done].
    cbn. apply map_Forall_insert_2; [|done]. apply (H4 _ _ Hm).
  - destruct IH as (H1 & H2 & H3 & H4). split_and!; try done.
    unfold single_player_matches, matchRemoved, MatchManager.reapMatch in *. cbn.
    by apply map_Forall_delete.
  - destruct IH as (H1 & H2 & H3 & H4).
    split_and!; [done|apply map_Forall_empty|done|done].
Qed.

Lemma validateCombatAction_sound a ps att tgt ts rnd5 now :
  map_Forall (fun _ => session_sound) ps →
  map_Forall (fun _ => session_sound) (validateCombatAction a ps att tgt ts rnd5 now).1.2.
Proof.
  intros Hps.
  pose proof (validateCombatAction_cases a ps att tgt ts rnd5 now) as Hcases.
  destruct (validateCombatAction a ps att tgt ts rnd5 now) as [[[res|] ps'] a'] eqn:Hv;
    cbn [fst snd]; [|by destruct Hcases as [-> _]].
  destruct Hcases as (c & t & Hc & Ht & Hhc & _ & Happ & _).
  destruct (validateCombatAction_outcome a ps att tgt ts rnd5 now res ps' a' c t Hv Hc Ht)
    as (Hframe & c' & t' & Hc' & Ht' & _ & Hatt & Hh & Hnew & Hdead).
  apply applyCombatDamage_result in Happ as (t0 & Ht0 & _ & _ & Hdmg & _).
  pose proof (calculateDamage_range c t rnd5) as Hrange.
  unfold minDamagePerHit, maxDamagePerHit in Hrange. rewrite <- Hdmg in Hrange.
  pose proof (Hps _ _ Hc) as [Hcr Hca]. pose proof (Hps _ _ Ht) as [Htr Hta].
  cbv beta in *. unfold maxHealth in *.
  intros p x Hp. destruct (decide (p = tgt)) as [->|Hpt].
  - rewrite Ht' in Hp. injection Hp as <-. unfold session_sound, maxHealth.
    rewrite Hh. destruct (isDead res).
    + destruct Hdead as (H0 & Hal & _). rewrite H0, Hal. split; [lia|]. split; [done|lia].
    + destruct Hdead as (Hpos & Hal & _). rewrite Hal. split; [lia|].
      split; [intros _; lia|]. intros _. apply Hta. lia.
  - destruct (decide (p = att)) as [->|Hpa].
    + rewrite Hc' in Hp. injection Hp as <-. unfold session_sound, maxHealth.
      destruct (Hatt Hpt) as [-> ->]. by split.
    + rewrite Hframe in Hp by done. apply (Hps _ _ Hp).
Qed.

Lemma session_sound_same_state c c' :
  gameState c' = gameState c → session_sound c → session_sound c'.
Proof. unfold session_sound. by intros ->. Qed.

Lemma updatePlayerStatus_sound ps pid st now :
  map_Forall (fun _ => session_sound) ps →
  map_Forall (fun _ => session_sound) (updatePlayerStatus ps pid st now).
Proof.
  intros Hps. unfold updatePlayerStatus. destruct (ps !! pid) as [c|] eqn:Hc; [|done].
  apply map_Forall_insert_2; [|done]. by apply (Hps _ _ Hc).
Qed.

Lemma handlePlayerDisconnection_players s pid :
  players (handlePlayerDisconnection s pid) = delete pid (players s) ∧
  serverAuthority (handlePlayerDisconnection s pid) = serverAuthority s.
Proof.
  unfold handlePlayerDisconnection. destruct (players s !! pid) as [c|] eqn:Hc.
  - by repeat (case_match; cbn).
  - by rewrite delete_id.
Qed.

Lemma handlePlayerDisconnection_health_ok s pid :
  health_ok s → health_ok (handlePlayerDisconnection s pid).
Proof.
  intros [Hs Hi]. destruct (handlePlayerDisconnection_players s pid) as [Hp Ha].
  unfold health_ok, sessions_sound. rewrite Hp, Ha. split; [|done].
  by apply map_Forall_delete.
Qed.

Lemma cleanupInactivePlayers_health_ok s now :
  health_ok s → health_ok (cleanupInactivePlayers s now).
Proof.
  intros Hok. unfold cleanupInactivePlayers.
  induction (map_to_list (players s)) as [|[q c] l IH]; cbn; [done|].
  case_match; [by apply handlePlayerDisconnection_health_ok|done].
Qed.

Lemma validateMovement_gameItems a pid fromPos toPos ts pd now :
  gameItems (validateMovement a pid fromPos toPos ts pd now).2 = gameItems a.
Proof.
  unfold validateMovement, recordPlayerAction, checkActionFrequency.
  repeat (case_match; cbn [snd]); rewrite ?flag_gameItems; done.
Qed.

Lemma validateCombatAction_gameItems a ps att tgt ts rnd5 now :
  gameItems (validateCombatAction a ps att tgt ts rnd5 now).2 = gameItems a.
Proof.
  unfold validateCombatAction, recordPlayerAction, checkActionFrequency.
  repeat (case_match; cbn [snd]); rewrite ?flag_gameItems; done.
Qed.

Lemma applyItemEffects_sound g it :
  match effects it with
  | Some e => match eff_health e with Some h => 0 ≤ h | None => True end
  | None => True
  end →
  0 < health g → 0 ≤ health g ≤ maxHealth →
  0 < health (applyItemEffects g it) ≤ maxHealth ∧
  alive (applyItemEffects g it) = alive g.
Proof.
  unfold applyItemEffects, maxHealth.
  destruct (effects it) as [e|]; [|intros _ ? ?; split; [lia|done]].
  destruct (eff_health e) as [h|]; cbn; [|intros _ ? ?; split; [lia|done]].
  intros Hh Hpos Hr. destruct (h =? 0); split; try done; lia.
Qed.

Lemma processItemAction_health_ok dropItem invs ref a ps pid it kind ts c :
  kind ≠ act_drop →
  map_Forall (fun _ => session_sound) ps → items_ok (gameItems a) →
  ps !! pid = Some c → 0 < health (gameState c) → gameItems a !! ref = Some it →
  let res := processItemAction dropItem invs ref a ps pid it kind ts in
  map_Forall (fun _ => session_sound) res.1.2 ∧ items_ok (gameItems res.2).
Proof.
  intros Hkind Hps Hitems Hc Hpos Hit. cbv zeta. unfold processItemAction.
  destruct kind; try done.
  - pose proof (pickupItem_world invs a pid it) as Hw.
    destruct (pickupItem invs a pid it) as [[r invs'] a']. cbn [fst snd] in *.
    split; [done|]. destruct Hw as [-> | ->]; [done|]. by apply map_Forall_delete.
  - unfold useItem. rewrite Hc.
    destruct (invs !! pid) as [inv|]; [|done].
    assert (Huse :
      map_Forall (fun _ => session_sound)
        (<[pid := set_gameState (applyItemEffects (gameState c) it) c]> ps) ∧
      items_ok (alter (fun _ => set_quantity (Z.max 0 (quantity it - 1)) it) ref
                      (gameItems a))).
    { pose proof (Hitems _ _ Hit) as Hgood. cbv beta in Hgood.
      destruct (Hps _ _ Hc) as [Hr Ha].
      destruct (applyItemEffects_sound (gameState c) it Hgood Hpos Hr) as [Hr' Ha'].
      split.
      - apply map_Forall_insert_2; [|done]. unfold session_sound. cbn. rewrite Ha'.
        split; [lia|]. split; [lia|]. intros _. apply Ha. lia.
      - intros k x Hk. apply lookup_alter_Some in Hk as [(_ & y & Hy & ->)|[_ Hk]].
        + exact Hgood.
        + apply (Hitems _ _ Hk). }
    destruct (item_type it); try done.
    all: repeat (case_match; cbn [fst snd gameItems set_gameItems]); exact Huse.
  - by destruct (equipItem invs pid it).
  - by destruct (unequipItem invs pid it).
Qed.

Lemma validateItemRequest_health_ok dropItem invs a ps pid itemId kind ts now :
  kind ≠ act_drop →
  map_Forall (fun _ => session_sound) ps → items_ok (gameItems a) →
  let res := validateItemRequest dropItem invs a ps pid itemId kind ts now in
  map_Forall (fun _ => session_sound) res.1.2 ∧ items_ok (gameItems res.2).
Proof.
  intros Hkind Hps Hitems. cbv zeta. unfold validateItemRequest, validateItemAction.
  destruct (ps !! pid) as [c|] eqn:Hc; [|done].
  destruct (Z.leb_spec (health (gameState c)) 0) as [|Hpos]; cbn [fst snd];
    [by rewrite flag_gameItems|].
  destruct (findItemById a itemId) as [it|] eqn:Hit; cbn [fst snd];
    [|by rewrite flag_gameItems].
  destruct (distance_gt _ _); cbn [fst snd]; [by rewrite flag_gameItems|].
  pose proof (processItemAction_health_ok dropItem invs itemId a ps pid it kind ts c
                Hkind Hps Hitems Hc Hpos Hit) as Hok.
  destruct (processItemAction _ _ _ _ _ _ _ _ _) as [[[r invs'] ps'] a']. exact Hok.
Qed.

(** The health invariant holds on every reachable world. *)
Lemma reachable_health_ok dropItem w : reachable dropItem w → health_ok (server w).
Proof.
  induction 1 as [g Hg|w mid pid uname uuid rnd now _ IH|w pid _ IH|w pid now _ IH
                 |w pid st now _ IH|w pid c now _ IH Hc|w pid pos ts now _ IH
                 |w pid tgt ts rnd5 now _ IH|w pid itemId kind ts now _ IH Hkind
                 |w now1 now2 _ IH|w _ IH|w mid now _ IH|w mid _ IH|w _ IH]; cbn [server onServer].
  - split; [apply map_Forall_empty|done].
  - destruct IH as [Hs Hi]. split; [|done].
    unfold sessions_sound, handleNewConnection. cbn [players].
    apply updatePlayerStatus_sound, map_Forall_insert_2; [|done].
    unfold session_sound, maxHealth. cbn. split; [lia|]. split; [lia|done].
  - by apply handlePlayerDisconnection_health_ok.
  - destruct IH as [Hs Hi]. split; [|by unfold handlePing; case_match].
    unfold sessions_sound, handlePing.
    destruct (players (server w) !! pid) as [c|] eqn:Hc; [|done].
    cbn. apply map_Forall_insert_2; [|done]. by apply (Hs _ _ Hc).
  - destruct IH as [Hs Hi]. split; [|by unfold handleStatusUpdate; case_match].
    unfold sessions_sound, handleStatusUpdate. case_match; [|done].
    by apply updatePlayerStatus_sound.
  - destruct IH as [Hs Hi]. split; [|by unfold handlePlayerReady; repeat case_match].
    unfold sessions_sound, handlePlayerReady.
    destruct (matches (server w) !! _); [|done]. rewrite Hc. cbn.
    apply updatePlayerStatus_sound, map_Forall_insert_2; [|done]. by apply (Hs _ _ Hc).
  - destruct IH as [Hs Hi]. unfold health_ok, sessions_sound, handleMoveRequest.
    destruct (players (server w) !! pid) as [c|] eqn:Hc; [|done].
    destruct (alive (gameState c)); [|done]. cbn [negb].
    pose proof (validateMovement_gameItems (serverAuthority (server w)) pid
                  (position (gameState c)) pos (Js.or_undef_time ts (Js.Num now))
                  (connectionAsPlayerData c) now) as Hg.
    destruct (validateMovement _ _ _ _ _ _ _) as [[v|] a']; cbn [fst snd] in Hg;
      cbn [fst snd serverAuthority players]; rewrite Hg; (split; [|done]); [|done].
    apply map_Forall_insert_2; [|done]. by apply (Hs _ _ Hc).
  - destruct IH as [Hs Hi]. unfold health_ok, sessions_sound, handleAttackRequest.
    destruct (players (server w) !! pid) as [c|] eqn:Hc; [|done].
    destruct (alive (gameState c)); [|done]. cbn [negb].
    pose proof (validateCombatAction_gameItems (serverAuthority (server w))
                  (players (server w)) pid tgt (Js.or_undef_time ts (Js.Num now)) rnd5 now) as Hg.
    pose proof (validateCombatAction_sound (serverAuthority (server w))
                  (players (server w)) pid tgt (Js.or_undef_time ts (Js.Num now)) rnd5 now Hs)
      as Hsound.
    destruct (validateCombatAction _ _ _ _ _ _ _) as [[res ps'] a']; cbn [fst snd] in *.
    cbn [serverAuthority players]. rewrite Hg. split; [|done].
    destruct res as [r|]; [|done]. destruct (isDead r); [|done].
    unfold GameServer.handlePlayerDeath. destruct (ps' !! tgt) as [d|]; [|done].
    apply map_Forall_insert_2; [|done].
    unfold session_sound, maxHealth. cbn. split; [lia|]. split; [done|lia].
  - destruct IH as [Hs Hi]. unfold health_ok, sessions_sound, handleItemAction.
    destruct (players (server w) !! pid) as [c|] eqn:Hc; [|done].
    destruct (alive (gameState c)); [|done]. cbn [negb].
    pose proof (validateItemRequest_health_ok dropItem (inventories w)
                  (serverAuthority (server w)) (players (server w)) pid itemId kind
                  (Js.or_undef_time ts (Js.Num now)) now Hkind Hs Hi) as Hok.
    destruct (validateItemRequest _ _ _ _ _ _ _ _ _) as [[[r invs'] ps'] a'].
    exact Hok.
  - unfold cleanupTick. apply cleanupInactivePlayers_health_ok.
    destruct IH as [Hs Hi]. by split.
  - done.
  - done.
  - done.
  - destruct IH as [Hs Hi]. split; [apply map_Forall_empty|done].
Qed.

Lemma duelWorld_reachable dropItem : reachable dropItem duelWorld.
Proof.
  apply (reach_connect dropItem
           {| server := handleNewConnection initialServer "lobby" "a" "Ann" "m-1" 7 1000;
              inventories := ∅ |} "lobby" "b" "Bob" "m-2" 7 1000).
  apply (reach_connect dropItem {| server := initialServer; inventories := ∅ |}
           "lobby" "a" "Ann" "m-1" 7 1000).
  apply (reach_start dropItem ∅). apply map_Forall_empty.
Qed.

(** On every world that the handlers produce, every session is listed in
    the index set of the match it joined, so a broadcast to that match
    reaches it; and the index holds no empty set. *)
Theorem sessions_are_indexed
    (dropItem : Inventories → Authority → Players → string → Item → Js.Timestamp →
                ItemOutcome * Inventories * Players * Authority) w :
  reachable dropItem w → sessions_indexed (server w) ∧ index_nonempty (server w).
Proof. intros Hr. destruct (reachable_registry_ok dropItem w Hr) as (H1 & H2 & _). done. Qed.

Lemma sessions_are_indexed_witness : sessions_indexed duel ∧ index_nonempty duel.
Proof. apply (sessions_are_indexed dropRefused duelWorld), duelWorld_reachable. Defined.

(** On every world that the handlers produce, the legacy match table is
    empty: a PLAYER_READY message changes nothing (no ready flag is set, no
    status changes), and the autoattack tick finds no match to process. *)
Theorem ready_messages_change_nothing
    (dropItem : Inventories → Authority → Players → string → Item → Js.Timestamp →
                ItemOutcome * Inventories * Players * Authority) w :
  reachable dropItem w →
  matches (server w) = ∅ ∧
  (∀ pid mid now, handlePlayerReady (server w) pid mid now = server w) ∧
  processAutoAttackTick (server w) = server w.
Proof.
  intros Hr. destruct (reachable_registry_ok dropItem w Hr) as (_ & _ & Hm & _).
  split_and!; [done| |].
  - intros pid mid now. unfold handlePlayerReady. by rewrite Hm, lookup_empty.
  - unfold processAutoAttackTick. rewrite Hm, fmap_empty, <- Hm. by destruct (server w).
Qed.

Lemma ready_messages_change_nothing_witness :
  handlePlayerReady duel "a" "lobby" 3000 = duel.
Proof.
  destruct (ready_messages_change_nothing dropRefused duelWorld) as (_ & H & _).
  - apply duelWorld_reachable.
  - apply (H "a" "lobby" 3000).
Defined.

(** On every world that the handlers produce, every match of the match
    manager lists exactly one player, the one whose connection created it:
    no handler adds a player to an existing match. *)
Theorem server_matches_have_one_player
    (dropItem : Inventories → Authority → Players → string → Item → Js.Timestamp →
                ItemOutcome * Inventories * Players * Authority) w :
  reachable dropItem w → single_player_matches (server w).
Proof. intros Hr. by destruct (reachable_registry_ok dropItem w Hr) as (_ & _ & _ & H). Qed.

Lemma server_matches_have_one_player_witness : single_player_matches duel.
Proof. apply (server_matches_have_one_player dropRefused duelWorld), duelWorld_reachable. Defined.

(** On every world that the handlers produce, the health of every session
    lies within [0, 100] and the session is marked alive exactly while its
    health is positive. *)
Theorem session_alive_iff_health
    (dropItem : Inventories → Authority → Players → string → Item → Js.Timestamp →
                ItemOutcome * Inventories * Players * Authority) w :
  reachable dropItem w → sessions_sound (server w).
Proof. intros Hr. by destruct (reachable_health_ok dropItem w Hr). Qed.

(** Attack requests keep a world among those the handlers produce. *)
Lemma attacksOnB_reachable dropItem n : ∀ s invs t0,
  reachable dropItem {| server := s; inventories := invs |} →
  reachable dropItem {| server := Runs.attacksOnB s t0 n; inventories := invs |}.
Proof.
  induction n as [|n IH]; intros s invs t0 Hr; [done|].
  cbn [Runs.attacksOnB]. apply IH.
  apply (reach_attack dropItem {| server := s; inventories := invs |}
                      "a" "b" (Some (Js.Num t0)) 2 t0 Hr).
Qed.

Lemma session_alive_iff_health_witness :
  ∃ a b, players Runs.afterKill !! "a" = Some a ∧ players Runs.afterKill !! "b" = Some b ∧
         session_sound a ∧ session_sound b ∧
         health (gameState a) = 100 ∧ alive (gameState a) = true ∧
         health (gameState b) = 0 ∧ alive (gameState b) = false.
Proof.
  pose proof (session_alive_iff_health dropRefused
                {| server := Runs.afterKill; inventories := ∅ |}
                (attacksOnB_reachable dropRefused 5 Runs.duel ∅ 2000
                   (duelWorld_reachable dropRefused))) as Hsound.
  destruct (players Runs.afterKill !! "a") as [a|] eqn:Ha; [|by vm_compute in Ha].
  destruct (players Runs.afterKill !! "b") as [b|] eqn:Hb; [|by vm_compute in Hb].
  exists a, b. split_and!; try reflexivity.
  - exact (Hsound "a" a Ha).
  - exact (Hsound "b" b Hb).
  - vm_compute in Ha. by injection Ha as <-.
  - vm_compute in Ha. by injection Ha as <-.
  - vm_compute in Hb. by injection Hb as <-.
  - vm_compute in Hb. by injection Hb as <-.
Defined.

Lemma cleanup_fold_players s now l :
  players (foldr (fun entry acc =>
                    let '(playerId, c) := entry in
                    if (60000 <? now - lastPing c) && isAlive c
                    then handlePlayerDisconnection acc playerId
                    else acc) s l)
  = foldr (fun entry acc =>
             if (60000 <? now - lastPing entry.2) && isAlive entry.2
             then delete entry.1 acc else acc) (players s) l ∧
  serverAuthority (foldr (fun entry acc =>
                    let '(playerId, c) := entry in
                    if (60000 <? now - lastPing c) && isAlive c
                    then handlePlayerDisconnection acc playerId
                    else acc) s l) = serverAuthority s ∧
  matchManager (foldr (fun entry acc =>
                    let '(playerId, c) := entry in
                    if (60000 <? now - lastPing c) && isAlive c
                    then handlePlayerDisconnection acc playerId
                    else acc) s l) = matchManager s.
Proof.
  induction l as [|[q c] l (IH1 & IH2 & IH3)]; cbn; [done|].
  destruct ((60000 <? now - lastPing c) && isAlive c); [|done].
  destruct (handlePlayerDisconnection_players (foldr (fun entry acc =>
                    let '(playerId, c) := entry in
                    if (60000 <? now - lastPing c) && isAlive c
                    then handlePlayerDisconnection acc playerId
                    else acc) s l) q) as [-> ->].
  rewrite IH1. split_and!; try done.
  unfold handlePlayerDisconnection. repeat case_match; done.
Qed.

Lemma fold_delete_lookup (m : Players) now l pid :
  foldr (fun entry acc =>
           if (60000 <? now - lastPing entry.2) && isAlive entry.2
           then delete entry.1 acc else acc) m l !! pid
  = if existsb (fun e : string * PlayerConnection =>
                  bool_decide (e.1 = pid) &&
                  ((60000 <? now - lastPing e.2) && isAlive e.2)) l
    then None else m !! pid.
Proof.
  induction l as [|[q c] l IH]; cbn [foldr existsb fst snd]; [done|].
  destruct ((60000 <? now - lastPing c) && isAlive c) eqn:Hcond.
  - destruct (decide (q = pid)) as [->|Hq].
    + by rewrite lookup_delete_eq, bool_decide_eq_true_2.
    + by rewrite lookup_delete_ne, IH, bool_decide_eq_false_2.
  - by rewrite IH, andb_false_r.
Qed.

(** [cleanupInactivePlayers] releases exactly the sessions whose last
    heartbeat is more than 60 s old: such a session is gone afterwards,
    every other session is kept as it is; the anti-cheat records and the
    match manager are not touched. *)
Theorem cleanup_releases_silent_sessions s now :
  (∀ pid,
     players (cleanupInactivePlayers s now) !! pid
     = c ← players s !! pid;
       if (60000 <? now - lastPing c) && isAlive c then None else Some c) ∧
  serverAuthority (cleanupInactivePlayers s now) = serverAuthority s ∧
  matchManager (cleanupInactivePlayers s now) = matchManager s.
Proof.
  unfold cleanupInactivePlayers.
  destruct (cleanup_fold_players s now (map_to_list (players s))) as (-> & -> & ->).
  split_and!; try done. intros pid. rewrite fold_delete_lookup.
  destruct (existsb _ _) eqn:Hex.
  - apply List.existsb_exists in Hex as ([q c'] & Hin & Hcond).
    apply andb_true_iff in Hcond as [Hq Hcond]. apply bool_decide_eq_true in Hq.
    cbn in Hq, Hcond. subst q.
    apply list_elem_of_In, elem_of_map_to_list in Hin. rewrite Hin. cbn. by rewrite Hcond.
  - destruct (players s !! pid) as [c|] eqn:Hc; cbn; [|done].
    destruct ((60000 <? now - lastPing c) && isAlive c) eqn:Hcond; [|done].
    exfalso. apply not_true_iff_false in Hex. apply Hex, List.existsb_exists.
    exists (pid, c). split.
    + by apply list_elem_of_In, elem_of_map_to_list.
    + cbn. by rewrite bool_decide_eq_true_2.
Qed.

Lemma validateMovement_result_indep a a' pid fromPos toPos ts pd now :
  (validateMovement a pid fromPos toPos ts pd now).1
  = (validateMovement a' pid fromPos toPos ts pd now).1.
Proof. unfold validateMovement. by repeat case_match. Qed.

Lemma validateCombatAction_result_indep a a' ps att tgt ts rnd5 now :
  (validateCombatAction a ps att tgt ts rnd5 now).1
  = (validateCombatAction a' ps att tgt ts rnd5 now).1.
Proof. unfold validateCombatAction. by repeat case_match. Qed.

(** The anti-cheat records never decide a request: with any other action
    history and violation log (even one beyond the auto-kick threshold) a
    move request and an attack request get the same reply and leave the
    same sessions. *)
Theorem violation_history_never_decides s a' pid pos tgt ts rnd5 now :
  (handleMoveRequest (set_authority a' s) pid pos ts now).1
  = (handleMoveRequest s pid pos ts now).1 ∧
  players (handleMoveRequest (set_authority a' s) pid pos ts now).2
  = players (handleMoveRequest s pid pos ts now).2 ∧
  (handleAttackRequest (set_authority a' s) pid tgt ts rnd5 now).1
  = (handleAttackRequest s pid tgt ts rnd5 now).1 ∧
  players (handleAttackRequest (set_authority a' s) pid tgt ts rnd5 now).2
  = players (handleAttackRequest s pid tgt ts rnd5 now).2.
Proof.
  unfold handleMoveRequest, handleAttackRequest. cbn [players serverAuthority set_authority].
  destruct (players s !! pid) as [c|]; [|done].
  destruct (alive (gameState c)); [|done]. cbn [negb].
  pose proof (validateMovement_result_indep a' (serverAuthority s) pid
                (position (gameState c)) pos (Js.or_undef_time ts (Js.Num now))
                (connectionAsPlayerData c) now) as Hm.
  pose proof (validateCombatAction_result_indep a' (serverAuthority s) (players s) pid tgt
                (Js.or_undef_time ts (Js.Num now)) rnd5 now) as Hc.
  destruct (validateMovement a' _ _ _ _ _ _) as [v1 a1].
  destruct (validateMovement (serverAuthority s) _ _ _ _ _ _) as [v2 a2].
  destruct (validateCombatAction a' _ _ _ _ _ _) as [[r1 ps1] b1].
  destruct (validateCombatAction (serverAuthority s) _ _ _ _ _ _) as [[r2 ps2] b2].
  cbn [fst snd] in *. injection Hc as -> ->. subst v2.
  split_and!; try done; by destruct v1.
Qed.

Lemma omap_delete_keys {V} (k : Z) (m : list (Z * V)) (R : Z → Prop) :
  NoDup m.*1 → Forall R m.*1 →
  NoDup (omap_delete k m).*1 ∧ Forall R (omap_delete k m).*1.
Proof.
  unfold omap_delete. induction m as [|[k0 v0] m IH]; [done|].
  rewrite fmap_cons. cbn [fst].
  intros Hnd HR. apply NoDup_cons in Hnd as [Hk0 Hnd]. apply Forall_cons in HR as [HR0 HR].
  destruct (IH Hnd HR) as [IH1 IH2].
  rewrite filter_cons. case_decide; [|done]. rewrite fmap_cons. cbn [fst].
  split; [|by apply Forall_cons]. apply NoDup_cons. split; [|done].
  intros Hin. apply Hk0. apply list_elem_of_fmap in Hin as ([k1 v1] & -> & Hin).
  apply list_elem_of_filter in Hin as [_ Hin]. apply list_elem_of_fmap. by exists (k1, v1).
Qed.

Lemma processItemAction_invs_ok dropItem invs ref a ps pid it kind ts :
  kind ≠ act_drop → invs_ok invs →
  invs_ok (processItemAction dropItem invs ref a ps pid it kind ts).1.1.2.
Proof.
  intros Hkind Hok. unfold processItemAction. destruct kind; try done.
  - destruct (pickupItem_spec invs a pid it Hok) as [H _].
    by destruct (pickupItem invs a pid it) as [[r invs'] a'].
  - unfold useItem. destruct (invs !! pid) as [inv|] eqn:Hinv; [|done].
    destruct (ps !! pid) as [c|]; [|done].
    destruct (item_type it); try done. cbn [fst snd].
    case_match; [|done]. case_match; [|done].
    apply map_Forall_insert_2; [|done].
    destruct (Hok _ _ Hinv) as (Hmax & Hnd & Hrange).
    match goal with
    | |- inv_ok (set_items (omap_delete ?slot _) _) =>
        destruct (omap_delete_keys slot (inv_items inv) (fun k => 0 ≤ k < 20) Hnd Hrange)
    end.
    by split_and!.
  - unfold equipItem, unequipItem.
    destruct (invs !! pid) as [inv|] eqn:Hinv; [|done].
    assert (Hset : ∀ eq inv0, inv_ok inv0 → inv_ok (set_equipped eq inv0)) by done.
    destruct (item_type it); try done; cbn [fst snd];
      destruct (equipped inv !! _) as [cur|]; cbn [fst snd]; rewrite ?Hinv; cbn [fst snd];
      rewrite ?lookup_insert_eq; cbn [fst snd];
      repeat (apply map_Forall_insert_2; [apply Hset|]); try done;
      try (by apply (Hok _ _ Hinv)).
  - unfold unequipItem. destruct (invs !! pid) as [inv|] eqn:Hinv; [|done]. cbn.
    apply map_Forall_insert_2; [|done]. by apply (Hok _ _ Hinv).
Qed.

Lemma reachable_invs_ok dropItem w : reachable dropItem w → invs_ok (inventories w).
Proof.
  induction 1 as [g Hg|w mid pid uname uuid rnd now _ IH|w pid _ IH|w pid now _ IH
                 |w pid st now _ IH|w pid c now _ IH Hc|w pid pos ts now _ IH
                 |w pid tgt ts rnd5 now _ IH|w pid itemId kind ts now _ IH Hkind
                 |w now1 now2 _ IH|w _ IH|w mid now _ IH|w mid _ IH|w _ IH];
    cbn [inventories onServer]; try done.
  unfold handleItemAction.
  { destruct (players (server w) !! pid) as [c|]; [|done].
    destruct (alive (gameState c)); [|done]. cbn [negb].
    unfold validateItemRequest, validateItemAction.
    destruct (players (server w) !! pid) as [c'|]; [|done].
    destruct (_ <=? 0); [done|].
    destruct (findItemById _ itemId) as [it|]; [|done].
    destruct (distance_gt _ _); [done|].
    pose proof (processItemAction_invs_ok dropItem (inventories w) itemId
                  (serverAuthority (server w)) (players (server w)) pid it kind
                  (Js.or_undef_time ts (Js.Num now)) Hkind IH) as Hok.
    destruct (processItemAction _ _ _ _ _ _ _ _ _) as [[[r invs'] ps'] a']. exact Hok. }
Qed.

(** On every world that the handlers produce, every inventory holds at
    most 20 items, in distinct slots numbered within 0 .. 19. *)
Theorem inventories_stay_within_slots
    (dropItem : Inventories → Authority → Players → string → Item → Js.Timestamp →
                ItemOutcome * Inventories * Players * Authority) w pid inv :
  reachable dropItem w → inventories w !! pid = Some inv →
  (length (inv_items inv) ≤ 20)%nat ∧
  NoDup (inv_items inv).*1 ∧
  Forall (fun k => 0 ≤ k < 20) (inv_items inv).*1.
Proof.
  intros Hr Hinv. pose proof (reachable_invs_ok dropItem w Hr pid inv Hinv) as Hok.
  split; [by apply inv_ok_length|]. by destruct Hok as (_ & ? & ?).
Qed.

Lemma afterPickup_reachable : reachable dropRefused afterPickup.
Proof.
  apply (reach_item dropRefused potionWorld "a" "health_potion_1" act_pickup
                    (Some (Js.Num 2000)) 2000); [|done].
  apply (reach_connect dropRefused _ "lobby" "a" "Ann" "m-1" 7 1000).
  apply (reach_start dropRefused). by apply map_Forall_singleton.
Qed.

Lemma inventories_stay_within_slots_witness :
  (length [(0, healthPotion)] ≤ 20)%nat ∧
  NoDup [(0, healthPotion)].*1 ∧
  Forall (fun k => 0 ≤ k < 20) [(0, healthPotion)].*1.
Proof.
  apply (inventories_stay_within_slots dropRefused afterPickup "a"
           {| inv_playerId := "a"; inv_items := [(0, healthPotion)]; equipped := ∅;
              maxSlots := 20 |}).
  - apply afterPickup_reachable.
  - vm_compute. reflexivity.
Defined.

(** The range checks compare a distance computed from the [x] and [y] of
    the two positions.  A session that has not yet had a move accepted
    still holds its initial [{world, room}] position, for which that
    distance is not a number, and the comparison is false: an attack by or
    on such a session passes the range check whatever the positions, and
    so does an item request of such a session. *)
Theorem range_checks_pass_without_coordinates
    (dropItem : Inventories → Authority → Players → string → Item → Js.Timestamp →
                ItemOutcome * Inventories * Players * Authority)
    invs a ps att tgt ts rnd5 now c t itemId kind it :
  ps !! att = Some c → ps !! tgt = Some t →
  0 < health (gameState c) →
  (∃ wr, position (gameState c) = WR wr) ∨ (∃ wr, position (gameState t) = WR wr) →
  (Js.lt (Js.sub (Js.toNumber ts) (Js.toNumber (lastAttackTime (gameState c))))
         (Js.Fin attackCooldown) = false →
   ∃ res, (validateCombatAction a ps att tgt ts rnd5 now).1.1 = Some res) ∧
  ((∃ wr, position (gameState c) = WR wr) → findItemById a itemId = Some it →
   ∃ r, (validateItemRequest dropItem invs a ps att itemId kind ts now).1.1.1 = Some r).
Proof.
  intros Hc Ht Hpos Hwr. split.
  - intros Hcool. unfold validateCombatAction. rewrite Hc, Ht.
    destruct (Z.leb_spec (health (gameState c)) 0) as [|_]; [lia|].
    rewrite or_time_zero, Hcool.
    assert (Hd : distance_gt (calculateDistanceSq (position (gameState c))
                                                  (position (gameState t)))
                             (maxAttackRange, 1) = false).
    { destruct Hwr as [[wr ->]|[wr ->]]; [done|].
      by destruct (position (gameState c)). }
    rewrite Hd. unfold applyCombatDamage. rewrite Hc, Ht.
    destruct (decide (att = tgt)) as [->|Hne].
    + rewrite lookup_insert_eq. eauto.
    + rewrite lookup_insert_ne, Ht by done. eauto.
  - intros [wr Hwr'] Hit. unfold validateItemRequest, validateItemAction. rewrite Hc.
    destruct (Z.leb_spec (health (gameState c)) 0) as [|_]; [lia|].
    rewrite Hit, Hwr'. cbn [calculateDistanceSq coord_x coord_y distance_gt].
    destruct (processItemAction _ _ _ _ _ _ _ _ _) as [[[r invs'] ps'] a']. eauto.
Qed.

Lemma range_checks_pass_without_coordinates_witness :
  ∃ res, (validateCombatAction noAuthority (players duel) "a" "b"
                               (Js.Num 2000) 2 2000).1.1
         = Some res.
Proof.
  destruct (range_checks_pass_without_coordinates dropRefused ∅ noAuthority (players duel)
              "a" "b" (Js.Num 2000) 2 2000
              (set_status "connected" 1000 (newConnection "lobby" "a" "Ann" 1000))
              (set_status "connected" 1000 (newConnection "lobby" "b" "Bob" 1000))
              "health_potion_1" act_pickup healthPotion) as [H _].
  - vm_compute. reflexivity.
  - vm_compute. reflexivity.
  - reflexivity.
  - left. exists startPosition. reflexivity.
  - apply H. reflexivity.
Defined.

End ServerFacts.
